(** * A shallow embedding of [SkipList<Key>] (include/skip_list.hpp)

    The container is a pointer structure: nodes live on the C++ free store
    and are linked by raw pointers, one forward pointer per level.  The
    embedding keeps that shape.  The free store is a finite map from
    addresses to nodes, a [Node*] is an [option addr] ([None] is [nullptr]),
    a [std::vector<Node*>] is a [list (option addr)], and every member
    function is a function on a heap and a [SkipList] record.

    Undefined behaviour (dereferencing a null or dangling pointer, indexing
    a vector out of range) and a loop that never terminates are both the
    result [None].  The [while] loops that chase pointers are given as fuel
    the number of allocated nodes: a walk that takes more steps than there
    are nodes has visited some node twice and, being deterministic, never
    stops in the program either.

    The [int]s that count levels are natural numbers here: [maxLevel_] is a
    vector size, never below 1, and the only arithmetic on levels is one
    step up or down within that size.  [maxAllowedLevel_] is whatever the
    caller passed and stays in [Z].  The [double]s are an abstract type with
    a comparison, and [std::mt19937] is an abstract state with the draw
    [dist_(rng_)].  A [const] member function that stores nothing
    ([contains], [begin], [printByLevels]) is a function of the state
    without a state result; [randomLevel], which is [const] but advances the
    [mutable] generator, returns the list as well. *)

From Stdlib Require Import ZArith QArith Ascii String.
From stdpp Require Import ssreflect base option list gmap sorting strings.
Close Scope Q_scope.
Set Warnings "-rewrite-rw,-clear-no-such-hyp".

(** ** Interfaces of the template parameter and of the random source *)

(** [Key] must be default constructible and provide [operator<] and
    [operator==]. *)
Class KeyOps (Key : Type) := {
  key_eq_dec :: EqDecision Key;
  key_lt : relation Key;
  key_lt_dec :: RelDecision key_lt;
  key_default : Key;
}.

(** [operator<] is a strict total order that agrees with [operator==]. *)
Class KeyLaws (Key : Type) `{KeyOps Key} : Prop := {
  key_lt_strict :: StrictOrder key_lt;
  key_lt_trichotomy :: Trichotomy key_lt;
}.

(** [dist rng] is [dist_(rng_)]: the value drawn and the generator after the
    draw.  [real_lt] is [<] on [double]. *)
Class RandomSource (Rng Real : Type) := {
  dist : Rng → Real * Rng;
  real_lt : Real → Real → bool;
}.

Abbreviation addr := nat.

Section Code.
Context {Key : Type} `{KeyOps Key}.
Context {Rng Real : Type} `{RandomSource Rng Real}.

(** ** Data model *)

Record Node := mkNode {
  key : Key;
  next : list (option addr);
}.

Abbreviation Heap := (gmap addr Node).

Record SkipList := mkSkipList {
  head_ : option addr;
  maxLevel_ : nat;
  maxAllowedLevel_ : Z;
  probability_ : Real;
  rng_ : Rng;
}.

(** [new Node(k, level)]: the address the allocator returns and the heap
    with the node in it.  Only freshness of the address is ever used. *)
Definition new_Node (k : Key) (level : nat) (h : Heap) : addr * Heap :=
  let a := fresh (dom h) in (a, <[a := mkNode k (replicate level None)]> h).

(** [a->next[i]] as an rvalue; [None] when [a] dangles or [i] is out of range. *)
Definition next_at (h : Heap) (a : addr) (i : nat) : option (option addr) :=
  n ← h !! a; next n !! i.

(** [v[i] = x] on a [std::vector]; out of range is undefined behaviour. *)
Definition store {A} (v : list A) (i : nat) (x : A) : option (list A) :=
  if decide (i < length v) then Some (<[i := x]> v) else None.

(** [a->next[i] = v]. *)
Definition set_next (h : Heap) (a : addr) (i : nat) (v : option addr) : option Heap :=
  n ← h !! a;
  if decide (i < length (next n))
  then Some (<[a := mkNode (key n) (<[i := v]> (next n))]> h)
  else None.

(** ** Construction *)

(** [SkipList(probability, maxAllowedLevel)]; [seed] is the generator state
    after [rng_.seed(rd())]. *)
Definition SkipList_new (probability : Real) (maxAllowedLevel : Z) (seed : Rng)
    (h : Heap) : Heap * SkipList :=
  let '(a, h') := new_Node key_default 1 h in
  (h', mkSkipList (Some a) 1 maxAllowedLevel probability seed).

(** ** randomLevel *)

(** The loop of [randomLevel]: the draw comes first in the condition, so it
    is consumed on every evaluation, also on the one that leaves the loop. *)
Fixpoint randomLevel_loop (fuel : nat) (sl : SkipList) (level : nat) (rng : Rng)
    : option (nat * Rng) :=
  let '(d, rng') := dist rng in
  if real_lt d (probability_ sl)
     && (Z.of_nat level <? maxAllowedLevel_ sl)%Z
     && (level <? maxLevel_ sl + 1)
  then match fuel with
       | 0 => None
       | S f => randomLevel_loop f sl (S level) rng'
       end
  else Some (level, rng').

(** [randomLevel()]: the level and the list with its generator advanced
    ([rng_] is [mutable]). *)
Definition randomLevel (sl : SkipList) : option (nat * SkipList) :=
  '(level, rng') ← randomLevel_loop (maxLevel_ sl) sl 1 (rng_ sl);
  Some (level, mkSkipList (head_ sl) (maxLevel_ sl) (maxAllowedLevel_ sl)
                          (probability_ sl) rng').

(** ** The search loops *)

(** [while (cur->next[i] && cur->next[i]->key < key) cur = cur->next[i];] *)
Fixpoint advance (fuel : nat) (h : Heap) (k : Key) (i : nat) (cur : addr)
    : option addr :=
  match fuel with
  | 0 => None
  | S f =>
      nx ← next_at h cur i;
      match nx with
      | None => Some cur
      | Some a =>
          n ← h !! a;
          if decide (key_lt (key n) k) then advance f h k i a else Some cur
      end
  end.

(** [for (int i = lvl - 1; i >= 0; --i) { advance; update[i] = cur; }] as in
    [insert] and [erase]. *)
Fixpoint search_update (fuel : nat) (h : Heap) (k : Key) (lvl : nat) (cur : addr)
    (update : list (option addr)) : option (addr * list (option addr)) :=
  match lvl with
  | 0 => Some (cur, update)
  | S i =>
      cur' ← advance fuel h k i cur;
      update' ← store update i (Some cur');
      search_update fuel h k i cur' update'
  end.

(** The same descent without the [update] vector, as in [contains]. *)
Fixpoint descend (fuel : nat) (h : Heap) (k : Key) (lvl : nat) (cur : addr)
    : option addr :=
  match lvl with
  | 0 => Some cur
  | S i => cur' ← advance fuel h k i cur; descend fuel h k i cur'
  end.

(** [cur && cur->key == key] *)
Definition key_is (h : Heap) (cur : option addr) (k : Key) : option bool :=
  match cur with
  | None => Some false
  | Some c => n ← h !! c; Some (bool_decide (key n = k))
  end.

(** ** insert *)

(** [for (int i = maxLevel_; i < newLevel; ++i) update[i] = head_;] with
    [n = newLevel - i] iterations left. *)
Fixpoint fill_update (n i : nat) (hd : addr) (update : list (option addr))
    : option (list (option addr)) :=
  match n with
  | 0 => Some update
  | S n' => update' ← store update i (Some hd); fill_update n' (S i) hd update'
  end.

(** [for (int i = 0; i < newLevel; ++i) { newNode->next[i] = update[i]->next[i];
    update[i]->next[i] = newNode; }] with [n = newLevel - i]. *)
Fixpoint splice (n i : nat) (a : addr) (update : list (option addr)) (h : Heap)
    : option Heap :=
  match n with
  | 0 => Some h
  | S n' =>
      u ← mjoin (update !! i);
      nx ← next_at h u i;
      h1 ← set_next h a i nx;
      h2 ← set_next h1 u i (Some a);
      splice n' (S i) a update h2
  end.

Definition insert (k : Key) (st : Heap * SkipList) : option (Heap * SkipList) :=
  let '(h, sl) := st in
  hd ← head_ sl;
  '(cur, update) ← search_update (size h) h k (maxLevel_ sl) hd
                                 (replicate (maxLevel_ sl) None);
  cur ← next_at h cur 0;
  dup ← key_is h cur k;
  if (dup : bool) then Some (h, sl) else
  '(newLevel, sl) ← randomLevel sl;
  '(h, update, sl) ←
    (if decide (maxLevel_ sl < newLevel) then
       hn ← h !! hd;
       let h' := <[hd := mkNode (key hn) (resize newLevel None (next hn))]> h in
       update' ← fill_update (newLevel - maxLevel_ sl) (maxLevel_ sl) hd
                             (resize newLevel None update);
       Some (h', update', mkSkipList (head_ sl) newLevel (maxAllowedLevel_ sl)
                                     (probability_ sl) (rng_ sl))
     else Some (h, update, sl));
  let '(newNode, h) := new_Node k newLevel h in
  h ← splice newLevel 0 newNode update h;
  Some (h, sl).

(** ** erase *)

(** [for (int i = 0; i < maxLevel_; ++i) if (update[i]->next[i] == cur)
    update[i]->next[i] = cur->next[i];] with [n = maxLevel_ - i]. *)
Fixpoint unlink (n i : nat) (cur : addr) (update : list (option addr)) (h : Heap)
    : option Heap :=
  match n with
  | 0 => Some h
  | S n' =>
      u ← mjoin (update !! i);
      nx ← next_at h u i;
      h' ← (if decide (nx = Some cur)
            then cnx ← next_at h cur i; set_next h u i cnx
            else Some h);
      unlink n' (S i) cur update h'
  end.

(** [head_->next.pop_back()] *)
Definition pop_back (h : Heap) (a : addr) : option Heap :=
  n ← h !! a;
  if decide (0 < length (next n))
  then Some (<[a := mkNode (key n) (take (length (next n) - 1) (next n))]> h)
  else None.

(** [while (maxLevel_ > 1 && head_->next[maxLevel_ - 1] == nullptr)
    { --maxLevel_; head_->next.pop_back(); }] *)
Fixpoint shrink (hd : addr) (maxLevel : nat) (h : Heap) : option (Heap * nat) :=
  match maxLevel with
  | S (S m as maxLevel') =>
      nx ← next_at h hd maxLevel';
      match nx with
      | None => h' ← pop_back h hd; shrink hd maxLevel' h'
      | Some _ => Some (h, maxLevel)
      end
  | _ => Some (h, maxLevel)
  end.

Definition erase (k : Key) (st : Heap * SkipList) : option (bool * (Heap * SkipList)) :=
  let '(h, sl) := st in
  hd ← head_ sl;
  '(cur, update) ← search_update (size h) h k (maxLevel_ sl) hd
                                 (replicate (maxLevel_ sl) None);
  cur ← next_at h cur 0;
  found ← key_is h cur k;
  match cur with
  | Some c =>
      if (found : bool) then
        h ← unlink (maxLevel_ sl) 0 c update h;
        let h := delete c h in
        '(h, maxLevel) ← shrink hd (maxLevel_ sl) h;
        Some (true, (h, mkSkipList (head_ sl) maxLevel (maxAllowedLevel_ sl)
                                   (probability_ sl) (rng_ sl)))
      else Some (false, (h, sl))
  | None => Some (false, (h, sl))
  end.

(** ** contains *)

Definition contains (k : Key) (st : Heap * SkipList) : option bool :=
  let '(h, sl) := st in
  hd ← head_ sl;
  cur ← descend (size h) h k (maxLevel_ sl) hd;
  cur ← next_at h cur 0;
  key_is h cur k.

(** ** Iteration *)

(** An [Iterator] is its [node_] pointer. *)
Definition Iterator := option addr.

Definition begin (st : Heap * SkipList) : option Iterator :=
  hd ← head_ st.2; next_at st.1 hd 0.

Definition end_ : Iterator := None.

(** [operator*] *)
Definition deref (h : Heap) (it : Iterator) : option Key :=
  a ← it; n ← h !! a; Some (key n).

(** [operator++] *)
Definition incr (h : Heap) (it : Iterator) : option Iterator :=
  a ← it; next_at h a 0.

(** [for (; it != end(); ++it) out.push_back(it.operator*());] *)
Fixpoint collect (fuel : nat) (h : Heap) (it : Iterator) : option (list Key) :=
  match it with
  | None => Some []
  | Some _ =>
      match fuel with
      | 0 => None
      | S f =>
          k ← deref h it;
          it' ← incr h it;
          ks ← collect f h it';
          Some (k :: ks)
      end
  end.

(** The keys a range-for over the list visits. *)
Definition iterate (st : Heap * SkipList) : option (list Key) :=
  it ← begin st; collect (size st.1) st.1 it.

(** ** Destruction and move *)

(** [delete p] for a pointer that must point to a live node. *)
Definition free (h : Heap) (a : addr) : option Heap :=
  match h !! a with
  | Some _ => Some (delete a h)
  | None => None
  end.

(** [while (cur) { Node* next = cur->next[0]; delete cur; cur = next; }] *)
Fixpoint delete_nodes (fuel : nat) (h : Heap) (cur : option addr) : option Heap :=
  match cur with
  | None => Some h
  | Some a =>
      match fuel with
      | 0 => None
      | S f => nx ← next_at h a 0; h' ← free h a; delete_nodes f h' nx
      end
  end.

(** The body shared by [~SkipList()] and the move assignment: nothing for a
    null [head_], else all nodes and then the sentinel are deleted. *)
Definition release (h : Heap) (sl : SkipList) : option Heap :=
  match head_ sl with
  | None => Some h
  | Some hd =>
      cur ← next_at h hd 0;
      h ← delete_nodes (size h) h cur;
      free h hd
  end.

(** [~SkipList()] *)
Definition destroy (st : Heap * SkipList) : option Heap := release st.1 st.2.

(** [if (!head_) head_ = new Node(Key(), maxLevel_);], the body of
    [resetToEmpty()] and the same statement in both move operations. *)
Definition resetToEmpty (st : Heap * SkipList) : Heap * SkipList :=
  let '(h, sl) := st in
  match head_ sl with
  | Some _ => (h, sl)
  | None =>
      let '(a, h') := new_Node key_default (maxLevel_ sl) h in
      (h', mkSkipList (Some a) (maxLevel_ sl) (maxAllowedLevel_ sl)
                      (probability_ sl) (rng_ sl))
  end.

(** The member-wise transfer of both move operations: [head_] and
    [maxLevel_] are exchanged for [nullptr] and [1], the other members are
    copied ([std::mt19937] has no move of its own, so [other.rng_] keeps its
    state).  The result is [( *this, other)]. *)
Definition transfer (other : SkipList) : SkipList * SkipList :=
  (mkSkipList (head_ other) (maxLevel_ other) (maxAllowedLevel_ other)
              (probability_ other) (rng_ other),
   mkSkipList None 1 (maxAllowedLevel_ other) (probability_ other) (rng_ other)).

(** [SkipList(SkipList&& other)]: the heap, the new list and [other]. *)
Definition move_construct (h : Heap) (other : SkipList) : Heap * SkipList * SkipList :=
  let '(this, other) := transfer other in
  let '(h, this) := resetToEmpty (h, this) in
  let '(h, other) := resetToEmpty (h, other) in
  (h, this, other).

(** The body of [operator=(SkipList&& other)] under [this != &other]. *)
Definition move_assign_from (h : Heap) (this other : SkipList)
    : option (Heap * SkipList * SkipList) :=
  h ← release h this;
  let '(this, other) := transfer other in
  let '(h, this) := resetToEmpty (h, this) in
  let '(h, other) := resetToEmpty (h, other) in
  Some (h, this, other).

(** ** Several lists in one program *)

(** The free store and the live [SkipList] objects, each under its identity
    (its own address, which is what [this != &other] compares). *)
Record World := mkWorld {
  heap : Heap;
  objs : gmap nat SkipList;
}.

Inductive Op :=
  | New (id : nat) (probability : Real) (maxAllowedLevel : Z) (seed : Rng)
  | Insert (id : nat) (k : Key)
  | Erase (id : nat) (k : Key)
  | MoveConstruct (id other : nat)
  | MoveAssign (id other : nat).

(** One statement of a client program.  Declaring an object under an
    identity in use, or using an object that does not exist, is not a
    program and gives [None]. *)
Definition exec (op : Op) (w : World) : option World :=
  match op with
  | New id p m seed =>
      match objs w !! id with
      | Some _ => None
      | None =>
          let '(h, sl) := SkipList_new p m seed (heap w) in
          Some (mkWorld h (<[id := sl]> (objs w)))
      end
  | Insert id k =>
      sl ← objs w !! id;
      '(h, sl) ← insert k (heap w, sl);
      Some (mkWorld h (<[id := sl]> (objs w)))
  | Erase id k =>
      sl ← objs w !! id;
      '(_, (h, sl)) ← erase k (heap w, sl);
      Some (mkWorld h (<[id := sl]> (objs w)))
  | MoveConstruct id other =>
      match objs w !! id with
      | Some _ => None
      | None =>
          o ← objs w !! other;
          let '(h, this, o) := move_construct (heap w) o in
          Some (mkWorld h (<[id := this]> (<[other := o]> (objs w))))
      end
  | MoveAssign id other =>
      this ← objs w !! id;
      o ← objs w !! other;
      if decide (id = other) then Some w
      else
        '(h, this, o) ← move_assign_from (heap w) this o;
        Some (mkWorld h (<[id := this]> (<[other := o]> (objs w))))
  end.

Fixpoint exec_all (ops : list Op) (w : World) : option World :=
  match ops with
  | [] => Some w
  | op :: ops' => w' ← exec op w; exec_all ops' w'
  end.

(** ** The nodes of a level *)

(** [for (Node* node = first; node; node = node->next[i])]: the addresses
    visited. *)
Fixpoint walk (fuel : nat) (h : Heap) (i : nat) (node : option addr)
    : option (list addr) :=
  match node with
  | None => Some []
  | Some a =>
      match fuel with
      | 0 => None
      | S f => nx ← next_at h a i; l ← walk f h i nx; Some (a :: l)
      end
  end.

(** The nodes reachable on level [i], from [head_->next[i]] on. *)
Definition level_nodes (i : nat) (st : Heap * SkipList) : option (list addr) :=
  hd ← head_ st.2; first ← next_at st.1 hd i; walk (size st.1) st.1 i first.

(** The keys stored at a list of addresses. *)
Definition keys_at (h : Heap) (l : list addr) : option (list Key) :=
  mapM (λ a, key <$> h !! a) l.

(** ** printByLevels *)

(** The one-character string of a line feed, the [\n] of a C++ literal. *)
Definition LF : string := String "010" EmptyString.

(** What [operator<<] was applied to, in order ([os.flush()] adds nothing). *)
Inductive Out :=
  | OStr (s : string)
  | OInt (n : nat)
  | OReal (p : Real)
  | OKey (k : Key)
  | OChar (c : ascii).

(** [while (node) { os << node->key << ' '; node = node->next[i]; }] *)
Fixpoint print_level (fuel : nat) (h : Heap) (i : nat) (node : option addr)
    (os : list Out) : option (list Out) :=
  match node with
  | None => Some os
  | Some a =>
      match fuel with
      | 0 => None
      | S f =>
          n ← h !! a;
          nx ← next n !! i;
          print_level f h i nx (os ++ [OKey (key n); OChar " "])
      end
  end.

(** [for (int i = lvl - 1; i >= 0; --i) { ... }] *)
Fixpoint print_levels (h : Heap) (hd : addr) (lvl : nat) (os : list Out)
    : option (list Out) :=
  match lvl with
  | 0 => Some os
  | S i =>
      node ← next_at h hd i;
      os ← print_level (size h) h i node (os ++ [OStr "Level "; OInt i; OStr ": "]);
      print_levels h hd i (os ++ [OChar "010"])
  end.

Definition printByLevels (st : Heap * SkipList) (os : list Out) : option (list Out) :=
  let '(h, sl) := st in
  match head_ sl with
  | None => Some (os ++ [OStr ("SkipList (empty - moved from)" +:+ LF)])
  | Some hd =>
      print_levels h hd (maxLevel_ sl)
        (os ++ [OStr "SkipList (levels = "; OInt (maxLevel_ sl); OStr ", p = ";
                OReal (probability_ sl); OStr ("):" +:+ LF)])
  end.

(** ** The rest of the iterator *)

(** [operator++(int)]: the iterator after the step, and the copy [tmp] of
    its old value that the call returns. *)
Definition post_incr (h : Heap) (it : Iterator) : option (Iterator * Iterator) :=
  let tmp := it in
  it' ← incr h it; Some (it', tmp).

(** [operator==] and [operator!=] compare the node pointers. *)
Definition iter_eq (it other : Iterator) : bool := bool_decide (it = other).
Definition iter_ne (it other : Iterator) : bool := negb (bool_decide (it = other)).

(** [for (int j = 0; j < n; ++j) ++it;] *)
Fixpoint incr_n (n : nat) (h : Heap) (it : Iterator) : option Iterator :=
  match n with
  | 0 => Some it
  | S n' => it' ← incr h it; incr_n n' h it'
  end.

(** [begin()] advanced [n] times. *)
Definition iter_at (n : nat) (st : Heap * SkipList) : option Iterator :=
  it ← begin st; incr_n n st.1 it.

(** The end of an object's lifetime: [~SkipList()] runs and the object is
    gone. *)
Definition end_of_life (id : nat) (w : World) : option World :=
  sl ← objs w !! id;
  h ← destroy (heap w, sl);
  Some (mkWorld h (delete id (objs w))).

(** The live objects [ids] reach the end of their lifetimes, in this
    order. *)
Fixpoint end_all (ids : list nat) (w : World) : option World :=
  match ids with
  | [] => Some w
  | id :: ids' => w' ← end_of_life id w; end_all ids' w'
  end.

(** The objects a statement names. *)
Definition op_objs (op : Op) : list nat :=
  match op with
  | New id _ _ _ | Insert id _ | Erase id _ => [id]
  | MoveConstruct id other | MoveAssign id other => [id; other]
  end.

End Code.

Arguments Node : clear implicits.
Arguments SkipList : clear implicits.
Arguments Out : clear implicits.
Arguments World : clear implicits.
Arguments Op : clear implicits.

(** ** The abstract list a heap represents *)

Section Model.
Context {Key : Type} `{KeyOps Key}.
Context {Rng Real : Type} `{RandomSource Rng Real}.

Abbreviation Heap := (gmap addr (Node Key)).
Abbreviation SkipList := (SkipList Rng Real).

(** One stored node: its address, its key and the number of its forward
    links.  A list of entries is the level 0 list in order. *)
Definition entry : Type := addr * Key * nat.
Definition e_addr (e : entry) : addr := e.1.1.
Definition e_key (e : entry) : Key := e.1.2.
Definition e_lvl (e : entry) : nat := e.2.

(** The nodes that take part in level [i], in order. *)
Definition chain (i : nat) (L : list entry) : list addr :=
  e_addr <$> filter (λ e, i < e_lvl e) L.

(** [linked h i cur c]: following [next[i]] from [cur] visits exactly the
    addresses [c] and then reaches [nullptr]. *)
Fixpoint linked (h : Heap) (i : nat) (cur : addr) (c : list addr) : Prop :=
  match c with
  | [] => next_at h cur i = Some None
  | a :: c' => next_at h cur i = Some (Some a) ∧ linked h i a c'
  end.

(** The last address of [d :: c]. *)
Fixpoint lastd (d : addr) (c : list addr) : addr :=
  match c with
  | [] => d
  | x :: c' => lastd x c'
  end.

(** Key and number of links of the node at an address. *)
Definition shape (h : Heap) (a : addr) : option (Key * nat) :=
  (λ n, (key n, length (next n))) <$> h !! a.

(** [Rep h hd ml L]: in heap [h] the sentinel [hd] with [ml] levels heads
    a well-formed skip list whose nodes are [L]. *)
Record Rep (h : Heap) (hd : addr) (ml : nat) (L : list entry) : Prop := {
  rep_ml : 1 ≤ ml;
  rep_hd : shape h hd = Some (key_default, ml);
  rep_nodes : Forall (λ e, shape h (e_addr e) = Some (e_key e, e_lvl e)) L;
  rep_lvl : Forall (λ e, 1 ≤ e_lvl e ≤ ml) L;
  rep_nodup : NoDup (hd :: (e_addr <$> L));
  rep_sorted : StronglySorted key_lt (e_key <$> L);
  rep_linked : ∀ i, i < ml → linked h i hd (chain i L);
}.

(** The state of [insert] before iteration [j] of its last loop: the new
    node [a] is linked on the levels below [j] only. *)
Definition splice_inv (hd : addr) (ml : nat) (k : Key) (a : addr) (lvl : nat)
    (L1 L2 : list entry) (j : nat) (h : Heap) : Prop :=
  shape h a = Some (k, lvl)
  ∧ (∀ x i, i < ml → x ∈ hd :: chain i (L1 ++ L2) →
       ∃ kx n, shape h x = Some (kx, n) ∧ i < n)
  ∧ ∀ i, i < ml → linked h i hd (chain i (L1 ++ (a, k, j) :: L2)).

(** The state of [erase] before iteration [j] of its unlinking loop: the
    node of entry [e] is already unlinked from the levels below [j]. *)
Definition unlink_inv (hd : addr) (ml : nat) (e : entry) (L1 L2 : list entry)
    (j : nat) (h : Heap) : Prop :=
  (∀ x i, i < ml → x ∈ hd :: chain i (L1 ++ e :: L2) →
     ∃ kx n, shape h x = Some (kx, n) ∧ i < n)
  ∧ ∀ i, i < ml →
      linked h i hd (if decide (i < j) then chain i (L1 ++ L2)
                     else chain i (L1 ++ e :: L2)).

(** The addresses a list owns. *)
Definition footprint (sl : SkipList) (L : list entry) : list addr :=
  option_list (head_ sl) ++ (e_addr <$> L).

(** A list object is well formed in a heap when it represents some [L]. *)
Definition represents (st : Heap * SkipList) (L : list entry) : Prop :=
  ∃ hd, head_ st.2 = Some hd ∧ Rep st.1 hd (maxLevel_ st.2) L.

Definition wf (st : Heap * SkipList) : Prop := ∃ L, represents st L.

(** Every live object of a world is a well-formed list, and no two of them
    share a node. *)
Definition world_wf_with (w : World Key Rng Real) (Ls : gmap nat (list entry)) : Prop :=
  (∀ id sl, objs w !! id = Some sl →
     ∃ L, Ls !! id = Some L ∧ represents (heap w, sl) L)
  ∧ (∀ id1 id2 sl1 sl2 L1 L2, id1 ≠ id2 →
       objs w !! id1 = Some sl1 → objs w !! id2 = Some sl2 →
       Ls !! id1 = Some L1 → Ls !! id2 = Some L2 →
       footprint sl1 L1 ## footprint sl2 L2).

(** The height never passes a maximum of at least 1. *)
Definition height_inv (sl : SkipList) : Prop :=
  (1 ≤ maxAllowedLevel_ sl)%Z → (Z.of_nat (maxLevel_ sl) ≤ maxAllowedLevel_ sl)%Z.

(** The invariant of a program state: the lists [Ls] its objects represent
    exist, and every height is within its maximum. *)
Definition world_ok (w : World Key Rng Real) : Prop :=
  ∃ Ls, world_wf_with w Ls ∧ ∀ id sl, objs w !! id = Some sl → height_inv sl.

(** A statement that names objects as a program can: a declaration
    introduces a new identity, every other use is of a live object. *)
Definition op_valid (w : World Key Rng Real) (op : Op Key Rng Real) : Prop :=
  match op with
  | New id _ _ _ => objs w !! id = None
  | Insert id _ | Erase id _ => is_Some (objs w !! id)
  | MoveConstruct id other => objs w !! id = None ∧ is_Some (objs w !! other)
  | MoveAssign id other => is_Some (objs w !! id) ∧ is_Some (objs w !! other)
  end.

(** What a move from [other], which held [o], into [id] leaves behind:
    [id] now holds [o] unchanged and iterates as [other] did, and [other] is,
    together with the heap, what the constructor returns for the same
    probability, maximum and generator. *)
Definition moved (w w' : World Key Rng Real) (id other : nat) (o : SkipList) : Prop :=
  ∃ ks h1 src,
    iterate (heap w, o) = Some ks
    ∧ objs w' !! id = Some o
    ∧ iterate (heap w', o) = Some ks
    ∧ objs w' !! other = Some src
    ∧ (heap w', src) =
        SkipList_new (probability_ o) (maxAllowedLevel_ o) (rng_ o) h1
    ∧ maxLevel_ src = 1
    ∧ iterate (heap w', src) = Some [].

(** The world before the first statement. *)
Definition world_empty : World Key Rng Real := mkWorld ∅ ∅.

(** The structural invariants of the specification, read off the heap:
    level 0 ends and carries strictly increasing keys (so no key twice),
    and every higher level ends and is a sublist of the level below. *)
Definition structural_invariants (st : Heap * SkipList) : Prop :=
  (∃ ns ks, level_nodes 0 st = Some ns ∧ keys_at st.1 ns = Some ks
     ∧ StronglySorted key_lt ks ∧ NoDup ks)
  ∧ (∀ i, 0 < i < maxLevel_ st.2 →
       ∃ ni nj, level_nodes i st = Some ni ∧ level_nodes (i - 1) st = Some nj
         ∧ ni `sublist_of` nj).

(** The keys of the nodes that take part in level [i], in order. *)
Definition level_keys (i : nat) (L : list entry) : list Key :=
  e_key <$> filter (λ e, i < e_lvl e) L.

(** The dump of one level: its label, every key followed by a space, and
    the end of the line. *)
Definition level_line (i : nat) (ks : list Key) : list (Out Key Real) :=
  [OStr "Level "; OInt i; OStr ": "] ++ (ks ≫= λ k, [OKey k; OChar " "])
    ++ [OChar "010"].

(** The lines of the levels below [lvl], the topmost first. *)
Fixpoint dump_levels (lvl : nat) (lines : nat → list Key) : list (Out Key Real) :=
  match lvl with
  | 0 => []
  | S i => level_line i (lines i) ++ dump_levels i lines
  end.

Definition dump_header (sl : SkipList) : list (Out Key Real) :=
  [OStr "SkipList (levels = "; OInt (maxLevel_ sl); OStr ", p = ";
   OReal (probability_ sl); OStr ("):" +:+ LF)].

(** The next [n] values of [dist_(rng_)] and the generator after them. *)
Fixpoint draws (n : nat) (rng : Rng) : list Real * Rng :=
  match n with
  | 0 => ([], rng)
  | S n' =>
      let '(d, rng') := dist rng in
      let '(ds, rng'') := draws n' rng' in
      (d :: ds, rng'')
  end.

(** The condition under which the loop of [randomLevel] goes on at [level]
    after drawing [d]. *)
Definition promotes (sl : SkipList) (level : nat) (d : Real) : Prop :=
  real_lt d (probability_ sl) = true
  ∧ (Z.of_nat level < maxAllowedLevel_ sl)%Z
  ∧ level < maxLevel_ sl + 1.

(** The loop of level generation as the specification words it, with the
    candidate level read as the level held so far: the level goes up while
    the draw is below [p], the level is below the maximum, and the level
    does not exceed the current height plus one. *)
Fixpoint randomLevel_stated_loop (fuel : nat) (sl : SkipList) (level : nat) (rng : Rng)
    : option (nat * Rng) :=
  let '(d, rng') := dist rng in
  if real_lt d (probability_ sl)
     && (Z.of_nat level <? maxAllowedLevel_ sl)%Z
     && (level <=? maxLevel_ sl + 1)
  then match fuel with
       | 0 => None
       | S f => randomLevel_stated_loop f sl (S level) rng'
       end
  else Some (level, rng').

Definition randomLevel_stated (sl : SkipList) : option nat :=
  fst <$> randomLevel_stated_loop (maxLevel_ sl + 2) sl 1 (rng_ sl).

(** The same words with the candidate level read as the level after the
    increment. *)
Fixpoint randomLevel_stated_next_loop (fuel : nat) (sl : SkipList) (level : nat)
    (rng : Rng) : option (nat * Rng) :=
  let '(d, rng') := dist rng in
  if real_lt d (probability_ sl)
     && (Z.of_nat (S level) <? maxAllowedLevel_ sl)%Z
     && (S level <=? maxLevel_ sl + 1)
  then match fuel with
       | 0 => None
       | S f => randomLevel_stated_next_loop f sl (S level) rng'
       end
  else Some (level, rng').

Definition randomLevel_stated_next (sl : SkipList) : option nat :=
  fst <$> randomLevel_stated_next_loop (maxLevel_ sl + 2) sl 1 (rng_ sl).

(** A sequence of [insert] and [erase] calls on one list. *)
Inductive Cmd :=
  | CInsert (k : Key)
  | CErase (k : Key).

Definition apply_cmd (c : Cmd) (st : Heap * SkipList) : option (Heap * SkipList) :=
  match c with
  | CInsert k => insert k st
  | CErase k => r ← erase k st; Some r.2
  end.

Fixpoint run (cs : list Cmd) (st : Heap * SkipList) : option (Heap * SkipList) :=
  match cs with
  | [] => Some st
  | c :: cs' => st' ← apply_cmd c st; run cs' st'
  end.

(** [k] was inserted at some point of [cs] and not erased afterwards. *)
Definition inserted_not_erased (k : Key) (cs : list Cmd) : Prop :=
  ∃ pre post, cs = pre ++ CInsert k :: post ∧ CErase k ∉ post.

(** An iterator that [begin()] reaches after some steps and that is not
    [end()]. *)
Definition dereferenceable (st : Heap * SkipList) (it : Iterator) : Prop :=
  it ≠ end_ ∧ ∃ j, iter_at j st = Some it.

(** [st] owns its footprint over [h0]: its cells are free in [h0], and
    every other address holds in [st] what it holds in [h0]. *)
Definition owned_over (h0 : Heap) (st : Heap * SkipList) (L : list entry) : Prop :=
  represents st L
  ∧ (∀ x, x ∈ footprint st.2 L → h0 !! x = None)
  ∧ (∀ x, x ∉ footprint st.2 L → st.1 !! x = h0 !! x).

(** Every allocated cell of the world is the sentinel or a node of a live
    list. *)
Definition world_exact (w : World Key Rng Real) (Ls : gmap nat (list entry)) : Prop :=
  ∀ x, is_Some (heap w !! x) →
    ∃ id sl L, objs w !! id = Some sl ∧ Ls !! id = Some L ∧ x ∈ footprint sl L.

(** The height is 1 or the number of links of some node. *)
Definition tight (ml : nat) (L : list entry) : Prop :=
  ml = 1 ∨ ∃ e, e ∈ L ∧ e_lvl e = ml.

End Model.

Arguments Cmd : clear implicits.

(** ** Instances used in the examples: [int] keys and rational draws *)

#[export] Instance Z_KeyOps : KeyOps Z := {|
  key_lt := Z.lt;
  key_default := 0%Z;
|}.

(** The generator replays its list and draws 1 once the list is used up. *)
#[export] Instance list_RandomSource : RandomSource (list Q) Q := {|
  dist rng := match rng with [] => (1%Q, []) | d :: rng' => (d, rng') end;
  real_lt x y := negb (Qle_bool y x);
|}.


(** ** Example data *)

(** Scenario A of the specification: the keys 3,1,4,1,5,9,2,6,5,3,5 go
    into a list with [p = 1/2], here with a fixed run of draws. *)
Definition demo_draws : list Q :=
  [1#4; 3#4; 1#4; 1#4; 1#4; 3#4; 1#4; 1#4; 1#4; 1#4; 1#4; 3#4; 1#4; 3#4]%Q.

Definition demo_new : gmap addr (Node Z) * SkipList (list Q) Q :=
  SkipList_new (1#2)%Q 32 demo_draws ∅.

Definition demo_cmds : list (Cmd Z) :=
  CInsert <$> [3; 1; 4; 1; 5; 9; 2; 6; 5; 3; 5]%Z.

Definition demo_list : gmap addr (Node Z) * SkipList (list Q) Q :=
  default demo_new (run demo_cmds demo_new).

(** Scenario B: then 5, 1 and the absent 10 are erased. *)
Definition demo_cmds_erase : list (Cmd Z) :=
  demo_cmds ++ [CErase 5; CErase 1; CErase 10]%Z.

(** The list of scenario A after [erase(5)]. *)
Definition demo_erased : gmap addr (Node Z) * SkipList (list Q) Q :=
  default demo_list (snd <$> erase 5%Z demo_list).

(** Scenario D up to its move assignment: [list1] gets 10 and 20 and is
    moved into a new [list2]; [list3], here holding 7, is declared. *)
Definition demo_ops : list (Op Z (list Q) Q) :=
  [New 1 (1#2)%Q 32 demo_draws; Insert 1 10%Z; Insert 1 20%Z;
   MoveConstruct 2 1;
   New 3 (1#2)%Q 32 demo_draws; Insert 3 7%Z].

Definition demo_world : World Z (list Q) Q :=
  default world_empty (exec_all demo_ops world_empty).

Definition demo_list2 : SkipList (list Q) Q :=
  default demo_new.2 (objs demo_world !! 2).

(** A list of height 1 whose draws are all below [p = 1/2]. *)
Definition demo_low : SkipList (list Q) Q :=
  mkSkipList (Some 0) 1 32 (1#2)%Q [0; 0; 0; 0]%Q.

(** The same under the maximum 2. *)
Definition demo_capped : SkipList (list Q) Q :=
  mkSkipList (Some 0) 1 2 (1#2)%Q [0; 0; 0; 0]%Q.


(** A list of height 3 with [p = 2], above every draw. *)
Definition demo_certain : SkipList (list Q) Q :=
  mkSkipList (Some 0) 3 32 2%Q demo_draws.

(** The position of the first key of the list of scenario A. *)
Definition demo_it : option addr := default None (begin demo_list).

(** The world of scenario D after [list3.insert(8)]. *)
Definition demo_world_next : World Z (list Q) Q :=
  default demo_world (exec (Insert 3 8%Z) demo_world).
(** ** Proofs *)

Section Proofs.
Context {Key : Type} `{KeyLaws Key}.
Context {Rng Real : Type} `{RandomSource Rng Real}.

Implicit Types (h : gmap addr (Node Key)) (sl : SkipList Rng Real).
Implicit Types (L : list (@entry Key)) (c : list addr) (k : Key).

(** *** Heap cells *)

Lemma next_at_set_next h a j v h' x i :
  set_next h a j v = Some h' →
  next_at h' x i = if decide (x = a ∧ i = j) then Some v else next_at h x i.
Proof.
  unfold set_next, next_at. intros Hs.
  destruct (h !! a) as [n|] eqn:Ha; simpl in Hs; [|done].
  case_decide as Hj; [|done]. injection Hs as <-.
  destruct (decide (x = a)) as [->|Hne].
  - rewrite lookup_insert_eq /=. case_decide as Hd.
    + destruct Hd as [_ ->]. by rewrite list_lookup_insert_eq.
    + rewrite Ha /=. rewrite list_lookup_insert_ne; [done|]. naive_solver.
  - rewrite lookup_insert_ne; [|done]. case_decide; [naive_solver|done].
Qed.

Lemma shape_set_next h a j v h' x :
  set_next h a j v = Some h' → shape h' x = shape h x.
Proof.
  unfold set_next, shape. intros Hs.
  destruct (h !! a) as [n|] eqn:Ha; simpl in Hs; [|done].
  case_decide as Hj; [|done]. injection Hs as <-.
  destruct (decide (x = a)) as [->|Hne].
  - by rewrite lookup_insert_eq Ha /= length_insert.
  - by rewrite lookup_insert_ne.
Qed.

Lemma set_next_is_Some h a j v n :
  h !! a = Some n → j < length (next n) → is_Some (set_next h a j v).
Proof. intros Ha Hj. unfold set_next. rewrite Ha /=. by rewrite decide_True. Qed.

Lemma shape_lookup h a k n :
  shape h a = Some (k, n) → ∃ nx, h !! a = Some (mkNode k nx) ∧ length nx = n.
Proof.
  unfold shape. destruct (h !! a) as [[k' nx]|]; [|done].
  simpl. intros [= -> <-]. eauto.
Qed.

Lemma set_next_shape h a j v k n :
  shape h a = Some (k, n) → j < n → is_Some (set_next h a j v).
Proof.
  intros (nx & Ha & Hl)%shape_lookup Hj.
  eapply set_next_is_Some; [done|]. simpl. lia.
Qed.

Lemma set_next_dom h a j v h' :
  set_next h a j v = Some h' → dom h' = dom h.
Proof.
  unfold set_next. intros Hs.
  destruct (h !! a) as [n|] eqn:Ha; simpl in Hs; [|done].
  case_decide; [|done]. injection Hs as <-.
  rewrite dom_insert_L. apply elem_of_dom_2 in Ha. set_solver.
Qed.

(** *** Chains *)

Lemma lastd_app d c1 c2 : lastd d (c1 ++ c2) = lastd (lastd d c1) c2.
Proof. revert d. induction c1 as [|x c1 IH]; intros d; simpl; [done|]. apply IH. Qed.

Lemma lastd_elem d c : lastd d c = d ∨ lastd d c ∈ c.
Proof.
  revert d. induction c as [|x c IH]; intros d; simpl; [by left|].
  right. destruct (IH x) as [->|?]; [left|by right].
Qed.

Lemma lastd_elem_cons d c : lastd d c ∈ d :: c.
Proof. destruct (lastd_elem d c) as [->|?]; [left|by right]. Qed.

Lemma linked_frame h h' i cur c :
  (∀ x, x ∈ cur :: c → next_at h' x i = next_at h x i) →
  linked h i cur c → linked h' i cur c.
Proof.
  revert cur. induction c as [|a c IH]; intros cur Hfr; simpl.
  - intros <-. apply Hfr. left.
  - intros [Hn Hl]. split.
    + rewrite -Hn. apply Hfr. left.
    + apply IH; [|done]. intros x Hx. apply Hfr. by right.
Qed.

(** From the last node of a prefix the rest of the chain is linked. *)
Lemma linked_split h i cur c1 c2 :
  linked h i cur (c1 ++ c2) → linked h i (lastd cur c1) c2.
Proof.
  revert cur. induction c1 as [|a c1 IH]; intros cur; simpl; [done|].
  intros [_ Hl]. by apply IH.
Qed.

Lemma linked_next h i cur c :
  linked h i cur c → next_at h cur i = Some (head c).
Proof. destruct c; simpl; [done|]. by intros [-> _]. Qed.

Lemma chain_app i L1 L2 : chain i (L1 ++ L2) = chain i L1 ++ chain i L2.
Proof. unfold chain. by rewrite filter_app fmap_app. Qed.

Lemma chain_cons i (e : @entry Key) L :
  chain i (e :: L) = if decide (i < e_lvl e) then e_addr e :: chain i L else chain i L.
Proof. unfold chain. rewrite filter_cons. by case_decide. Qed.

Lemma chain_subseteq i L : chain i L ⊆ e_addr <$> L.
Proof.
  unfold chain. intros x (e & -> & He)%list_elem_of_fmap.
  apply list_elem_of_fmap. exists e. split; [done|].
  by apply list_elem_of_filter in He as [_ ?].
Qed.

Lemma chain_sublist i L : chain i L `sublist_of` e_addr <$> L.
Proof. unfold chain. apply fmap_sublist, sublist_filter. Qed.

Lemma chain_0 L : Forall (λ e, 1 ≤ e_lvl e) L → chain 0 L = e_addr <$> L.
Proof.
  induction 1 as [|e L He _ IH]; [done|].
  rewrite chain_cons decide_True; [|lia]. by rewrite IH.
Qed.

Lemma chain_nil_ge i L : Forall (λ e, e_lvl e ≤ i) L → chain i L = [].
Proof.
  induction 1 as [|e L He _ IH]; [done|].
  rewrite chain_cons decide_False; [|lia]. done.
Qed.

Lemma chain_nil_inv i L : chain i L = [] → Forall (λ e, e_lvl e ≤ i) L.
Proof.
  induction L as [|e L IH]; [constructor|].
  rewrite chain_cons. case_decide; [done|].
  intros HL. constructor; [lia|auto].
Qed.

(** A node on level [j] is on every level below. *)
Lemma chain_mono_sublist i j L : i ≤ j → chain j L `sublist_of` chain i L.
Proof.
  intros Hij. induction L as [|e L IH]; [done|].
  rewrite !chain_cons. repeat case_decide; try lia.
  - by apply sublist_skip.
  - by apply sublist_cons.
  - done.
Qed.


(** *** Fuel: the nodes of a list are allocated and distinct *)

Lemma NoDup_allocated_length h (l : list addr) :
  NoDup l → (∀ x, x ∈ l → is_Some (h !! x)) → length l ≤ size h.
Proof.
  intros Hnd Hal.
  rewrite -(size_list_to_set (C := gset addr) l) // -(size_dom h).
  apply subseteq_size. intros x Hx%elem_of_list_to_set.
  by apply elem_of_dom, Hal.
Qed.

Lemma shape_is_Some h a p : shape h a = Some p → is_Some (h !! a).
Proof. unfold shape. destruct (h !! a); [eauto|done]. Qed.

Lemma Rep_fuel h hd ml L : Rep h hd ml L → length L < size h.
Proof.
  intros HR.
  pose proof (NoDup_allocated_length h (hd :: (e_addr <$> L)) (rep_nodup _ _ _ _ HR)) as Hle.
  rewrite /= length_fmap in Hle. apply Hle.
  intros x [->|Hx]%elem_of_cons.
  - eapply shape_is_Some, (rep_hd _ _ _ _ HR).
  - apply list_elem_of_fmap in Hx as (e & -> & He).
    pose proof (rep_nodes _ _ _ _ HR) as Hn.
    rewrite Forall_forall in Hn. eapply shape_is_Some, Hn, He.
Qed.

(** *** The inner loop on one level *)

Lemma Forall_filter_keep {A} (P Q : A → Prop) `{∀ x, Decision (Q x)} (l : list A) :
  Forall P l → Forall P (filter Q l).
Proof.
  rewrite !Forall_forall. intros HP x Hx%list_elem_of_filter. apply HP, Hx.
Qed.

Lemma shape_key h a k n : shape h a = Some (k, n) → ∃ nd, h !! a = Some nd ∧ key nd = k.
Proof.
  unfold shape. destruct (h !! a) as [nd|]; [|done].
  simpl. intros [= <- <-]. eauto.
Qed.

Lemma advance_spec h k i (A B : list entry) cur fuel :
  linked h i cur (e_addr <$> (A ++ B)) →
  Forall (λ e, shape h (e_addr e) = Some (e_key e, e_lvl e)) (A ++ B) →
  Forall (λ e, key_lt (e_key e) k) A →
  Forall (λ e, ¬ key_lt (e_key e) k) B →
  length A < fuel →
  advance fuel h k i cur = Some (lastd cur (e_addr <$> A)).
Proof.
  revert cur fuel. induction A as [|a A IH]; intros cur fuel Hl Hsh HA HB Hf.
  - destruct fuel as [|f]; [simpl in Hf; lia|]. simpl.
    destruct B as [|b B]; simpl in Hl.
    + by rewrite Hl.
    + destruct Hl as [-> _]. simpl.
      apply Forall_cons_1 in Hsh as [(nd & -> & Hk)%shape_key _]. simpl.
      apply Forall_cons_1 in HB as [Hb _]. rewrite Hk. by rewrite decide_False.
  - destruct fuel as [|f]; [simpl in Hf; lia|].
    simpl in Hl. destruct Hl as [Hn Hl]. simpl. rewrite Hn /=.
    apply Forall_cons_1 in Hsh as [(nd & -> & Hk)%shape_key Hsh]. simpl.
    apply Forall_cons_1 in HA as [Ha HA]. rewrite Hk decide_True //.
    apply IH; try done. simpl in Hf. lia.
Qed.

(** The last node of level [j] in a list starts, on every lower level, a
    suffix without nodes of level [j]. *)
Lemma pred_split hd j L :
  ∃ La Lb, L = La ++ Lb ∧ chain j Lb = [] ∧
    ∀ i, i ≤ j → lastd hd (chain i La) = lastd hd (chain j L).
Proof.
  induction L as [|e L IH] using rev_ind.
  - exists [], []. done.
  - destruct (decide (j < e_lvl e)) as [Hj|Hj].
    + exists (L ++ [e]), []. rewrite app_nil_r. split_and!; [done..|].
      intros i Hi. rewrite !chain_app !lastd_app !chain_cons.
      rewrite !decide_True //. lia.
    + destruct IH as (La & Lb & -> & Hb & Hl).
      exists La, (Lb ++ [e]). rewrite -app_assoc. split_and!; [done| |].
      * rewrite chain_app Hb chain_cons decide_False //.
      * intros i Hi. rewrite Hl //.
        rewrite (app_assoc La) (chain_app j (La ++ Lb)) lastd_app chain_cons decide_False //.
Qed.

(** *** The descent *)

Section Search.
Context (h : gmap addr (Node Key)) (hd : addr) (ml : nat) (k : Key).
Context (L1 L2 : list (@entry Key)).
Context (HR : Rep h hd ml (L1 ++ L2)).
Context (HL1 : Forall (λ e, key_lt (e_key e) k) L1).
Context (HL2 : Forall (λ e, ¬ key_lt (e_key e) k) L2).

(** The node after which [k] belongs on level [i]. *)
Local Abbreviation pred i := (lastd hd (chain i L1)).

Lemma pred_top i : ml ≤ i → pred i = hd.
Proof.
  intros Hi. rewrite chain_nil_ge //.
  pose proof (rep_lvl _ _ _ _ HR) as Hl.
  apply Forall_app in Hl as [Hl _].
  eapply Forall_impl; [done|]. simpl. lia.
Qed.

Lemma advance_level i :
  i < ml → advance (size h) h k i (pred (S i)) = Some (pred i).
Proof.
  intros Hi.
  destruct (pred_split hd (S i) L1) as (La & Lb & HL & Hb & Hp).
  rewrite -(Hp i); last lia.
  pose proof (rep_linked _ _ _ _ HR i Hi) as Hlk.
  rewrite HL -app_assoc chain_app in Hlk. apply linked_split in Hlk.
  rewrite HL chain_app lastd_app.
  unfold chain in Hlk. rewrite filter_app in Hlk.
  pose proof (rep_nodes _ _ _ _ HR) as Hn. rewrite HL -app_assoc in Hn.
  apply Forall_app in Hn as [_ Hn].
  pose proof (Rep_fuel _ _ _ _ HR) as Hf.
  rewrite HL !length_app in Hf. pose proof HL1 as HLb. rewrite HL in HLb.
  apply Forall_app in HLb as [_ HLb].
  apply advance_spec with (B := filter (λ e, i < e_lvl e) L2).
  - done.
  - rewrite -filter_app. by apply Forall_filter_keep.
  - by apply Forall_filter_keep.
  - by apply Forall_filter_keep.
  - pose proof (length_filter (λ e : entry, i < e_lvl e) Lb). lia.
Qed.

Lemma descend_spec lvl :
  lvl ≤ ml → descend (size h) h k lvl (pred lvl) = Some (pred 0).
Proof.
  induction lvl as [|i IH]; intros Hl; simpl; [done|].
  rewrite advance_level /=; last lia. apply IH. lia.
Qed.

Lemma search_update_spec lvl upd :
  lvl ≤ ml → lvl ≤ length upd →
  ∃ upd', search_update (size h) h k lvl (pred lvl) upd = Some (pred 0, upd')
    ∧ length upd' = length upd
    ∧ (∀ j, j < lvl → upd' !! j = Some (Some (pred j)))
    ∧ (∀ j, lvl ≤ j → upd' !! j = upd !! j).
Proof.
  revert upd. induction lvl as [|i IH]; intros upd Hl Hu; simpl.
  - exists upd. split_and!; [done..|lia|done].
  - rewrite advance_level /=; last lia.
    rewrite /store decide_True /=; last lia.
    destruct (IH (<[i:=Some (pred i)]> upd)) as (upd' & -> & Hlen & Hlo & Hhi);
      [lia|rewrite length_insert; lia|].
    exists upd'. rewrite length_insert in Hlen. split_and!; [done..| |].
    + intros j Hj. destruct (decide (j = i)) as [->|].
      * rewrite Hhi //. by rewrite list_lookup_insert_eq.
      * apply Hlo. lia.
    + intros j Hj. rewrite Hhi; last lia. rewrite list_lookup_insert_ne //. lia.
Qed.

(** After the descent [cur->next[0]] is the first node of [L2]. *)
Lemma candidate_spec :
  next_at h (pred 0) 0 = Some (e_addr <$> head L2).
Proof.
  pose proof (rep_linked _ _ _ _ HR 0) as Hlk.
  rewrite chain_app in Hlk. apply linked_split, linked_next in Hlk.
  - rewrite Hlk. f_equal. rewrite chain_0.
    + by destruct L2.
    + pose proof (rep_lvl _ _ _ _ HR) as Hl. apply Forall_app in Hl as [_ Hl].
      eapply Forall_impl; [done|]. simpl. lia.
  - pose proof (rep_ml _ _ _ _ HR). lia.
Qed.

Lemma key_is_spec :
  key_is h (e_addr <$> head L2) k =
    Some (bool_decide (e_key <$> head L2 = Some k)).
Proof.
  destruct L2 as [|e L2']; simpl; [done|].
  pose proof (rep_nodes _ _ _ _ HR) as Hn. apply Forall_app in Hn as [_ Hn].
  apply Forall_cons_1 in Hn as [(nd & -> & Hk)%shape_key _]. simpl.
  rewrite Hk. f_equal. apply bool_decide_ext. naive_solver.
Qed.

End Search.

(** *** Splitting the sorted list at a key *)

Lemma sorted_split k L :
  StronglySorted key_lt (e_key <$> L) →
  ∃ L1 L2, L = L1 ++ L2
    ∧ Forall (λ e, key_lt (e_key e) k) L1
    ∧ Forall (λ e, ¬ key_lt (e_key e) k) L2.
Proof.
  induction L as [|e L IH]; intros Hs.
  - exists [], []. done.
  - rewrite fmap_cons in Hs. apply StronglySorted_inv in Hs as [Hs He].
    destruct (decide (key_lt (e_key e) k)) as [Hlt|Hge].
    + destruct (IH Hs) as (L1 & L2 & -> & HA & HB).
      exists (e :: L1), L2. split_and!; [done| |done]. by constructor.
    + exists [], (e :: L). split_and!; [done..|]. constructor; [done|].
      rewrite Forall_fmap in He. eapply Forall_impl; [done|].
      simpl. intros e' Hee' Hlt. apply Hge. by etrans.
Qed.

Lemma sorted_member k L1 L2 :
  StronglySorted key_lt (e_key <$> (L1 ++ L2)) →
  Forall (λ e, key_lt (e_key e) k) L1 →
  Forall (λ e, ¬ key_lt (e_key e) k) L2 →
  k ∈ e_key <$> (L1 ++ L2) ↔ e_key <$> head L2 = Some k.
Proof.
  intros Hs HA HB. split.
  - rewrite fmap_app. intros [Hk|Hk]%elem_of_app.
    + apply list_elem_of_fmap in Hk as (e & -> & He).
      rewrite Forall_forall in HA. apply HA in He. destruct (irreflexivity key_lt _ He).
    + destruct L2 as [|e L2]; [by apply elem_of_nil in Hk|]. simpl. f_equal.
      rewrite fmap_cons in Hk. apply elem_of_cons in Hk as [->|Hk]; [done|].
      rewrite fmap_app in Hs. apply StronglySorted_app_1_r in Hs.
      rewrite fmap_cons in Hs. apply StronglySorted_inv in Hs as [_ He].
      rewrite Forall_forall in He. apply He in Hk.
      apply Forall_cons_1 in HB as [HB _]. done.
  - destruct L2 as [|e L2]; [done|]. simpl. intros [= <-].
    rewrite fmap_app fmap_cons. apply elem_of_app. right. left.
Qed.

(** *** contains and iteration read the abstract list *)

Lemma contains_spec (st : gmap addr (Node Key) * SkipList Rng Real) L k :
  represents st L → contains k st = Some (bool_decide (k ∈ e_key <$> L)).
Proof.
  destruct st as [h sl]. intros (hd & Hhd & HR). simpl in *.
  destruct (sorted_split k L (rep_sorted _ _ _ _ HR)) as (L1 & L2 & -> & HA & HB).
  rewrite Hhd /=.
  rewrite -{1}(pred_top h hd (maxLevel_ sl) L1 L2 HR (maxLevel_ sl)) //.
  rewrite (descend_spec h hd (maxLevel_ sl) k L1 L2) //=.
  rewrite (candidate_spec h hd (maxLevel_ sl) k L1 L2) //=.
  rewrite (key_is_spec h hd (maxLevel_ sl) k L1 L2) //.
  f_equal. apply bool_decide_ext. symmetry.
  apply sorted_member; [|done..]. apply (rep_sorted _ _ _ _ HR).
Qed.

Lemma collect_spec h cur (E : list entry) fuel :
  linked h 0 cur (e_addr <$> E) →
  Forall (λ e, shape h (e_addr e) = Some (e_key e, e_lvl e)) E →
  length E ≤ fuel →
  collect fuel h (head (e_addr <$> E)) = Some (e_key <$> E).
Proof.
  revert cur fuel. induction E as [|e E IH]; intros cur fuel Hl Hsh Hf.
  - by destruct fuel.
  - destruct fuel as [|f]; [simpl in Hf; lia|].
    simpl in Hl. destruct Hl as [_ Hl].
    apply Forall_cons_1 in Hsh as [(nd & Hnd & Hk)%shape_key Hsh].
    simpl. rewrite Hnd /= Hk.
    rewrite (linked_next _ _ _ _ Hl) /=.
    rewrite (IH (e_addr e)) //. simpl in Hf. lia.
Qed.

Lemma iterate_spec (st : gmap addr (Node Key) * SkipList Rng Real) L :
  represents st L → iterate st = Some (e_key <$> L).
Proof.
  destruct st as [h sl]. intros (hd & Hhd & HR). unfold iterate, begin. simpl in *.
  rewrite Hhd /=.
  pose proof (rep_linked _ _ _ _ HR 0) as Hlk.
  assert (Forall (λ e : @entry Key, 1 ≤ e_lvl e) L) as Hge.
  { eapply Forall_impl; [apply (rep_lvl _ _ _ _ HR)|]. simpl. lia. }
  rewrite chain_0 // in Hlk.
  pose proof (rep_ml _ _ _ _ HR).
  rewrite (linked_next _ _ _ _ (Hlk ltac:(lia))) /=.
  eapply collect_spec; [by apply Hlk; lia|apply (rep_nodes _ _ _ _ HR)|].
  apply Rep_fuel in HR. lia.
Qed.

(** *** randomLevel terminates within its bounds *)

Lemma randomLevel_loop_spec sl fuel level rng :
  maxLevel_ sl + 1 ≤ level + fuel →
  ∃ lvl rng', randomLevel_loop fuel sl level rng = Some (lvl, rng')
    ∧ level ≤ lvl
    ∧ (lvl = level ∨ (lvl ≤ maxLevel_ sl + 1 ∧ (Z.of_nat lvl ≤ maxAllowedLevel_ sl)%Z)).
Proof.
  revert level rng. induction fuel as [|f IH]; intros level rng Hf; simpl.
  - destruct (dist rng) as [d rng'].
    destruct (real_lt d (probability_ sl)); simpl; [|by eauto 10].
    destruct (Z.ltb_spec (Z.of_nat level) (maxAllowedLevel_ sl)); simpl; [|by eauto 10].
    destruct (Nat.ltb_spec level (maxLevel_ sl + 1)); [lia|by eauto 10].
  - destruct (dist rng) as [d rng'].
    destruct (real_lt d (probability_ sl)); simpl; [|by eauto 10].
    destruct (Z.ltb_spec (Z.of_nat level) (maxAllowedLevel_ sl)); simpl; [|by eauto 10].
    destruct (Nat.ltb_spec level (maxLevel_ sl + 1)); simpl; [|by eauto 10].
    destruct (IH (S level) rng') as (lvl & rng'' & -> & Hle & Hb); [lia|].
    exists lvl, rng''. split_and!; [done|lia|]. right.
    destruct Hb as [->|Hb]; [|done]. lia.
Qed.

Lemma randomLevel_spec sl :
  ∃ lvl rng',
    randomLevel sl = Some (lvl, mkSkipList (head_ sl) (maxLevel_ sl) (maxAllowedLevel_ sl)
                                           (probability_ sl) rng')
    ∧ 1 ≤ lvl ≤ maxLevel_ sl + 1
    ∧ (lvl = 1 ∨ (Z.of_nat lvl ≤ maxAllowedLevel_ sl)%Z).
Proof.
  unfold randomLevel.
  destruct (randomLevel_loop_spec sl (maxLevel_ sl) 1 (rng_ sl)) as (lvl & rng' & -> & ? & Hb);
    [lia|].
  exists lvl, rng'. simpl. split_and!; [done|lia|lia|]. destruct Hb as [->|[_ ?]]; eauto.
Qed.

(** *** Frame and growth of a represented list *)

Lemma next_at_lookup h h' x i : h' !! x = h !! x → next_at h' x i = next_at h x i.
Proof. unfold next_at. by intros ->. Qed.

Lemma shape_lookup_eq h h' x : h' !! x = h !! x → shape h' x = shape h x.
Proof. unfold shape. by intros ->. Qed.

Lemma Rep_frame h h' hd ml L :
  Rep h hd ml L →
  (∀ x, x ∈ hd :: (e_addr <$> L) → h' !! x = h !! x) →
  Rep h' hd ml L.
Proof.
  intros [Hml Hhd Hn Hl Hnd Hs Hlk] Hfr. split; try done.
  - rewrite (shape_lookup_eq h) //. apply Hfr. left.
  - rewrite Forall_forall. rewrite Forall_forall in Hn. intros e He.
    rewrite (shape_lookup_eq h); first by apply Hn.
    apply Hfr. right. apply list_elem_of_fmap. eauto.
  - intros i Hi. eapply linked_frame; [|by apply Hlk].
    intros x Hx. apply next_at_lookup, Hfr.
    apply elem_of_cons in Hx as [->|Hx]; [left|right]. by apply chain_subseteq in Hx.
Qed.

(** [head_->next.resize(ml', nullptr)] for [ml <= ml']. *)
Lemma Rep_grow h hd ml ml' L hn :
  Rep h hd ml L → ml ≤ ml' → h !! hd = Some hn →
  Rep (<[hd := mkNode (key hn) (resize ml' None (next hn))]> h) hd ml' L.
Proof.
  intros [Hml Hhd Hn Hl Hnd Hs Hlk] Hle Hhn.
  assert (Hlen : key hn = key_default ∧ length (next hn) = ml).
  { unfold shape in Hhd. rewrite Hhn /= in Hhd. by injection Hhd. }
  destruct Hlen as [Hk Hlen].
  assert (Hother : ∀ x, x ∈ e_addr <$> L →
    (<[hd := mkNode (key hn) (resize ml' None (next hn))]> h) !! x = h !! x).
  { intros x Hx. rewrite lookup_insert_ne //. intros <-.
    by apply NoDup_cons_1_1 in Hnd. }
  split; try done.
  - lia.
  - rewrite /shape lookup_insert_eq /= length_resize Hk //.
  - rewrite Forall_forall. rewrite Forall_forall in Hn. intros e He.
    rewrite (shape_lookup_eq h); first by apply Hn.
    apply Hother, list_elem_of_fmap. eauto.
  - eapply Forall_impl; [done|]. simpl. lia.
  - intros i Hi. destruct (decide (i < ml)) as [Him|Him].
    + specialize (Hlk i Him). destruct (chain i L) as [|b c] eqn:Hc; simpl in *.
      * rewrite /next_at lookup_insert_eq /= lookup_resize; [|lia..].
        by rewrite /next_at Hhn /= in Hlk.
      * destruct Hlk as [Hlk1 Hlk2]. split.
        -- rewrite /next_at lookup_insert_eq /= lookup_resize; [|lia..].
           by rewrite /next_at Hhn /= in Hlk1.
        -- eapply linked_frame; [|done]. intros x Hx.
           apply next_at_lookup, Hother.
           apply (chain_subseteq i). rewrite Hc. done.
    + rewrite chain_nil_ge; last first.
      { eapply Forall_impl; [done|]. simpl. lia. }
      simpl. rewrite /next_at lookup_insert_eq /= lookup_resize_new //; lia.
Qed.

(** *** Linking a node into one level *)

Lemma linked_rehead h h' j x y c :
  linked h j x c →
  next_at h' y j = next_at h x j →
  (∀ z, z ∈ c → next_at h' z j = next_at h z j) →
  linked h' j y c.
Proof.
  destruct c as [|b c]; simpl.
  - by intros <- ->.
  - intros [Hn Hl] Hy Hfr. split; [by rewrite Hy|].
    eapply linked_frame; [|done]. done.
Qed.

Lemma linked_insert h h1 h2 j hd c1 c2 a :
  NoDup (hd :: c1 ++ a :: c2) →
  linked h j hd (c1 ++ c2) →
  set_next h a j (head c2) = Some h1 →
  set_next h1 (lastd hd c1) j (Some a) = Some h2 →
  linked h2 j hd (c1 ++ a :: c2).
Proof.
  intros Hnd Hl Hs1 Hs2.
  assert (Hat : ∀ x, next_at h2 x j =
    if decide (x = lastd hd c1) then Some (Some a)
    else if decide (x = a) then Some (head c2) else next_at h x j).
  { intros x. rewrite (next_at_set_next _ _ _ _ _ _ _ Hs2).
    rewrite (next_at_set_next _ _ _ _ _ _ _ Hs1).
    repeat case_decide; naive_solver. }
  clear Hs1 Hs2. revert hd Hnd Hl Hat.
  induction c1 as [|x c1 IH]; intros hd Hnd Hl Hat; simpl in *.
  - apply NoDup_cons in Hnd as [Hhd Hnd]. apply NoDup_cons in Hnd as [Ha Hnd].
    split; [by rewrite Hat decide_True|].
    eapply linked_rehead; [done| |].
    + rewrite Hat decide_False; last set_solver. rewrite decide_True //.
      symmetry. by apply linked_next.
    + intros z Hz. rewrite Hat !decide_False //; set_solver.
  - destruct Hl as [Hn Hl]. apply NoDup_cons in Hnd as [Hhd Hnd].
    split.
    + pose proof (lastd_elem_cons x c1) as Hx.
      rewrite Hat !decide_False //; intros Heq; apply Hhd; rewrite Heq; set_solver.
    + by apply IH.
Qed.

(** *** The splice loop *)

Section Splice.
Context (hd : addr) (ml : nat) (k : Key) (a : addr) (lvl : nat).
Context (L1 L2 : list (@entry Key)).
Context (Hnd : NoDup (hd :: (e_addr <$> L1) ++ a :: (e_addr <$> L2))).
Context (Hlvl : lvl ≤ ml).

Local Abbreviation splice_inv := (splice_inv hd ml k a lvl L1 L2).

Lemma chain_new i j :
  chain i (L1 ++ (a, k, j) :: L2) =
    if decide (i < j) then chain i L1 ++ a :: chain i L2 else chain i (L1 ++ L2).
Proof. rewrite !chain_app chain_cons. simpl. by case_decide. Qed.

Lemma chain_NoDup i : NoDup (hd :: chain i L1 ++ a :: chain i L2).
Proof.
  eapply sublist_NoDup; [done|]. apply sublist_skip, sublist_app; [apply chain_sublist|].
  apply sublist_skip, chain_sublist.
Qed.

Lemma splice_step j h :
  j < lvl → splice_inv j h →
  ∃ h1 h2,
    next_at h (lastd hd (chain j L1)) j = Some (head (chain j L2))
    ∧ set_next h a j (head (chain j L2)) = Some h1
    ∧ set_next h1 (lastd hd (chain j L1)) j (Some a) = Some h2
    ∧ splice_inv (S j) h2.
Proof.
  intros Hj (Ha & Hsh & Hlk).
  pose proof (Hlk j ltac:(lia)) as Hlj.
  rewrite chain_new decide_False in Hlj; last lia. rewrite chain_app in Hlj.
  destruct (set_next_shape h a j (head (chain j L2)) _ _ Ha Hj) as [h1 Hs1].
  assert (Hu : lastd hd (chain j L1) ∈ hd :: chain j (L1 ++ L2)).
  { rewrite chain_app. destruct (lastd_elem hd (chain j L1)) as [Hx|Hx];
      [rewrite Hx; left|right; set_solver]. }
  destruct (Hsh (lastd hd (chain j L1)) j) as (ku & nu & Hshu & Hnu); [lia|done|].
  destruct (set_next_shape h1 (lastd hd (chain j L1)) j (Some a) ku nu) as [h2 Hs2];
    [by rewrite (shape_set_next _ _ _ _ _ _ Hs1)|done|].
  exists h1, h2. split_and!; [|done..|].
  { apply linked_split, linked_next in Hlj. done. }
  split_and!.
  - by rewrite (shape_set_next _ _ _ _ _ _ Hs2) (shape_set_next _ _ _ _ _ _ Hs1).
  - intros x i Hi Hx.
    rewrite (shape_set_next _ _ _ _ _ _ Hs2) (shape_set_next _ _ _ _ _ _ Hs1).
    by apply Hsh.
  - intros i Hi. destruct (decide (i = j)) as [->|Hij].
    + rewrite chain_new decide_True; last lia.
      eapply linked_insert; [apply chain_NoDup|done..].
    + specialize (Hlk i Hi). rewrite chain_new in Hlk. rewrite chain_new.
      assert (Hc : (if decide (i < S j) then chain i L1 ++ a :: chain i L2
                    else chain i (L1 ++ L2)) =
                   (if decide (i < j) then chain i L1 ++ a :: chain i L2
                    else chain i (L1 ++ L2))).
      { repeat case_decide; try done; lia. }
      rewrite Hc. eapply linked_frame; [|done].
      intros x _. rewrite (next_at_set_next _ _ _ _ _ _ _ Hs2).
      rewrite (next_at_set_next _ _ _ _ _ _ _ Hs1).
      rewrite !decide_False //; naive_solver.
Qed.

Lemma splice_spec n j h update :
  n + j = lvl → splice_inv j h →
  (∀ i, i < lvl → update !! i = Some (Some (lastd hd (chain i L1)))) →
  ∃ h', splice n j a update h = Some h' ∧ splice_inv lvl h'
    ∧ dom h' = dom h
    ∧ (∀ x, shape h' x = shape h x)
    ∧ ∀ x, x ∉ a :: hd :: (e_addr <$> L1 ++ L2) → h' !! x = h !! x.
Proof.
  revert j h. induction n as [|n IH]; intros j h Hn Hinv Hupd; simpl.
  - exists h. assert (Hj : j = lvl) by lia. rewrite Hj in Hinv. done.
  - rewrite Hupd /=; last lia.
    destruct (splice_step j h) as (h1 & h2 & -> & Hs1 & Hs2 & Hinv'); [lia|done|].
    simpl. rewrite Hs1 /= Hs2 /=.
    destruct (IH (S j) h2) as (h' & -> & Hinv'' & Hdom & Hshp & Hfr); [lia|done..|].
    exists h'. split_and!; [done..| | |].
    + rewrite Hdom (set_next_dom _ _ _ _ _ Hs2) (set_next_dom _ _ _ _ _ Hs1) //.
    + intros x.
      rewrite Hshp (shape_set_next _ _ _ _ _ _ Hs2) (shape_set_next _ _ _ _ _ _ Hs1) //.
    + intros x Hx. rewrite Hfr //.
      assert (Hu : lastd hd (chain j L1) ∈ hd :: (e_addr <$> L1 ++ L2)).
      { destruct (lastd_elem hd (chain j L1)) as [Hy|Hy];
          [rewrite Hy; left|right].
        apply chain_subseteq in Hy. rewrite fmap_app. set_solver. }
      unfold set_next in Hs1, Hs2.
      destruct (h !! a) as [na|]; simpl in Hs1; [|done].
      case_decide; [|done]. injection Hs1 as <-.
      destruct (_ !! lastd hd (chain j L1)) as [nu|]; simpl in Hs2; [|done].
      case_decide; [|done]. injection Hs2 as <-.
      rewrite !lookup_insert_ne //; set_solver.
Qed.

End Splice.

(** *** insert *)

Lemma fill_update_spec n i hd upd :
  i + n ≤ length upd →
  ∃ upd', fill_update n i hd upd = Some upd'
    ∧ length upd' = length upd
    ∧ ∀ j, upd' !! j =
        if decide (i ≤ j < i + n) then Some (Some hd) else upd !! j.
Proof.
  revert i upd. induction n as [|n IH]; intros i upd Hlen; simpl.
  - exists upd. split_and!; [done..|]. intros j. rewrite decide_False //. lia.
  - rewrite /store decide_True /=; last lia.
    destruct (IH (S i) (<[i:=Some hd]> upd)) as (upd' & -> & Hl & Hlk);
      [rewrite length_insert; lia|].
    rewrite length_insert in Hl. exists upd'. split_and!; [done..|].
    intros j. rewrite Hlk. destruct (decide (j = i)) as [->|Hne].
    + rewrite decide_False; last lia. rewrite decide_True; last lia.
      rewrite list_lookup_insert_eq //. lia.
    + rewrite list_lookup_insert_ne //. repeat case_decide; try done; lia.
Qed.

Lemma sorted_insert k (e : @entry Key) L1 L2 :
  e_key e = k →
  StronglySorted key_lt (e_key <$> (L1 ++ L2)) →
  Forall (λ e, key_lt (e_key e) k) L1 →
  Forall (λ e, ¬ key_lt (e_key e) k) L2 →
  k ∉ e_key <$> (L1 ++ L2) →
  Forall (λ e, key_lt k (e_key e)) L2
  ∧ StronglySorted key_lt (e_key <$> (L1 ++ e :: L2)).
Proof.
  intros Hk Hs HA HB Hnin.
  assert (HC : Forall (λ e, key_lt k (e_key e)) L2).
  { rewrite Forall_forall. rewrite Forall_forall in HB. intros e' He'.
    destruct (trichotomy key_lt k (e_key e')) as [?|[Heq|?]]; [done| |].
    - exfalso. apply Hnin. rewrite Heq. apply list_elem_of_fmap. exists e'.
      split; [done|]. apply elem_of_app. by right.
    - exfalso. by eapply HB. }
  split; [done|].
  rewrite fmap_app in Hs. apply StronglySorted_app in Hs as (_ & Hs1 & Hs2).
  rewrite fmap_app fmap_cons Hk. apply StronglySorted_app_2; [|done|].
  - intros x1 x2 (e1 & -> & He1)%list_elem_of_fmap Hx2.
    rewrite Forall_forall in HA. specialize (HA _ He1).
    apply elem_of_cons in Hx2 as [->|(e2 & -> & He2)%list_elem_of_fmap]; [done|].
    rewrite Forall_forall in HC. specialize (HC _ He2). by etrans.
  - constructor; [done|]. by rewrite Forall_fmap.
Qed.

Theorem insert_spec (st : gmap addr (Node Key) * SkipList Rng Real) L k :
  represents st L →
  ∃ st', insert k st = Some st' ∧
    ((k ∈ (e_key <$> L) ∧ st' = st) ∨
     ((k ∉ e_key <$> L) ∧ ∃ L1 L2 lvl sl1,
        L = L1 ++ L2
        ∧ Forall (λ e, key_lt (e_key e) k) L1
        ∧ Forall (λ e, key_lt k (e_key e)) L2
        ∧ randomLevel st.2 = Some (lvl, sl1)
        ∧ st'.2 = mkSkipList (head_ sl1) ((maxLevel_ sl1) `max` lvl)
                    (maxAllowedLevel_ sl1) (probability_ sl1) (rng_ sl1)
        ∧ represents st' (L1 ++ (fresh (dom st.1), k, lvl) :: L2)
        ∧ dom st'.1 = {[fresh (dom st.1)]} ∪ dom st.1
        ∧ ∀ x, x ∉ footprint st.2 L → x ≠ fresh (dom st.1) → st'.1 !! x = st.1 !! x)).
Proof.
  destruct st as [h sl]. intros (hd & Hhd & HR). simpl in *.
  destruct (sorted_split k L (rep_sorted _ _ _ _ HR)) as (L1 & L2 & -> & HA & HB).
  pose proof (sorted_member k L1 L2 (rep_sorted _ _ _ _ HR) HA HB) as Hmem.
  rewrite Hhd /=.
  destruct (search_update_spec h hd (maxLevel_ sl) k L1 L2 HR HA HB (maxLevel_ sl)
              (replicate (maxLevel_ sl) None)) as (upd & Hsu & Hlen & Hlo & _);
    [done|by rewrite length_replicate|].
  rewrite (pred_top h hd (maxLevel_ sl) L1 L2 HR (maxLevel_ sl)) // in Hsu.
  rewrite Hsu /=. rewrite length_replicate in Hlen.
  rewrite (candidate_spec h hd (maxLevel_ sl) k L1 L2) //=.
  rewrite (key_is_spec h hd (maxLevel_ sl) k L1 L2) //=.
  case_bool_decide as Hdup.
  { exists (h, sl). split; [done|]. left. split; [|done]. by apply Hmem. }
  assert (Hnin : k ∉ e_key <$> (L1 ++ L2)) by (by rewrite Hmem).
  destruct (randomLevel_spec sl) as (lvl & rng' & Hrl & Hlvl & _).
  rewrite Hrl /=.
  set (a := fresh (dom h)).
  destruct (sorted_insert k (a, k, lvl) L1 L2 eq_refl (rep_sorted _ _ _ _ HR) HA HB Hnin)
    as [HC Hsorted].
  (* the list after the sentinel has grown *)
  set (ml := maxLevel_ sl `max` lvl).
  assert (∃ h1 upd1,
    (if decide (maxLevel_ sl < lvl)
     then hn ← h !! hd;
          update' ← fill_update (lvl - maxLevel_ sl) (maxLevel_ sl) hd
                                (resize lvl None upd);
          Some (<[hd:=mkNode (key hn) (resize lvl None (next hn))]> h, update',
                mkSkipList (head_ sl) lvl (maxAllowedLevel_ sl) (probability_ sl) rng')
     else Some (h, upd, mkSkipList (head_ sl) (maxLevel_ sl) (maxAllowedLevel_ sl)
                                   (probability_ sl) rng'))
    = Some (h1, upd1, mkSkipList (head_ sl) ml (maxAllowedLevel_ sl) (probability_ sl) rng')
    ∧ Rep h1 hd ml (L1 ++ L2)
    ∧ dom h1 = dom h
    ∧ (∀ x, x ≠ hd → h1 !! x = h !! x)
    ∧ ∀ i, i < lvl → upd1 !! i = Some (Some (lastd hd (chain i L1)))) as
    (h1 & upd1 & Hgrow & HR1 & Hdom1 & Hfr1 & Hupd1).
  { case_decide as Hg.
    - destruct (shape_lookup _ _ _ _ (rep_hd _ _ _ _ HR)) as (nx & Hhn & Hnx).
      rewrite Hhn /=.
      destruct (fill_update_spec (lvl - maxLevel_ sl) (maxLevel_ sl) hd
                  (resize lvl None upd)) as (upd1 & -> & _ & Hfill);
        [rewrite length_resize; lia|].
      simpl. eexists _, _. replace ml with lvl by lia.
      split_and!; [done| | | |].
      + by apply (Rep_grow h hd (maxLevel_ sl) lvl (L1 ++ L2) (mkNode key_default nx) HR);
          [lia|].
      + rewrite dom_insert_L. apply elem_of_dom_2 in Hhn. set_solver.
      + intros x Hx. by rewrite lookup_insert_ne.
      + intros i Hi. rewrite Hfill.
        case_decide as Hi'.
        * rewrite (pred_top h hd (maxLevel_ sl) L1 L2 HR) //. lia.
        * rewrite lookup_resize; [|lia..]. apply Hlo. lia.
    - eexists _, _. replace ml with (maxLevel_ sl) by lia.
      split_and!; [done..|]. intros i Hi. apply Hlo. lia. }
  simpl in Hgrow. rewrite Hgrow /=. rewrite -/a.
  unfold new_Node. rewrite Hdom1 -/a.
  set (h2 := <[a := mkNode k (replicate lvl None)]> h1).
  assert (Ha1 : h1 !! a = None).
  { apply not_elem_of_dom. rewrite Hdom1. apply is_fresh. }
  assert (Hafoot : a ∉ hd :: (e_addr <$> L1 ++ L2)).
  { intros Hin. pose proof (Rep_fuel _ _ _ _ HR1) as _.
    apply elem_of_cons in Hin as [Heq|Hin].
    - pose proof (rep_hd _ _ _ _ HR1) as Hs. apply shape_is_Some in Hs.
      rewrite -Heq Ha1 in Hs. by destruct Hs.
    - apply list_elem_of_fmap in Hin as (e & Heq & He).
      pose proof (rep_nodes _ _ _ _ HR1) as Hs. rewrite Forall_forall in Hs.
      apply Hs, shape_is_Some in He. rewrite -Heq Ha1 in He. by destruct He. }
  assert (HR2 : Rep h2 hd ml (L1 ++ L2)).
  { eapply Rep_frame; [done|]. intros x Hx. rewrite lookup_insert_ne //.
    intros <-. done. }
  assert (Hnd : NoDup (hd :: (e_addr <$> L1) ++ a :: (e_addr <$> L2))).
  { pose proof (rep_nodup _ _ _ _ HR2) as Hnd. rewrite fmap_app in Hnd.
    rewrite fmap_app in Hafoot.
    apply NoDup_cons in Hnd as [Hhdn Hnd]. apply NoDup_app in Hnd as (Hn1 & Hn12 & Hn2).
    apply NoDup_cons. split; [set_solver|]. apply NoDup_app. split_and!; [done| |].
    - intros x Hx [->|Hx2]%elem_of_cons; [set_solver|]. by eapply Hn12.
    - apply NoDup_cons. split; [set_solver|done]. }
  destruct (splice_spec hd ml k a lvl L1 L2 Hnd ltac:(lia) lvl 0 h2 upd1)
    as (h' & Hsp & Hinv & Hdom' & Hshp & Hfr'); [lia| |done|].
  { split_and!.
    - rewrite /shape /h2 lookup_insert_eq /= length_replicate //.
    - intros x i Hi [->|Hx]%elem_of_cons.
      + rewrite (rep_hd _ _ _ _ HR2). eauto.
      + pose proof (rep_nodes _ _ _ _ HR2) as Hs. rewrite Forall_forall in Hs.
        apply list_elem_of_fmap in Hx as (e & -> & [He1 He2]%list_elem_of_filter).
        rewrite (Hs _ He2). eauto.
    - intros i Hi. rewrite chain_new. destruct (decide (i < 0)) as [?|_]; [lia|].
      by apply (rep_linked _ _ _ _ HR2). }
  rewrite Hsp /=. eexists. split; [done|]. right. split; [done|].
  exists L1, L2, lvl, (mkSkipList (head_ sl) (maxLevel_ sl) (maxAllowedLevel_ sl)
                                  (probability_ sl) rng').
  simpl. split_and!; try done.
  - exists hd. split; [done|]. simpl. destruct Hinv as (Hsa & _ & Hlk).
    split.
    + apply (rep_ml _ _ _ _ HR2).
    + rewrite Hshp. apply (rep_hd _ _ _ _ HR2).
    + apply Forall_app. pose proof (rep_nodes _ _ _ _ HR2) as Hs.
      apply Forall_app in Hs as [Hs1 Hs2]. split; [|constructor; [done|]].
      * eapply Forall_impl; [done|]. intros e. by rewrite Hshp.
      * eapply Forall_impl; [done|]. intros e. by rewrite Hshp.
    + apply Forall_app. pose proof (rep_lvl _ _ _ _ HR2) as Hs.
      apply Forall_app in Hs as [Hs1 Hs2]. split; [done|constructor; [|done]].
      simpl. lia.
    + by rewrite fmap_app fmap_cons.
    + done.
    + done.
  - rewrite Hdom' /h2 dom_insert_L Hdom1 //.
  - intros x Hx Hxa. rewrite /footprint Hhd /= in Hx.
    rewrite Hfr'; last set_solver. rewrite /h2 lookup_insert_ne //.
    apply Hfr1. set_solver.
Qed.

(** *** Unlinking a node from one level *)

Lemma linked_remove h h' j hd c1 a c2 :
  NoDup (hd :: c1 ++ a :: c2) →
  linked h j hd (c1 ++ a :: c2) →
  set_next h (lastd hd c1) j (head c2) = Some h' →
  linked h' j hd (c1 ++ c2).
Proof.
  intros Hnd Hl Hs.
  assert (Hat : ∀ x, next_at h' x j =
    if decide (x = lastd hd c1) then Some (head c2) else next_at h x j).
  { intros x. rewrite (next_at_set_next _ _ _ _ _ _ _ Hs).
    repeat case_decide; naive_solver. }
  clear Hs. revert hd Hnd Hl Hat.
  induction c1 as [|x c1 IH]; intros hd Hnd Hl Hat; simpl in *.
  - destruct Hl as [_ Hl]. apply NoDup_cons in Hnd as [Hhd _].
    eapply linked_rehead; [done| |].
    + rewrite Hat decide_True //. symmetry. by apply linked_next.
    + intros z Hz. rewrite Hat decide_False //. set_solver.
  - destruct Hl as [Hn Hl]. apply NoDup_cons in Hnd as [Hhd Hnd].
    split; [|by apply IH].
    pose proof (lastd_elem_cons x c1) as Hx.
    rewrite Hat decide_False //. intros Heq. apply Hhd. rewrite Heq. set_solver.
Qed.

Section Unlink.
Context (hd : addr) (ml : nat) (e : @entry Key).
Context (L1 L2 : list (@entry Key)).
Context (Hnd : NoDup (hd :: (e_addr <$> L1 ++ e :: L2))).
Context (Hlvl : e_lvl e ≤ ml).

Local Abbreviation unlink_inv := (unlink_inv hd ml e L1 L2).

Lemma chain_NoDup_erase i : NoDup (hd :: chain i (L1 ++ e :: L2)).
Proof.
  eapply sublist_NoDup; [done|]. apply sublist_skip, chain_sublist.
Qed.

Lemma erased_not_after i : e_addr e ∉ chain i L2.
Proof.
  intros Hin%chain_subseteq. pose proof Hnd as Hn. rewrite fmap_app fmap_cons in Hn.
  apply NoDup_cons in Hn as [_ Hn]. apply NoDup_app in Hn as (_ & _ & Hn).
  by apply NoDup_cons in Hn as [? _].
Qed.

Lemma erased_not_before i : e_addr e ∉ hd :: chain i L1.
Proof.
  pose proof Hnd as Hn. rewrite fmap_app fmap_cons in Hn.
  apply NoDup_cons in Hn as [Hhd Hn].
  apply NoDup_app in Hn as (_ & Hn & _).
  intros [Heq|Hin%chain_subseteq]%elem_of_cons.
  - apply Hhd. rewrite -Heq. set_solver.
  - apply (Hn _ Hin). left.
Qed.

Lemma unlink_step j h :
  j < ml → unlink_inv j h →
  ∃ h',
    (nx ← next_at h (lastd hd (chain j L1)) j;
     if decide (nx = Some (e_addr e))
     then cnx ← next_at h (e_addr e) j; set_next h (lastd hd (chain j L1)) j cnx
     else Some h) = Some h'
    ∧ unlink_inv (S j) h'
    ∧ dom h' = dom h
    ∧ (∀ x, shape h' x = shape h x)
    ∧ (∀ x, x ∉ hd :: (e_addr <$> L1) → h' !! x = h !! x).
Proof.
  intros Hj (Hsh & Hlk).
  pose proof (Hlk j Hj) as Hlj. rewrite decide_False in Hlj; last lia.
  pose proof (chain_NoDup_erase j) as Hndj.
  rewrite chain_app chain_cons in Hlj. rewrite chain_app chain_cons in Hndj.
  assert (Hother : ∀ h', (∀ x i, i ≠ j → next_at h' x i = next_at h x i) →
    ∀ i, i < ml → i ≠ j →
      linked h' i hd (if decide (i < S j) then chain i (L1 ++ L2)
                      else chain i (L1 ++ e :: L2))).
  { intros h' Hfr i Hi Hij. specialize (Hlk i Hi).
    assert (Hc : (if decide (i < S j) then chain i (L1 ++ L2)
                  else chain i (L1 ++ e :: L2)) =
                 (if decide (i < j) then chain i (L1 ++ L2)
                  else chain i (L1 ++ e :: L2))).
    { repeat case_decide; try done; lia. }
    rewrite Hc. eapply linked_frame; [|done]. intros x _. by apply Hfr. }
  rewrite (linked_next _ _ _ _ (linked_split _ _ _ _ _ Hlj)) /=.
  destruct (decide (j < e_lvl e)) as [Hje|Hje].
  - simpl. rewrite decide_True //.
    assert (Hc : next_at h (e_addr e) j = Some (head (chain j L2))).
    { pose proof Hlj as Hl2. rewrite (cons_middle (e_addr e)) app_assoc in Hl2.
      apply linked_split, linked_next in Hl2.
      by rewrite lastd_app /= in Hl2. }
    rewrite Hc /=.
    destruct (Hsh (lastd hd (chain j L1)) j) as (ku & nu & Hshu & Hnu); [done| |].
    { rewrite chain_app. destruct (lastd_elem hd (chain j L1)) as [Hx|Hx];
        [rewrite Hx; left|right; set_solver]. }
    destruct (set_next_shape h (lastd hd (chain j L1)) j (head (chain j L2)) ku nu)
      as [h' Hs]; [done..|].
    exists h'. split_and!; [done| | | |].
    + split.
      * intros x i Hi Hx. rewrite (shape_set_next _ _ _ _ _ _ Hs). by apply Hsh.
      * intros i Hi. destruct (decide (i = j)) as [->|Hij].
        -- rewrite decide_True; last lia. rewrite chain_app.
           eapply linked_remove; [|done..]. done.
        -- apply Hother; [|done..]. intros x i' Hi'.
           rewrite (next_at_set_next _ _ _ _ _ _ _ Hs) decide_False //. naive_solver.
    + by rewrite (set_next_dom _ _ _ _ _ Hs).
    + intros x. by rewrite (shape_set_next _ _ _ _ _ _ Hs).
    + intros x Hx. unfold set_next in Hs.
      destruct (h !! lastd hd (chain j L1)) as [nu'|]; simpl in Hs; [|done].
      case_decide; [|done]. injection Hs as <-.
      rewrite lookup_insert_ne //. intros <-. apply Hx.
      destruct (lastd_elem hd (chain j L1)) as [Hy|Hy]; [rewrite Hy; left|right].
      by apply chain_subseteq in Hy.
  - rewrite decide_False.
    + exists h. split_and!; [done| |done..]. split; [done|].
      intros i Hi. destruct (decide (i = j)) as [->|Hij].
      * rewrite decide_True; last lia. by rewrite chain_app.
      * by apply Hother.
    + intros Heq. apply (erased_not_after j).
      destruct (chain j L2) as [|b c2]; [done|]. simpl in Heq.
      injection Heq as ->. left.
Qed.

Lemma unlink_spec n j h update :
  n + j = ml → unlink_inv j h →
  (∀ i, i < ml → update !! i = Some (Some (lastd hd (chain i L1)))) →
  ∃ h', unlink n j (e_addr e) update h = Some h' ∧ unlink_inv ml h'
    ∧ dom h' = dom h
    ∧ (∀ x, shape h' x = shape h x)
    ∧ (∀ x, x ∉ hd :: (e_addr <$> L1) → h' !! x = h !! x).
Proof.
  revert j h. induction n as [|n IH]; intros j h Hn Hinv Hupd; simpl.
  - exists h. assert (Hj : j = ml) by lia. rewrite Hj in Hinv. done.
  - rewrite Hupd /=; last lia.
    destruct (unlink_step j h) as (h1 & Hst & Hinv' & Hd1 & Hsh1 & Hfr1); [lia|done|].
    destruct (next_at h (lastd hd (chain j L1)) j) as [nx|]; simpl in Hst; [|done].
    simpl. rewrite Hst /=.
    destruct (IH (S j) h1) as (h' & -> & Hinv'' & Hdom & Hshp & Hfr); [lia|done..|].
    exists h'. split_and!; [done..| | |].
    + by rewrite Hdom.
    + intros x. by rewrite Hshp.
    + intros x Hx. rewrite Hfr // Hfr1 //.
Qed.

End Unlink.

(** *** Shrinking the sentinel *)

Lemma Rep_pop h hd m L :
  Rep h hd (S (S m)) L → chain (S m) L = [] →
  ∃ h1, pop_back h hd = Some h1 ∧ Rep h1 hd (S m) L
    ∧ dom h1 = dom h ∧ ∀ x, x ≠ hd → h1 !! x = h !! x.
Proof.
  intros [Hml Hhd Hn Hl Hnd Hs Hlk] Hc.
  destruct (shape_lookup _ _ _ _ Hhd) as (nx & Hhn & Hnx).
  unfold pop_back. rewrite Hhn /= decide_True; last lia. rewrite Hnx.
  replace (S (S m) - 1) with (S m) by lia.
  eexists. split; [done|].
  assert (Hother : ∀ x, x ≠ hd →
    (<[hd := mkNode key_default (take (S m) nx)]> h) !! x = h !! x).
  { intros x Hx. by rewrite lookup_insert_ne. }
  split_and!; [|by rewrite dom_insert_L; apply elem_of_dom_2 in Hhn; set_solver|done].
  split; try done.
  - lia.
  - rewrite /shape lookup_insert_eq /= length_take. do 2 f_equal. lia.
  - rewrite Forall_forall. rewrite Forall_forall in Hn. intros e He.
    rewrite (shape_lookup_eq h); first by apply Hn.
    apply Hother. intros Heq. apply NoDup_cons_1_1 in Hnd. apply Hnd.
    rewrite -Heq. apply list_elem_of_fmap. eauto.
  - apply chain_nil_inv in Hc. rewrite Forall_forall. rewrite Forall_forall in Hl.
    rewrite Forall_forall in Hc. intros e He. specialize (Hl e He). specialize (Hc e He).
    simpl in *. lia.
  - intros i Hi. specialize (Hlk i ltac:(lia)).
    eapply linked_rehead with (x := hd); [done| |].
    + rewrite /next_at lookup_insert_eq Hhn /=. by rewrite lookup_take_lt.
    + intros z Hz. apply next_at_lookup, Hother. intros ->.
      apply NoDup_cons_1_1 in Hnd. by apply Hnd, (chain_subseteq i).
Qed.

Lemma shrink_spec h hd ml L :
  Rep h hd ml L →
  ∃ h' ml', shrink hd ml h = Some (h', ml') ∧ Rep h' hd ml' L
    ∧ ml' ≤ ml
    ∧ (ml' = 1 ∨ ∃ b, next_at h' hd (ml' - 1) = Some (Some b))
    ∧ dom h' = dom h ∧ ∀ x, x ≠ hd → h' !! x = h !! x.
Proof.
  revert h. induction ml as [|ml IH]; intros h HR.
  - pose proof (rep_ml _ _ _ _ HR). lia.
  - destruct ml as [|m].
    + exists h, 1. simpl. split_and!; eauto.
    + simpl. pose proof (rep_linked _ _ _ _ HR (S m) ltac:(lia)) as Hlk.
      rewrite (linked_next _ _ _ _ Hlk) /=.
      destruct (chain (S m) L) as [|b c] eqn:Hc; simpl.
      * destruct (Rep_pop _ _ _ _ HR Hc) as (h1 & -> & HR1 & Hd1 & Hfr1). simpl.
        destruct (IH h1 HR1) as (h' & ml' & Hsh & HR' & Hle & Htight & Hd' & Hfr').
        exists h', ml'. split_and!; [done..|lia|done| |].
        -- by rewrite Hd'.
        -- intros x Hx. rewrite Hfr' // Hfr1 //.
      * exists h, (S (S m)). split_and!; [done..| |done|done].
        right. exists b. simpl.
        simpl in Hlk. by destruct Hlk as [-> _].
Qed.

(** *** erase *)

Lemma sorted_remove (e : @entry Key) L1 L2 :
  StronglySorted key_lt (e_key <$> (L1 ++ e :: L2)) →
  StronglySorted key_lt (e_key <$> (L1 ++ L2)) ∧ e_key e ∉ e_key <$> (L1 ++ L2).
Proof.
  rewrite !fmap_app fmap_cons. intros (Hc & HsA & HsB)%StronglySorted_app.
  apply StronglySorted_inv in HsB as [HsB He]. split.
  - apply StronglySorted_app_2; [|done..]. intros x1 x2 Hx1 Hx2. apply Hc; [done|].
    by right.
  - intros [Hin|Hin]%elem_of_app.
    + apply (irreflexivity key_lt (e_key e)). apply Hc; [done|left].
    + rewrite Forall_forall in He. apply (irreflexivity key_lt (e_key e)). by apply He.
Qed.

Theorem erase_spec (st : gmap addr (Node Key) * SkipList Rng Real) L k :
  represents st L →
  ∃ r, erase k st = Some r ∧
    (((k ∉ e_key <$> L) ∧ r = (false, st)) ∨
     (k ∈ (e_key <$> L) ∧ ∃ L1 e L2 h' ml',
        L = L1 ++ e :: L2 ∧ e_key e = k
        ∧ r = (true, (h', mkSkipList (head_ st.2) ml' (maxAllowedLevel_ st.2)
                                     (probability_ st.2) (rng_ st.2)))
        ∧ represents r.2 (L1 ++ L2)
        ∧ ml' ≤ maxLevel_ st.2
        ∧ (ml' = 1 ∨ ∃ hd b, head_ st.2 = Some hd
                       ∧ next_at h' hd (ml' - 1) = Some (Some b))
        ∧ dom h' = dom st.1 ∖ {[e_addr e]}
        ∧ ∀ x, x ∉ footprint st.2 L → h' !! x = st.1 !! x)).
Proof.
  destruct st as [h sl]. intros (hd & Hhd & HR). simpl in *.
  destruct (sorted_split k L (rep_sorted _ _ _ _ HR)) as (L1 & L2 & -> & HA & HB).
  pose proof (sorted_member k L1 L2 (rep_sorted _ _ _ _ HR) HA HB) as Hmem.
  rewrite Hhd /=.
  destruct (search_update_spec h hd (maxLevel_ sl) k L1 L2 HR HA HB (maxLevel_ sl)
              (replicate (maxLevel_ sl) None)) as (upd & Hsu & Hlen & Hlo & _);
    [done|by rewrite length_replicate|].
  rewrite (pred_top h hd (maxLevel_ sl) L1 L2 HR (maxLevel_ sl)) // in Hsu.
  rewrite Hsu /=.
  rewrite (candidate_spec h hd (maxLevel_ sl) k L1 L2) //=.
  rewrite (key_is_spec h hd (maxLevel_ sl) k L1 L2) //=.
  destruct L2 as [|e L2]; simpl.
  { eexists. split; [done|]. left. split; [|done]. rewrite Hmem. done. }
  case_bool_decide as Hfound; last first.
  { eexists. split; [done|]. left. split; [|done]. rewrite Hmem. done. }
  injection Hfound as Hk.
  pose proof (rep_nodup _ _ _ _ HR) as Hnd.
  assert (Hel : e_lvl e ≤ maxLevel_ sl).
  { pose proof (rep_lvl _ _ _ _ HR) as Hl. apply Forall_app in Hl as [_ Hl].
    apply Forall_cons_1 in Hl as [Hl _]. simpl in Hl. lia. }
  destruct (unlink_spec hd (maxLevel_ sl) e L1 L2 Hnd Hel (maxLevel_ sl) 0 h upd)
    as (h1 & Hun & [_ Hlk1] & Hd1 & Hsh1 & Hfr1); [lia| |done|].
  { split.
    - intros x i Hi [->|Hx]%elem_of_cons.
      + rewrite (rep_hd _ _ _ _ HR). eauto.
      + pose proof (rep_nodes _ _ _ _ HR) as Hs. rewrite Forall_forall in Hs.
        apply list_elem_of_fmap in Hx as (e' & -> & [He1 He2]%list_elem_of_filter).
        rewrite (Hs _ He2). eauto.
    - intros i Hi. destruct (decide (i < 0)) as [?|_]; [lia|].
      by apply (rep_linked _ _ _ _ HR). }
  rewrite Hun /=.
  destruct (sorted_remove e L1 L2 (rep_sorted _ _ _ _ HR)) as [Hsorted _].
  assert (Hnd' : NoDup (hd :: (e_addr <$> L1 ++ L2))).
  { eapply sublist_NoDup; [done|]. apply sublist_skip, fmap_sublist.
    apply sublist_app; [done|]. by apply sublist_cons. }
  assert (Hein : e_addr e ∉ hd :: (e_addr <$> L1 ++ L2)).
  { rewrite fmap_app.
    pose proof (erased_not_before hd _ e L1 L2 Hnd Hel 0) as Hb.
    pose proof (erased_not_after hd e L1 L2 Hnd 0) as Ha.
    pose proof (rep_lvl _ _ _ _ HR) as Hl. apply Forall_app in Hl as [Hl1 Hl2].
    apply Forall_cons_1 in Hl2 as [_ Hl2].
    rewrite chain_0 in Hb; last (eapply Forall_impl; [exact Hl1|]; simpl; lia).
    rewrite chain_0 in Ha; last (eapply Forall_impl; [exact Hl2|]; simpl; lia).
    set_solver. }
  assert (HR2 : Rep (delete (e_addr e) h1) hd (maxLevel_ sl) (L1 ++ L2)).
  { assert (Hdel : ∀ x, x ∈ hd :: (e_addr <$> L1 ++ L2) →
              delete (e_addr e) h1 !! x = h1 !! x).
    { intros x Hx. rewrite lookup_delete_ne //. intros <-. done. }
    split.
    - apply (rep_ml _ _ _ _ HR).
    - rewrite (shape_lookup_eq h1).
      + rewrite Hsh1. apply (rep_hd _ _ _ _ HR).
      + apply Hdel. left.
    - pose proof (rep_nodes _ _ _ _ HR) as Hs. rewrite Forall_forall in Hs.
      rewrite Forall_forall. intros e' He'.
      rewrite (shape_lookup_eq h1).
      + rewrite Hsh1. apply Hs. apply elem_of_app in He' as [?|?]; set_solver.
      + apply Hdel. right. apply list_elem_of_fmap. eauto.
    - pose proof (rep_lvl _ _ _ _ HR) as Hl. apply Forall_app in Hl as [Hl1 Hl2].
      apply Forall_cons_1 in Hl2 as [_ Hl2]. by apply Forall_app.
    - done.
    - done.
    - intros i Hi. specialize (Hlk1 i Hi). rewrite decide_True // in Hlk1.
      eapply linked_frame; [|done]. intros x Hx. apply next_at_lookup, Hdel.
      apply elem_of_cons in Hx as [->|Hx]; [left|right]. by apply chain_subseteq in Hx. }
  destruct (shrink_spec _ _ _ _ HR2) as (h' & ml' & Hshr & HR' & Hle & Htight & Hd' & Hfr').
  rewrite Hshr /=. eexists. split; [done|]. right. split.
  { rewrite Hmem. simpl. by rewrite Hk. }
  exists L1, e, L2, h', ml'. simpl. split_and!; try done.
  - by exists hd.
  - destruct Htight as [?|[b Hb]]; [by left|right; eauto].
  - rewrite Hd' dom_delete_L Hd1 //.
  - intros x Hx. rewrite /footprint Hhd /= in Hx.
    rewrite Hfr'; last set_solver. rewrite lookup_delete_ne; last set_solver.
    apply Hfr1. rewrite fmap_app in Hx. set_solver.
Qed.

(** *** A fresh list, and the key sets along a run *)

Lemma Rep_empty h a :
  h !! a = Some (mkNode key_default [None]) → Rep h a 1 [].
Proof.
  intros Ha. split; [lia| |constructor|constructor| |constructor|].
  - by rewrite /shape Ha.
  - apply NoDup_singleton.
  - intros i Hi. assert (i = 0) as -> by lia. by rewrite /= /next_at Ha.
Qed.

Lemma SkipList_new_spec (p : Real) (m : Z) (seed : Rng) h :
  represents (SkipList_new p m seed h) [].
Proof.
  unfold SkipList_new, new_Node. exists (fresh (dom h)). split; [done|]. simpl.
  apply Rep_empty. by rewrite lookup_insert_eq.
Qed.

Lemma insert_keys (st : gmap addr (Node Key) * SkipList Rng Real) L k :
  represents st L →
  ∃ st' L', insert k st = Some st' ∧ represents st' L'
    ∧ ∀ k', k' ∈ e_key <$> L' ↔ k' = k ∨ k' ∈ e_key <$> L.
Proof.
  intros HR. destruct (insert_spec st L k HR) as (st' & Hi & [[Hin ->]|[Hnin Hex]]).
  - exists st, L. split_and!; [done..|]. intros k'. split; [by right|].
    by intros [->|?].
  - destruct Hex as (L1 & L2 & lvl & sl1 & -> & _ & _ & _ & _ & HR' & _).
    eexists _, _. split_and!; [done..|]. intros k'.
    rewrite !fmap_app fmap_cons. set_solver.
Qed.

Lemma erase_keys (st : gmap addr (Node Key) * SkipList Rng Real) L k :
  represents st L →
  ∃ r L', erase k st = Some r ∧ represents r.2 L'
    ∧ ∀ k', k' ∈ e_key <$> L' ↔ k' ≠ k ∧ k' ∈ e_key <$> L.
Proof.
  intros HR. destruct (erase_spec st L k HR) as (r & He & [[Hnin ->]|[Hin Hex]]).
  - eexists _, L. split_and!; [done..|]. intros k'. split; [|by intros [_ ?]].
    intros Hk'. split; [|done]. by intros ->.
  - destruct Hex as (L1 & e & L2 & h' & ml' & -> & Hk & -> & HR' & _).
    destruct HR as (hd & _ & HR).
    destruct (sorted_remove e L1 L2 (rep_sorted _ _ _ _ HR)) as [_ Hnin'].
    eexists _, _. split_and!; [done..|]. intros k'.
    rewrite Hk in Hnin'. rewrite !fmap_app fmap_cons Hk.
    rewrite fmap_app in Hnin'. set_solver.
Qed.

Lemma inserted_not_erased_nil k : ¬ inserted_not_erased k ([] : list (Cmd Key)).
Proof. intros (pre & post & Heq & _). by destruct pre. Qed.

Lemma inserted_not_erased_cons k (c : Cmd Key) cs :
  inserted_not_erased k (c :: cs) ↔
    (c = CInsert k ∧ CErase k ∉ cs) ∨ inserted_not_erased k cs.
Proof.
  split.
  - intros (pre & post & Heq & Hpost). destruct pre as [|c' pre]; simpl in Heq.
    + injection Heq as -> ->. by left.
    + injection Heq as -> ->. right. by exists pre, post.
  - intros [[-> Hcs]|(pre & post & -> & Hpost)].
    + by exists [], cs.
    + by exists (c :: pre), post.
Qed.

Lemma run_keys cs (st : gmap addr (Node Key) * SkipList Rng Real) L :
  represents st L →
  ∃ st' L', run cs st = Some st' ∧ represents st' L'
    ∧ ∀ k, k ∈ e_key <$> L' ↔
        inserted_not_erased k cs ∨ (k ∈ e_key <$> L ∧ CErase k ∉ cs).
Proof.
  revert st L. induction cs as [|c cs IH]; intros st L HR; simpl.
  - exists st, L. split_and!; [done..|]. intros k. split.
    + intros Hk. right. split; [done|]. apply not_elem_of_nil.
    + intros [[]%inserted_not_erased_nil|[? _]]. done.
  - destruct c as [k0|k0]; simpl.
    + destruct (insert_keys st L k0 HR) as (st1 & L1 & -> & HR1 & Hk1). simpl.
      destruct (IH st1 L1 HR1) as (st' & L' & -> & HR' & Hk').
      exists st', L'. split_and!; [done..|]. intros k.
      rewrite Hk' Hk1 inserted_not_erased_cons not_elem_of_cons.
      destruct (decide (k = k0)) as [->|Hne]; [naive_solver|].
      split; [naive_solver|]. intros [[[[= ?] _]|?]|(? & _ & ?)]; naive_solver.
    + destruct (erase_keys st L k0 HR) as (r & L1 & -> & HR1 & Hk1). simpl.
      destruct (IH r.2 L1 HR1) as (st' & L' & -> & HR' & Hk').
      exists st', L'. split_and!; [done..|]. intros k.
      rewrite Hk' Hk1 inserted_not_erased_cons not_elem_of_cons.
      split; [naive_solver|]. intros [[[[=] _]|?]|(? & ? & ?)]; [by left|].
      right. split_and!; [congruence|done..].
Qed.

Lemma SkipList_new_wf (p : Real) (m : Z) (seed : Rng) h :
  wf (SkipList_new p m seed h).
Proof. exists []. apply SkipList_new_spec. Qed.

Lemma run_wf cs (st st' : gmap addr (Node Key) * SkipList Rng Real) :
  wf st → run cs st = Some st' → wf st'.
Proof.
  intros [L HR] Hrun. destruct (run_keys cs st L HR) as (st2 & L' & Hrun' & HR' & _).
  rewrite Hrun in Hrun'. injection Hrun' as <-. by exists L'.
Qed.

(** *** Destruction and move *)

Lemma next_at_is_Some h a i v : next_at h a i = Some v → is_Some (h !! a).
Proof. unfold next_at. destruct (h !! a); [eauto|done]. Qed.

Lemma delete_nodes_spec c h fuel :
  NoDup c →
  match c with [] => True | a :: c' => linked h 0 a c' end →
  length c ≤ fuel →
  ∃ h', delete_nodes fuel h (head c) = Some h'
    ∧ (∀ x, x ∈ c → h' !! x = None)
    ∧ (∀ x, x ∉ c → h' !! x = h !! x).
Proof.
  revert h fuel. induction c as [|a c IH]; intros h fuel Hnd Hl Hf.
  - exists h. split_and!; [by destruct fuel| |done].
    intros x Hx. by apply elem_of_nil in Hx.
  - destruct fuel as [|f]; [simpl in Hf; lia|]. simpl.
    pose proof (linked_next _ _ _ _ Hl) as Hn. rewrite Hn /=.
    destruct (next_at_is_Some _ _ _ _ Hn) as [nd Hnd'].
    rewrite /free Hnd' /=.
    apply NoDup_cons in Hnd as [Ha Hnd].
    destruct (IH (delete a h) f Hnd) as (h' & Hdn & Hin & Hout).
    + destruct c as [|b c]; [done|]. simpl in Hl. destruct Hl as [_ Hl].
      eapply linked_frame; [|done]. intros x Hx.
      apply next_at_lookup, lookup_delete_ne. intros <-. done.
    + simpl in Hf. lia.
    + exists h'. split_and!; [done| |].
      * intros x [->|Hx]%elem_of_cons; [|by apply Hin].
        rewrite Hout // lookup_delete_eq //.
      * intros x Hx. rewrite Hout; last set_solver.
        rewrite lookup_delete_ne //. set_solver.
Qed.

Lemma release_spec h sl L :
  represents (h, sl) L →
  ∃ h', release h sl = Some h'
    ∧ (∀ x, x ∈ footprint sl L → h' !! x = None)
    ∧ (∀ x, x ∉ footprint sl L → h' !! x = h !! x).
Proof.
  intros (hd & Hhd & HR). simpl in *. rewrite /release /footprint Hhd /=.
  pose proof (rep_linked _ _ _ _ HR 0) as Hlk.
  assert (Forall (λ e : @entry Key, 1 ≤ e_lvl e) L) as Hge.
  { eapply Forall_impl; [apply (rep_lvl _ _ _ _ HR)|]. simpl. lia. }
  pose proof (rep_ml _ _ _ _ HR) as Hml.
  rewrite chain_0 // in Hlk. specialize (Hlk ltac:(lia)).
  rewrite (linked_next _ _ _ _ Hlk) /=.
  pose proof (rep_nodup _ _ _ _ HR) as Hnd. apply NoDup_cons in Hnd as [Hhdn Hnd].
  destruct (delete_nodes_spec (e_addr <$> L) h (size h) Hnd) as (h1 & -> & Hin & Hout).
  { destruct (e_addr <$> L) as [|a c]; [done|]. simpl in Hlk. by destruct Hlk. }
  { apply Rep_fuel in HR. rewrite length_fmap. lia. }
  simpl. unfold free. rewrite Hout //.
  destruct (shape_is_Some _ _ _ (rep_hd _ _ _ _ HR)) as [hn ->].
  eexists. split; [done|]. split.
  - intros x [->|Hx]%elem_of_cons; [by rewrite lookup_delete_eq|].
    rewrite lookup_delete_ne; last by intros <-. by apply Hin.
  - intros x Hx. rewrite lookup_delete_ne; last set_solver. apply Hout. set_solver.
Qed.

Lemma Rep_allocated h hd ml L x :
  Rep h hd ml L → x ∈ hd :: (e_addr <$> L) → is_Some (h !! x).
Proof.
  intros HR [->|Hx]%elem_of_cons.
  - eapply shape_is_Some, (rep_hd _ _ _ _ HR).
  - apply list_elem_of_fmap in Hx as (e & -> & He).
    pose proof (rep_nodes _ _ _ _ HR) as Hn. rewrite Forall_forall in Hn.
    eapply shape_is_Some, Hn, He.
Qed.

Lemma Rep_new_Node h hd ml L nd :
  Rep h hd ml L → Rep (<[fresh (dom h) := nd]> h) hd ml L.
Proof.
  intros HR. eapply Rep_frame; [done|]. intros x Hx.
  rewrite lookup_insert_ne //. intros <-.
  apply (Rep_allocated _ _ _ _ _ HR) in Hx as [? Hx].
  apply elem_of_dom_2 in Hx. by apply is_fresh in Hx.
Qed.

(** What both moves leave in [other]: a fresh sentinel of height 1. *)
Lemma resetToEmpty_moved h (other : SkipList Rng Real) :
  resetToEmpty (h, (transfer other).2) =
    SkipList_new (probability_ other) (maxAllowedLevel_ other) (rng_ other) h.
Proof. done. Qed.

Lemma move_construct_spec h (other : SkipList Rng Real) L :
  represents (h, other) L →
  move_construct h other =
    ((SkipList_new (probability_ other) (maxAllowedLevel_ other) (rng_ other) h).1,
     other,
     (SkipList_new (probability_ other) (maxAllowedLevel_ other) (rng_ other) h).2)
  ∧ represents ((SkipList_new (probability_ other) (maxAllowedLevel_ other)
                   (rng_ other) h).1, other) L.
Proof.
  intros (hd & Hhd & HR). simpl in *. split.
  - unfold move_construct. destruct other as [ho mo ao po ro]. simpl in *.
    rewrite Hhd. done.
  - exists hd. split; [done|]. simpl. by apply Rep_new_Node.
Qed.

Lemma move_assign_from_spec h (this other : SkipList Rng Real) Lt Lo :
  represents (h, this) Lt → represents (h, other) Lo →
  footprint this Lt ## footprint other Lo →
  ∃ h1, release h this = Some h1
    ∧ (∀ x, x ∈ footprint this Lt → h1 !! x = None)
    ∧ (∀ x, x ∉ footprint this Lt → h1 !! x = h !! x)
    ∧ move_assign_from h this other =
        Some ((SkipList_new (probability_ other) (maxAllowedLevel_ other)
                 (rng_ other) h1).1,
              other,
              (SkipList_new (probability_ other) (maxAllowedLevel_ other)
                 (rng_ other) h1).2)
    ∧ represents ((SkipList_new (probability_ other) (maxAllowedLevel_ other)
                     (rng_ other) h1).1, other) Lo.
Proof.
  intros HRt HRo Hdisj.
  destruct (release_spec h this Lt HRt) as (h1 & Hrel & Hin & Hout).
  exists h1. split_and!; [done..| |].
  - unfold move_assign_from. rewrite Hrel /=.
    destruct HRo as (hd & Hhd & _). simpl in Hhd.
    destruct other as [ho mo ao po ro]. simpl in *. rewrite Hhd. done.
  - assert (represents (h1, other) Lo) as HRo1.
    { destruct HRo as (hd & Hhd & HR). exists hd. split; [done|]. simpl in *.
      eapply Rep_frame; [done|]. intros x Hx. apply Hout. intros Hxt.
      apply (Hdisj x Hxt). by rewrite /footprint Hhd. }
    by apply move_construct_spec in HRo1 as [_ ?].
Qed.

(** *** Several lists in one heap *)

#[local] Arguments insert : simpl never.
#[local] Arguments erase : simpl never.
#[local] Arguments contains : simpl never.
#[local] Arguments iterate : simpl never.
#[local] Arguments SkipList_new : simpl never.
#[local] Arguments move_construct : simpl never.
#[local] Arguments move_assign_from : simpl never.

Lemma represents_allocated h sl L x :
  represents (h, sl) L → x ∈ footprint sl L → is_Some (h !! x).
Proof.
  intros (hd & Hhd & HR) Hx. simpl in *. rewrite /footprint Hhd /= in Hx.
  by eapply Rep_allocated.
Qed.

Lemma represents_frame h h' sl L :
  represents (h, sl) L →
  (∀ x, x ∈ footprint sl L → h' !! x = h !! x) →
  represents (h', sl) L.
Proof.
  intros (hd & Hhd & HR) Hfr. simpl in *. exists hd. split; [done|]. simpl.
  eapply Rep_frame; [done|]. intros x Hx. apply Hfr. by rewrite /footprint Hhd.
Qed.

(** One object changes, or comes into being, and keeps to its own nodes and
    to fresh ones. *)
Lemma world_wf_update (w : World Key Rng Real) Ls oid h' sl' L' (F : list addr) :
  world_wf_with w Ls →
  (∀ sl L, objs w !! oid = Some sl → Ls !! oid = Some L → F = footprint sl L) →
  (objs w !! oid = None → F = []) →
  represents (h', sl') L' →
  (∀ x, x ∉ F → is_Some (heap w !! x) → h' !! x = heap w !! x) →
  (∀ x, x ∈ footprint sl' L' → x ∈ F ∨ heap w !! x = None) →
  world_wf_with (mkWorld h' (<[oid := sl']> (objs w))) (<[oid := L']> Ls).
Proof.
  intros [Hrep Hdisj] HF HF0 HR' Hfr Hgrow.
  assert (Hsep : ∀ id2 sl2 L2, id2 ≠ oid → objs w !! id2 = Some sl2 →
            Ls !! id2 = Some L2 → ∀ x, x ∈ footprint sl2 L2 → x ∉ F).
  { intros id2 sl2 L2 Hne Ho2 Hl2 x Hx HxF.
    destruct (objs w !! oid) as [sl|] eqn:Ho; [|by rewrite HF0 in HxF; [apply elem_of_nil in HxF|]].
    destruct (Hrep oid sl Ho) as (L & HL & _).
    rewrite (HF sl L eq_refl HL) in HxF.
    by apply (Hdisj id2 oid sl2 sl L2 L Hne Ho2 Ho Hl2 HL x). }
  split; simpl.
  - intros id2 sl2. rewrite lookup_insert. case_decide as Hid.
    + subst id2. intros [= <-]. exists L'. by rewrite lookup_insert_eq.
    + intros Ho2. destruct (Hrep id2 sl2 Ho2) as (L2 & HL2 & HR2).
      exists L2. rewrite lookup_insert_ne //. split; [done|].
      eapply represents_frame; [done|]. intros x Hx. apply Hfr.
      * by eapply Hsep.
      * by eapply represents_allocated.
  - intros id1 id2 sl1 sl2 L1 L2 Hne Ho1 Ho2 Hl1 Hl2 x Hx1 Hx2.
    rewrite lookup_insert in Ho1. rewrite lookup_insert in Ho2.
    rewrite lookup_insert in Hl1. rewrite lookup_insert in Hl2.
    destruct (decide (oid = id1)) as [<-|Hn1], (decide (oid = id2)) as [<-|Hn2];
      simplify_eq.
    + destruct (Hrep id2 sl2) as (L2' & ? & HR2); [done|]. simplify_eq.
      destruct (Hgrow x Hx1) as [HxF|Hnone].
      * by eapply (Hsep id2).
      * destruct (represents_allocated _ _ _ x HR2 Hx2) as [? Hs]. congruence.
    + destruct (Hrep id1 sl1) as (L1' & ? & HR1); [done|]. simplify_eq.
      destruct (Hgrow x Hx2) as [HxF|Hnone].
      * by eapply (Hsep id1).
      * destruct (represents_allocated _ _ _ x HR1 Hx1) as [? Hs]. congruence.
    + by eapply (Hdisj id1 id2).
Qed.

(** A list is moved into the object [oid]; whatever [oid] held before has
    been released. *)
Lemma world_wf_move (w : World Key Rng Real) Ls oid other o Lo h1 (F : list addr) :
  world_wf_with w Ls →
  oid ≠ other →
  objs w !! other = Some o → Ls !! other = Some Lo →
  (∀ sl L, objs w !! oid = Some sl → Ls !! oid = Some L → F = footprint sl L) →
  (objs w !! oid = None → F = []) →
  (∀ x, x ∉ F → h1 !! x = heap w !! x) →
  world_wf_with
    (mkWorld (SkipList_new (probability_ o) (maxAllowedLevel_ o) (rng_ o) h1).1
       (<[oid := o]> (<[other := (SkipList_new (probability_ o) (maxAllowedLevel_ o)
                                    (rng_ o) h1).2]> (objs w))))
    (<[oid := Lo]> (<[other := []]> Ls)).
Proof.
  intros [Hrep Hdisj] Hne Ho HLo HF HF0 Hfr.
  assert (Hsep : ∀ id2 sl2 L2, id2 ≠ oid → objs w !! id2 = Some sl2 →
            Ls !! id2 = Some L2 → ∀ x, x ∈ footprint sl2 L2 → x ∉ F).
  { intros id2 sl2 L2 Hne2 Ho2 Hl2 x Hx HxF.
    destruct (objs w !! oid) as [sl|] eqn:Hid; [|by rewrite HF0 in HxF; [apply elem_of_nil in HxF|]].
    destruct (Hrep oid sl Hid) as (L & HL & _).
    rewrite (HF sl L eq_refl HL) in HxF.
    by apply (Hdisj id2 oid sl2 sl L2 L Hne2 Ho2 Hid Hl2 HL x). }
  assert (Hkeep : ∀ id2 sl2 L2, id2 ≠ oid → objs w !! id2 = Some sl2 →
            Ls !! id2 = Some L2 →
            represents (h1, sl2) L2 ∧ fresh (dom h1) ∉ footprint sl2 L2).
  { intros id2 sl2 L2 Hne2 Ho2 Hl2.
    destruct (Hrep id2 sl2 Ho2) as (L2' & ? & HR2). simplify_eq.
    assert (represents (h1, sl2) L2) as HR1.
    { eapply represents_frame; [done|]. intros x Hx. apply Hfr. by eapply Hsep. }
    split; [done|]. intros Hin.
    destruct (represents_allocated _ _ _ _ HR1 Hin) as [? Hs].
    apply elem_of_dom_2 in Hs. by apply is_fresh in Hs. }
  assert (Hnew : ∀ sl2 L2, represents (h1, sl2) L2 →
            represents ((SkipList_new (probability_ o) (maxAllowedLevel_ o) (rng_ o) h1).1,
                        sl2) L2).
  { intros sl2 L2 HR. eapply represents_frame; [done|]. intros x Hx.
    rewrite /SkipList_new /new_Node /= lookup_insert_ne //. intros <-.
    destruct (represents_allocated _ _ _ _ HR Hx) as [? Hs].
    apply elem_of_dom_2 in Hs. by apply is_fresh in Hs. }
  assert (Hfp : footprint (SkipList_new (probability_ o) (maxAllowedLevel_ o)
                             (rng_ o) h1).2 ([] : list (@entry Key))
                  = [fresh (dom h1)]) by done.
  split; simpl.
  - intros id2 sl2 Ho2. rewrite !lookup_insert in Ho2.
    destruct (decide (oid = id2)) as [<-|Hn2]; [|destruct (decide (other = id2)) as [<-|Hm2]];
      simplify_eq.
    + exists Lo. rewrite lookup_insert_eq. split; [done|].
      apply Hnew. by apply (Hkeep other).
    + exists []. rewrite lookup_insert_ne // lookup_insert_eq.
      split; [done|]. apply SkipList_new_spec.
    + destruct (Hrep id2 sl2 Ho2) as (L2 & HL2 & _).
      exists L2. rewrite !lookup_insert_ne //. split; [done|].
      apply Hnew. by apply (Hkeep id2).
  - intros id1 id2 sl1 sl2 L1 L2 Hne12 Ho1 Ho2 Hl1 Hl2 x Hx1 Hx2.
    assert (Hfresh : ∀ id3 sl3 L3, x ∈ footprint sl3 L3 → x ∈ [fresh (dom h1)] →
              objs w !! id3 = Some sl3 → Ls !! id3 = Some L3 → id3 ≠ oid → False).
    { intros id3 sl3 L3 Hin ->%list_elem_of_singleton ? ? ?.
      by destruct (Hkeep id3 sl3 L3). }
    assert (Hdisj' : ∀ ia ib sla slb La Lb, x ∈ footprint sla La → x ∈ footprint slb Lb →
              objs w !! ia = Some sla → Ls !! ia = Some La →
              objs w !! ib = Some slb → Ls !! ib = Some Lb → ia ≠ ib → False).
    { intros ia ib sla slb La Lb Hxa Hxb ? ? ? ? ?.
      by apply (Hdisj ia ib sla slb La Lb) with x. }
    rewrite !lookup_insert in Ho1. rewrite !lookup_insert in Ho2.
    rewrite !lookup_insert in Hl1. rewrite !lookup_insert in Hl2.
    destruct (decide (oid = id1)) as [E1|N1]; destruct (decide (oid = id2)) as [E2|N2];
      destruct (decide (other = id1)) as [F1|M1];
      destruct (decide (other = id2)) as [F2|M2];
      try congruence; simplify_eq; rewrite ?Hfp in Hx1, Hx2;
      first [ eapply (Hdisj' _ _ _ _ _ _ Hx1 Hx2); (eassumption || congruence)
            | eapply (Hfresh _ _ _ Hx1 Hx2); (eassumption || congruence)
            | eapply (Hfresh _ _ _ Hx2 Hx1); (eassumption || congruence) ].
Qed.

(** *** Every statement keeps the world well formed *)

Lemma footprint_cons (sl : SkipList Rng Real) hd L :
  head_ sl = Some hd → footprint sl L = hd :: (e_addr <$> L).
Proof. unfold footprint. by intros ->. Qed.

Lemma exec_ok (op : Op Key Rng Real) w w' :
  world_ok w → exec op w = Some w' → world_ok w'.
Proof.
  intros (Ls & Hwf & Hh) Hex. pose proof Hwf as [Hrep Hdisj].
  destruct op as [oid p m seed|oid k|oid k|oid other|oid other]; simpl in Hex.
  - (* New *)
    destruct (objs w !! oid) as [?|] eqn:Ho; [done|].
    injection Hex as <-. exists (<[oid := []]> Ls). split.
    + apply (world_wf_update w Ls oid _ _ [] []); try done.
      * intros sl L Ho'. by rewrite Ho in Ho'.
      * apply SkipList_new_spec.
      * intros x _ [nd Hx]. rewrite /= lookup_insert_ne //. intros <-.
        apply elem_of_dom_2 in Hx. by apply is_fresh in Hx.
      * intros x [->|[]%elem_of_nil]%elem_of_cons. right.
        apply not_elem_of_dom, is_fresh.
    + simpl. intros id2 sl2. rewrite lookup_insert. case_decide; [|by apply Hh].
      intros [= <-]. unfold height_inv. simpl. lia.
  - (* Insert *)
    destruct (objs w !! oid) as [sl|] eqn:Ho; simpl in Hex; [|done].
    destruct (Hrep oid sl Ho) as (L & HL & HR).
    destruct (insert_spec _ L k HR) as ([h' sl'] & Hins & Hcases).
    rewrite Hins /= in Hex. injection Hex as <-.
    destruct Hcases as [[_ [= -> ->]]|(_ & L1 & L2 & lvl & sl1 & -> & _ & _ & Hrl & Hsl' & HR' & Hdom & Hfr)].
    + exists (<[oid := L]> Ls). split.
      * apply (world_wf_update w Ls oid _ _ _ (footprint sl L)); try done.
        -- intros ?? Ho' HL'. by simplify_eq.
        -- intros Ho'. by rewrite Ho in Ho'.
        -- intros x Hx. by left.
      * simpl. intros id2 sl2. rewrite lookup_insert. case_decide; [|by apply Hh].
        intros [= <-]. by eapply Hh.
    + simpl in *. exists (<[oid := L1 ++ (fresh (dom (heap w)), k, lvl) :: L2]> Ls). split.
      * apply (world_wf_update w Ls oid _ _ _ (footprint sl (L1 ++ L2))); try done.
        -- intros ?? Ho' HL'. by simplify_eq.
        -- intros Ho'. by rewrite Ho in Ho'.
        -- intros x Hx [nd Hnd]. apply Hfr; [done|]. intros ->.
           apply elem_of_dom_2 in Hnd. by apply is_fresh in Hnd.
        -- intros x Hx. destruct HR as (hd & Hhd & _). simpl in Hhd.
           assert (head_ sl' = Some hd) as Hhd'.
           { destruct (randomLevel_spec sl) as (? & ? & Hrl' & _).
             rewrite Hrl' in Hrl. injection Hrl as <- <-. by rewrite Hsl'. }
           rewrite (footprint_cons _ _ _ Hhd') in Hx.
           rewrite (footprint_cons _ _ _ Hhd).
           rewrite fmap_app fmap_cons in Hx. rewrite fmap_app.
           assert (x = fresh (dom (heap w)) ∨ x ∈ hd :: (e_addr <$> L1) ++ (e_addr <$> L2))
             as [->|?] by set_solver; [right|by left].
           apply not_elem_of_dom, is_fresh.
      * simpl. intros id2 sl2. rewrite lookup_insert. case_decide; [|by apply Hh].
        intros [= <-]. specialize (Hh oid sl Ho).
        destruct (randomLevel_spec sl) as (lvl' & rng' & Hrl' & Hb1 & Hb2).
        rewrite Hrl' in Hrl. injection Hrl as <- <-. rewrite Hsl'.
        unfold height_inv in *. simpl in *. intros Hm. specialize (Hh Hm).
        destruct Hb2 as [->|?]; lia.
  - (* Erase *)
    destruct (objs w !! oid) as [sl|] eqn:Ho; simpl in Hex; [|done].
    destruct (Hrep oid sl Ho) as (L & HL & HR).
    destruct (erase_spec _ L k HR) as ([b [h' sl']] & Her & Hcases).
    rewrite Her /= in Hex. injection Hex as <-.
    destruct Hcases as [[_ [= -> -> ->]]|(_ & L1 & e & L2 & h'' & ml' & -> & _ & [= -> -> ->] & HR' & Hle & _ & Hdom & Hfr)].
    + exists (<[oid := L]> Ls). split.
      * apply (world_wf_update w Ls oid _ _ _ (footprint sl L)); try done.
        -- intros ?? Ho' HL'. by simplify_eq.
        -- intros Ho'. by rewrite Ho in Ho'.
        -- intros x Hx. by left.
      * simpl. intros id2 sl2. rewrite lookup_insert. case_decide; [|by apply Hh].
        intros [= <-]. by eapply Hh.
    + simpl in *. exists (<[oid := L1 ++ L2]> Ls). split.
      * apply (world_wf_update w Ls oid _ _ _ (footprint sl (L1 ++ e :: L2))); try done.
        -- intros ?? Ho' HL'. by simplify_eq.
        -- intros Ho'. by rewrite Ho in Ho'.
        -- intros x Hx _. by apply Hfr.
        -- intros x Hx. left. unfold footprint in *. simpl in *.
           rewrite fmap_app in Hx. rewrite fmap_app fmap_cons. set_solver.
      * simpl. intros id2 sl2. rewrite lookup_insert. case_decide; [|by apply Hh].
        intros [= <-]. specialize (Hh oid sl Ho).
        unfold height_inv in *. simpl in *. lia.
  - (* MoveConstruct *)
    destruct (objs w !! oid) as [?|] eqn:Ho; [done|].
    destruct (objs w !! other) as [o|] eqn:Hoo; simpl in Hex; [|done].
    destruct (Hrep other o Hoo) as (Lo & HLo & HRo).
    destruct (move_construct_spec _ _ _ HRo) as [Hmc _].
    rewrite Hmc in Hex. injection Hex as <-.
    exists (<[oid := Lo]> (<[other := []]> Ls)). split.
    + apply (world_wf_move w Ls oid other o Lo (heap w) []); try done.
      * intros ->. by rewrite Ho in Hoo.
      * intros sl L Ho'. by rewrite Ho in Ho'.
    + simpl. intros id2 sl2. rewrite !lookup_insert. repeat case_decide.
      * intros [= <-]. by eapply Hh.
      * intros [= <-]. unfold height_inv. simpl. lia.
      * by apply Hh.
  - (* MoveAssign *)
    destruct (objs w !! oid) as [this|] eqn:Ho; simpl in Hex; [|done].
    destruct (objs w !! other) as [o|] eqn:Hoo; simpl in Hex; [|done].
    case_decide as Hne; [injection Hex as <-; by exists Ls|].
    destruct (Hrep oid this Ho) as (Lt & HLt & HRt).
    destruct (Hrep other o Hoo) as (Lo & HLo & HRo).
    destruct (move_assign_from_spec _ _ _ _ _ HRt HRo) as (h1 & _ & _ & Hout & Hma & _).
    { by apply (Hdisj oid other this o Lt Lo). }
    rewrite Hma /= in Hex. injection Hex as <-.
    exists (<[oid := Lo]> (<[other := []]> Ls)). split.
    + apply (world_wf_move w Ls oid other o Lo h1 (footprint this Lt)); try done.
      * intros ?? Ho' HL'. by simplify_eq.
      * intros Ho'. by rewrite Ho in Ho'.
    + simpl. intros id2 sl2. rewrite !lookup_insert. repeat case_decide.
      * intros [= <-]. by eapply Hh.
      * intros [= <-]. unfold height_inv. simpl. lia.
      * by apply Hh.
Qed.

Lemma world_empty_ok : world_ok (Key := Key) (Rng := Rng) (Real := Real) world_empty.
Proof.
  exists ∅. split; [split|]; simpl.
  - intros id sl Hl. by rewrite lookup_empty in Hl.
  - intros id1 id2 sl1 sl2 L1 L2 _ Hl. by rewrite lookup_empty in Hl.
  - intros id sl Hl. by rewrite lookup_empty in Hl.
Qed.

Lemma exec_all_ok (ops : list (Op Key Rng Real)) w w' :
  world_ok w → exec_all ops w = Some w' → world_ok w'.
Proof.
  revert w. induction ops as [|op ops IH]; intros w Hok; simpl.
  - by intros [= <-].
  - destruct (exec op w) as [w1|] eqn:Hex; simpl; [|done].
    apply IH. by eapply exec_ok.
Qed.

Lemma world_ok_wf w oid sl :
  world_ok w → objs w !! oid = Some sl → wf (heap w, sl) ∧ height_inv sl.
Proof.
  intros (Ls & [Hrep _] & Hh) Ho. split; [|by eapply Hh].
  destruct (Hrep oid sl Ho) as (L & _ & HR). by exists L.
Qed.

(** *** Reading the levels off the heap *)

Lemma walk_spec h i cur c fuel :
  linked h i cur c → length c ≤ fuel → walk fuel h i (head c) = Some c.
Proof.
  revert cur fuel. induction c as [|a c IH]; intros cur fuel Hl Hf.
  - by destruct fuel.
  - destruct fuel as [|f]; [simpl in Hf; lia|].
    simpl in Hl. destruct Hl as [_ Hl]. simpl.
    rewrite (linked_next _ _ _ _ Hl) /=.
    rewrite (IH a) //. simpl in Hf. lia.
Qed.

Lemma chain_length i L : length (chain i L) ≤ length L.
Proof. rewrite /chain length_fmap. apply length_filter. Qed.

Lemma level_nodes_spec (st : gmap addr (Node Key) * SkipList Rng Real) L i :
  represents st L → i < maxLevel_ st.2 → level_nodes i st = Some (chain i L).
Proof.
  destruct st as [h sl]. intros (hd & Hhd & HR) Hi. simpl in *.
  rewrite /level_nodes /= Hhd /=.
  pose proof (rep_linked _ _ _ _ HR i Hi) as Hlk.
  rewrite (linked_next _ _ _ _ Hlk) /=.
  eapply walk_spec; [done|].
  pose proof (chain_length i L). apply Rep_fuel in HR. lia.
Qed.

Lemma keys_at_spec h (E : list (@entry Key)) :
  Forall (λ e, shape h (e_addr e) = Some (e_key e, e_lvl e)) E →
  keys_at h (e_addr <$> E) = Some (e_key <$> E).
Proof.
  intros HE. unfold keys_at. apply mapM_Some.
  apply Forall2_fmap. induction HE as [|e E He _ IH]; constructor; [|done].
  apply shape_key in He as (nd & -> & <-). done.
Qed.

Lemma level_keys_spec (st : gmap addr (Node Key) * SkipList Rng Real) L i :
  represents st L → keys_at st.1 (chain i L) = Some (level_keys i L).
Proof.
  intros (hd & _ & HR). apply keys_at_spec, Forall_filter_keep, (rep_nodes _ _ _ _ HR).
Qed.

Lemma StronglySorted_NoDup (ks : list Key) : StronglySorted key_lt ks → NoDup ks.
Proof.
  induction 1 as [|k ks _ IH Hk]; constructor; [|done].
  intros Hin. rewrite Forall_forall in Hk. by apply (irreflexivity key_lt k), Hk.
Qed.

Lemma level_keys_sorted i L :
  StronglySorted key_lt (e_key <$> L) → StronglySorted key_lt (level_keys i L).
Proof.
  unfold level_keys. induction L as [|e L IH]; intros Hs; [constructor|].
  rewrite fmap_cons in Hs. apply StronglySorted_inv in Hs as [Hs He].
  rewrite filter_cons. case_decide; [|by apply IH].
  rewrite fmap_cons. constructor; [by apply IH|].
  rewrite Forall_fmap. apply Forall_filter_keep. by rewrite Forall_fmap in He.
Qed.

Lemma wf_structural (st : gmap addr (Node Key) * SkipList Rng Real) :
  wf st → structural_invariants st.
Proof.
  intros [L HR]. pose proof HR as (hd & Hhd & HRep).
  pose proof (level_keys_sorted 0 L (rep_sorted _ _ _ _ HRep)) as Hs.
  split.
  - exists (chain 0 L), (level_keys 0 L). split_and!.
    + apply level_nodes_spec; [done|]. apply (rep_ml _ _ _ _ HRep).
    + by apply level_keys_spec.
    + done.
    + by apply StronglySorted_NoDup.
  - intros i Hi. exists (chain i L), (chain (i - 1) L). split_and!.
    + apply level_nodes_spec; [done|lia].
    + apply level_nodes_spec; [done|lia].
    + apply chain_mono_sublist. lia.
Qed.

(** *** The dump *)

Lemma print_level_spec h i cur (E : list (@entry Key)) fuel (os : list (Out Key Real)) :
  linked h i cur (e_addr <$> E) →
  Forall (λ e, shape h (e_addr e) = Some (e_key e, e_lvl e)) E →
  length E ≤ fuel →
  print_level fuel h i (head (e_addr <$> E)) os =
    Some (os ++ ((e_key <$> E) ≫= λ k, [OKey k; OChar " "])).
Proof.
  revert cur fuel os. induction E as [|e E IH]; intros cur fuel os Hl Hsh Hf.
  - destruct fuel; simpl; by rewrite app_nil_r.
  - destruct fuel as [|f]; [simpl in Hf; lia|].
    simpl in Hl. destruct Hl as [_ Hl].
    apply Forall_cons_1 in Hsh as [(nd & Hnd & Hk)%shape_key Hsh].
    pose proof (linked_next _ _ _ _ Hl) as Hn.
    rewrite /next_at Hnd /= in Hn.
    simpl. rewrite Hnd /= Hn /= Hk.
    rewrite (IH (e_addr e)) //; [|simpl in Hf; lia].
    by rewrite -app_assoc.
Qed.

Lemma print_levels_spec h hd ml L lvl (os : list (Out Key Real)) :
  Rep h hd ml L → lvl ≤ ml →
  print_levels h hd lvl os = Some (os ++ dump_levels lvl (λ i, level_keys i L)).
Proof.
  intros HR. revert os. induction lvl as [|i IH]; intros os Hl; simpl.
  - by rewrite app_nil_r.
  - pose proof (rep_linked _ _ _ _ HR i ltac:(lia)) as Hlk.
    rewrite (linked_next _ _ _ _ Hlk) /=.
    rewrite (print_level_spec h i hd (filter (λ e, i < e_lvl e) L)) //.
    + simpl. rewrite IH; last lia. f_equal. unfold level_line, level_keys.
      rewrite -!app_assoc. done.
    + apply Forall_filter_keep, (rep_nodes _ _ _ _ HR).
    + pose proof (length_filter (λ e : entry, i < e_lvl e) L).
      apply Rep_fuel in HR. lia.
Qed.

Lemma printByLevels_spec (st : gmap addr (Node Key) * SkipList Rng Real) L os :
  represents st L →
  printByLevels st os =
    Some (os ++ dump_header st.2 ++ dump_levels (maxLevel_ st.2) (λ i, level_keys i L)).
Proof.
  destruct st as [h sl]. intros (hd & Hhd & HR). simpl in *. rewrite Hhd.
  rewrite (print_levels_spec h hd (maxLevel_ sl) L) //.
  by rewrite -app_assoc.
Qed.

(** *** What randomLevel draws *)

Lemma randomLevel_loop_draws (sl : SkipList Rng Real) fuel level rng lvl rng' :
  randomLevel_loop fuel sl level rng = Some (lvl, rng') →
  ∃ n, lvl = level + n
    ∧ (draws (S n) rng).2 = rng'
    ∧ (∀ j d, j < n → (draws (S n) rng).1 !! j = Some d → promotes sl (level + j) d)
    ∧ (∀ d, (draws (S n) rng).1 !! n = Some d → ¬ promotes sl lvl d).
Proof.
  revert level rng. induction fuel as [|f IH]; intros level rng; simpl.
  - destruct (dist rng) as [d rng1] eqn:Hd.
    destruct (real_lt d (probability_ sl)
              && (Z.of_nat level <? maxAllowedLevel_ sl)%Z
              && (level <? maxLevel_ sl + 1)) eqn:Hc; [done|].
    intros [= <- <-]. exists 0. simpl. split_and!; [lia|done|intros; lia|].
    intros d' [= <-] (Hlt & Hm & Hl).
    rewrite Hlt /= in Hc.
    apply andb_false_iff in Hc as [Hc%Z.ltb_ge|Hc%Nat.ltb_ge]; lia.
  - destruct (dist rng) as [d rng1] eqn:Hd.
    destruct (real_lt d (probability_ sl)
              && (Z.of_nat level <? maxAllowedLevel_ sl)%Z
              && (level <? maxLevel_ sl + 1)) eqn:Hc.
    + intros (n & -> & Hr & Hpass & Hstop)%IH.
      exists (S n). destruct (draws (S n) rng1) as [ds r2] eqn:Hds. simpl in *.
      split_and!; [lia|done| |].
      * intros [|j] d' Hj; simpl.
        -- intros [= <-]. rewrite Nat.add_0_r.
           apply andb_true_iff in Hc as [[Hc1 Hc2%Z.ltb_lt]%andb_true_iff Hc3%Nat.ltb_lt].
           done.
        -- intros Hd'. replace (level + S j) with (S level + j) by lia.
           apply Hpass; [lia|done].
      * intros d' Hd'. simpl in Hd'.
        replace (level + S n) with (S level + n) by lia. by apply Hstop.
    + intros [= <- <-]. exists 0. simpl. split_and!; [lia|done|intros; lia|].
      intros d' [= <-] (Hlt & Hm & Hl).
      rewrite Hlt /= in Hc.
      apply andb_false_iff in Hc as [Hc%Z.ltb_ge|Hc%Nat.ltb_ge]; lia.
Qed.

(** *** Programs: every statement is defined and keeps the maxima *)

Lemma exec_defined (op : Op Key Rng Real) w :
  world_ok w → op_valid w op → is_Some (exec op w).
Proof.
  intros (Ls & [Hrep Hdisj] & _) Hv.
  destruct op as [oid p m seed|oid k|oid k|oid other|oid other]; simpl in *.
  - rewrite Hv. by destruct (SkipList_new p m seed (heap w)).
  - destruct Hv as [sl Ho]. rewrite Ho /=.
    destruct (Hrep oid sl Ho) as (L & _ & HR).
    destruct (insert_spec _ L k HR) as ([h' sl'] & -> & _). simpl. eauto.
  - destruct Hv as [sl Ho]. rewrite Ho /=.
    destruct (Hrep oid sl Ho) as (L & _ & HR).
    destruct (erase_spec _ L k HR) as ([b [h' sl']] & -> & _). simpl. eauto.
  - destruct Hv as [-> [o Ho]]. rewrite Ho /=.
    destruct (move_construct _ _) as [[??]?]. eauto.
  - destruct Hv as [[this Ht] [o Ho]]. rewrite Ht Ho /=.
    case_decide as Hne; [eauto|].
    destruct (Hrep oid this Ht) as (Lt & HLt & HRt).
    destruct (Hrep other o Ho) as (Lo & HLo & HRo).
    destruct (move_assign_from_spec _ _ _ _ _ HRt HRo) as (h1 & _ & _ & _ & -> & _).
    { by apply (Hdisj oid other this o Lt Lo). }
    simpl. eauto.
Qed.

Lemma wf_iterate_sorted (st : gmap addr (Node Key) * SkipList Rng Real) :
  wf st → ∃ ks, iterate st = Some ks ∧ StronglySorted key_lt ks ∧ NoDup ks.
Proof.
  intros [L HR]. exists (e_key <$> L). split; [by apply iterate_spec|].
  destruct HR as (hd & _ & HR). pose proof (rep_sorted _ _ _ _ HR) as Hs.
  split; [done|]. by apply StronglySorted_NoDup.
Qed.

Lemma exec_maxAllowed (op : Op Key Rng Real) w w' :
  world_ok w → exec op w = Some w' →
  (∀ id p m seed, op = New id p m seed → (1 ≤ m)%Z) →
  (∀ id sl, objs w !! id = Some sl → (1 ≤ maxAllowedLevel_ sl)%Z) →
  ∀ id sl, objs w' !! id = Some sl → (1 ≤ maxAllowedLevel_ sl)%Z.
Proof.
  intros (Ls & [Hrep Hdisj] & _) Hex Hnew Hall.
  destruct op as [oid p m seed|oid k|oid k|oid other|oid other]; simpl in Hex.
  - destruct (objs w !! oid) as [?|] eqn:Ho; [done|].
    injection Hex as <-. simpl. intros id2 sl2. rewrite lookup_insert.
    case_decide; [|by apply Hall]. intros [= <-]. simpl. by eapply Hnew.
  - destruct (objs w !! oid) as [sl|] eqn:Ho; simpl in Hex; [|done].
    destruct (Hrep oid sl Ho) as (L & HL & HR).
    destruct (insert_spec _ L k HR) as ([h' sl'] & Hins & Hcases).
    rewrite Hins /= in Hex. injection Hex as <-. simpl.
    intros id2 sl2. rewrite lookup_insert. case_decide; [|by apply Hall].
    intros [= <-].
    destruct Hcases as [[_ [= -> ->]]|(_ & L1 & L2 & lvl & sl1 & _ & _ & _ & Hrl & Hsl' & _)].
    + by eapply Hall.
    + destruct (randomLevel_spec sl) as (lvl' & rng' & Hrl' & _).
      simpl in *. rewrite Hrl' in Hrl. injection Hrl as <- <-. rewrite Hsl' /=.
      by eapply Hall.
  - destruct (objs w !! oid) as [sl|] eqn:Ho; simpl in Hex; [|done].
    destruct (Hrep oid sl Ho) as (L & HL & HR).
    destruct (erase_spec _ L k HR) as ([b [h' sl']] & Her & Hcases).
    rewrite Her /= in Hex. injection Hex as <-. simpl.
    intros id2 sl2. rewrite lookup_insert. case_decide; [|by apply Hall].
    intros [= <-].
    destruct Hcases as [[_ [= -> -> ->]]|(_ & L1 & e & L2 & h'' & ml' & _ & _ & [= -> -> ->] & _)].
    + by eapply Hall.
    + simpl. by eapply Hall.
  - destruct (objs w !! oid) as [?|] eqn:Ho; [done|].
    destruct (objs w !! other) as [o|] eqn:Hoo; simpl in Hex; [|done].
    destruct (Hrep other o Hoo) as (Lo & HLo & HRo).
    destruct (move_construct_spec _ _ _ HRo) as [Hmc _].
    rewrite Hmc in Hex. injection Hex as <-. simpl.
    intros id2 sl2. rewrite !lookup_insert. repeat case_decide.
    + intros [= <-]. by eapply Hall.
    + intros [= <-]. simpl. by eapply Hall.
    + by apply Hall.
  - destruct (objs w !! oid) as [this|] eqn:Ho; simpl in Hex; [|done].
    destruct (objs w !! other) as [o|] eqn:Hoo; simpl in Hex; [|done].
    case_decide as Hne; [injection Hex as <-; done|].
    destruct (Hrep oid this Ho) as (Lt & HLt & HRt).
    destruct (Hrep other o Hoo) as (Lo & HLo & HRo).
    destruct (move_assign_from_spec _ _ _ _ _ HRt HRo) as (h1 & _ & _ & _ & Hma & _).
    { by apply (Hdisj oid other this o Lt Lo). }
    rewrite Hma /= in Hex. injection Hex as <-. simpl.
    intros id2 sl2. rewrite !lookup_insert. repeat case_decide.
    + intros [= <-]. by eapply Hall.
    + intros [= <-]. simpl. by eapply Hall.
    + by apply Hall.
Qed.

Lemma exec_all_maxAllowed (ops : list (Op Key Rng Real)) w w' :
  world_ok w → exec_all ops w = Some w' →
  (∀ id p m seed, New id p m seed ∈ ops → (1 ≤ m)%Z) →
  (∀ id sl, objs w !! id = Some sl → (1 ≤ maxAllowedLevel_ sl)%Z) →
  ∀ id sl, objs w' !! id = Some sl → (1 ≤ maxAllowedLevel_ sl)%Z.
Proof.
  revert w. induction ops as [|op ops IH]; intros w Hok Hex Hnew Hall; simpl in Hex.
  - by injection Hex as <-.
  - destruct (exec op w) as [w1|] eqn:Hop; simpl in Hex; [|done].
    apply (IH w1); [by eapply exec_ok|done| |].
    + intros ???? Hin. eapply Hnew. by right.
    + eapply exec_maxAllowed; [done..| |done].
      intros ???? ->. eapply Hnew. by left.
Qed.

Lemma moved_intro (w : World Key Rng Real) Ls oid other o Lo h1 :
  world_wf_with w Ls → oid ≠ other →
  objs w !! other = Some o → Ls !! other = Some Lo →
  represents ((SkipList_new (probability_ o) (maxAllowedLevel_ o) (rng_ o) h1).1, o) Lo →
  moved w
    (mkWorld (SkipList_new (probability_ o) (maxAllowedLevel_ o) (rng_ o) h1).1
       (<[oid := o]> (<[other := (SkipList_new (probability_ o) (maxAllowedLevel_ o)
                                     (rng_ o) h1).2]> (objs w))))
    oid other o.
Proof.
  intros [Hrep _] Hne Ho HLo HR'.
  destruct (Hrep other o Ho) as (Lo' & ? & HRo). simplify_eq.
  exists (e_key <$> Lo), h1, (SkipList_new (probability_ o) (maxAllowedLevel_ o) (rng_ o) h1).2.
  simpl. split_and!.
  - by apply iterate_spec.
  - by rewrite lookup_insert_eq.
  - by apply iterate_spec.
  - by rewrite lookup_insert_ne // lookup_insert_eq.
  - symmetry. apply surjective_pairing.
  - done.
  - apply (iterate_spec _ []).
    pose proof (SkipList_new_spec (probability_ o) (maxAllowedLevel_ o) (rng_ o) h1) as HS.
    by rewrite (surjective_pairing (SkipList_new _ _ _ h1)) in HS.
Qed.

(** *** What a run leaves of the heap it started in *)

Lemma randomLevel_fields (sl sl1 : SkipList Rng Real) lvl :
  randomLevel sl = Some (lvl, sl1) →
  head_ sl1 = head_ sl ∧ maxLevel_ sl1 = maxLevel_ sl
  ∧ maxAllowedLevel_ sl1 = maxAllowedLevel_ sl ∧ probability_ sl1 = probability_ sl
  ∧ 1 ≤ lvl ≤ maxLevel_ sl + 1.
Proof.
  destruct (randomLevel_spec sl) as (l & r & Hrl & Hb & _).
  rewrite Hrl. by intros [= <- <-].
Qed.

Lemma fresh_not_footprint (st : gmap addr (Node Key) * SkipList Rng Real) L :
  represents st L → fresh (dom st.1) ∉ footprint st.2 L.
Proof.
  destruct st as [h sl]. intros HR Hx.
  apply (represents_allocated _ _ _ _ HR) in Hx.
  apply elem_of_dom in Hx. by apply is_fresh in Hx.
Qed.

Lemma insert_owned h0 (st : gmap addr (Node Key) * SkipList Rng Real) L k :
  owned_over h0 st L → ∃ st' L', insert k st = Some st' ∧ owned_over h0 st' L'.
Proof.
  intros (HR & Hin & Hout).
  destruct (insert_spec st L k HR) as (st' & Hins & [[_ ->]|(Hk & L1 & L2 & lvl & sl1
    & -> & _ & _ & Hrl & Hsl' & HR' & Hdom & Hfr)]).
  - by exists st, L.
  - exists st', (L1 ++ (fresh (dom st.1), k, lvl) :: L2). split; [done|]. split; [done|].
    pose proof (fresh_not_footprint _ _ HR) as Hfresh.
    destruct HR as (hd & Hhd & HRep).
    apply randomLevel_fields in Hrl as (Hh1 & _).
    assert (head_ st'.2 = Some hd) as Hhd' by (by rewrite Hsl' /= Hh1).
    rewrite (footprint_cons _ _ _ Hhd').
    rewrite (footprint_cons _ _ _ Hhd) in Hin, Hout, Hfr, Hfresh.
    rewrite fmap_app in Hin, Hout, Hfr, Hfresh.
    split.
    + intros x Hx. rewrite fmap_app fmap_cons /= in Hx.
      destruct (decide (x = fresh (dom st.1))) as [->|Hne].
      * rewrite -Hout //. apply not_elem_of_dom, is_fresh.
      * apply Hin. set_solver.
    + intros x Hx. rewrite fmap_app fmap_cons /= in Hx. rewrite Hfr.
      * apply Hout. set_solver.
      * set_solver.
      * set_solver.
Qed.

Lemma erase_owned h0 (st : gmap addr (Node Key) * SkipList Rng Real) L k :
  owned_over h0 st L → ∃ r L', erase k st = Some r ∧ owned_over h0 r.2 L'.
Proof.
  intros (HR & Hin & Hout).
  destruct (erase_spec st L k HR) as (r & Her & [[_ ->]|(Hk & L1 & e & L2 & h' & ml'
    & -> & _ & -> & HR' & _ & _ & Hdom & Hfr)]).
  - by exists (false, st), L.
  - eexists _, (L1 ++ L2). split; [done|]. split; [done|]. simpl in *.
    destruct HR as (hd & Hhd & HRep).
    rewrite /footprint /= Hhd /=. rewrite /footprint /= Hhd /= in Hin, Hout, Hfr.
    rewrite fmap_app. rewrite fmap_app fmap_cons in Hin, Hout, Hfr.
    split.
    + intros x Hx. apply Hin. set_solver.
    + intros x Hx. destruct (decide (x = e_addr e)) as [->|Hne].
      * rewrite Hin; [|set_solver]. apply not_elem_of_dom. rewrite Hdom. set_solver.
      * rewrite Hfr; [apply Hout|]; set_solver.
Qed.

Lemma SkipList_new_owned (p : Real) (m : Z) (seed : Rng) h0 :
  owned_over h0 (SkipList_new p m seed h0) [].
Proof.
  split; [apply SkipList_new_spec|]. unfold SkipList_new, new_Node, footprint. simpl.
  split.
  - intros x ->%list_elem_of_singleton. apply not_elem_of_dom, is_fresh.
  - intros x Hx. rewrite lookup_insert_ne //. set_solver.
Qed.

Lemma run_owned h0 cs (st : gmap addr (Node Key) * SkipList Rng Real) L :
  owned_over h0 st L → ∃ st' L', run cs st = Some st' ∧ owned_over h0 st' L'.
Proof.
  revert st L. induction cs as [|c cs IH]; intros st L Hown; simpl.
  - by exists st, L.
  - destruct c as [k|k]; simpl.
    + destruct (insert_owned _ _ _ k Hown) as (st1 & L1 & -> & Hown1). simpl.
      by apply (IH _ L1).
    + destruct (erase_owned _ _ _ k Hown) as (r & L1 & -> & Hown1). simpl.
      by apply (IH _ L1).
Qed.

Lemma destroy_owned h0 (st : gmap addr (Node Key) * SkipList Rng Real) L :
  owned_over h0 st L → destroy st = Some h0.
Proof.
  destruct st as [h sl]. intros (HR & Hin & Hout). unfold destroy. simpl in *.
  destruct (release_spec _ _ _ HR) as (h' & -> & Hin' & Hout'). f_equal.
  apply map_eq. intros x. destruct (decide (x ∈ footprint sl L)).
  - by rewrite Hin' // Hin.
  - by rewrite Hout' // Hout.
Qed.

(** *** Sorted key sequences *)

Lemma sorted_keys_unique (ks1 ks2 : list Key) :
  StronglySorted key_lt ks1 → StronglySorted key_lt ks2 →
  (∀ k, k ∈ ks1 ↔ k ∈ ks2) → ks1 = ks2.
Proof.
  intros S1 S2 Heq.
  apply (StronglySorted_unique_strong key_lt); [|done..|].
  - intros x y _ _ Hxy Hyx. destruct (irreflexivity key_lt x). by transitivity y.
  - apply NoDup_Permutation; [by apply StronglySorted_NoDup..|done].
Qed.

Lemma represents_sorted (st : gmap addr (Node Key) * SkipList Rng Real) L :
  represents st L → StronglySorted key_lt (e_key <$> L).
Proof. intros (hd & _ & HRep). apply (rep_sorted _ _ _ _ HRep). Qed.

Lemma iterate_unique (st st' : gmap addr (Node Key) * SkipList Rng Real) L L' :
  represents st L → represents st' L' →
  (∀ k, k ∈ e_key <$> L ↔ k ∈ e_key <$> L') → iterate st = iterate st'.
Proof.
  intros HR HR' Heq. rewrite (iterate_spec _ _ HR) (iterate_spec _ _ HR'). f_equal.
  apply sorted_keys_unique; [by eapply represents_sorted..|done].
Qed.

Lemma entry_by_key (L : list (@entry Key)) e e' :
  NoDup (e_key <$> L) → e ∈ L → e' ∈ L → e_key e = e_key e' → e = e'.
Proof.
  induction L as [|x L IH]; [by intros _ []%elem_of_nil|].
  rewrite fmap_cons. intros [Hx HL]%NoDup_cons [->|He]%elem_of_cons [->|He']%elem_of_cons Hk.
  - done.
  - destruct Hx. rewrite Hk. by apply list_elem_of_fmap_2.
  - destruct Hx. rewrite -Hk. by apply list_elem_of_fmap_2.
  - by apply IH.
Qed.

(** *** The members that [insert] and [erase] leave alone *)

Lemma insert_fields (st st' : gmap addr (Node Key) * SkipList Rng Real) L k :
  represents st L → insert k st = Some st' →
  head_ st'.2 = head_ st.2 ∧ maxAllowedLevel_ st'.2 = maxAllowedLevel_ st.2
  ∧ probability_ st'.2 = probability_ st.2
  ∧ maxLevel_ st.2 ≤ maxLevel_ st'.2 ≤ maxLevel_ st.2 + 1.
Proof.
  intros HR Hins. destruct (insert_spec st L k HR) as (st1 & Hins1 & Hc).
  rewrite Hins in Hins1. injection Hins1 as <-.
  destruct Hc as [[_ ->]|(_ & L1 & L2 & lvl & sl1 & _ & _ & _ & Hrl & -> & _)].
  - split_and!; (done || lia).
  - apply randomLevel_fields in Hrl as (-> & -> & -> & -> & Hb). simpl.
    split_and!; (done || lia).
Qed.

Lemma erase_fields (st : gmap addr (Node Key) * SkipList Rng Real) L k r :
  represents st L → erase k st = Some r →
  head_ r.2.2 = head_ st.2 ∧ maxAllowedLevel_ r.2.2 = maxAllowedLevel_ st.2
  ∧ probability_ r.2.2 = probability_ st.2 ∧ rng_ r.2.2 = rng_ st.2
  ∧ 1 ≤ maxLevel_ r.2.2 ≤ maxLevel_ st.2.
Proof.
  intros HR Her. destruct (erase_spec st L k HR) as (r1 & Her1 & Hc).
  rewrite Her in Her1. injection Her1 as <-.
  destruct HR as (hd & _ & HRep). pose proof (rep_ml _ _ _ _ HRep).
  destruct Hc as [[_ ->]|(_ & L1 & e & L2 & h' & ml' & _ & _ & -> & HR' & Hle & _)]; simpl.
  - split_and!; (done || lia).
  - destruct HR' as (hd' & _ & HRep'). pose proof (rep_ml _ _ _ _ HRep'). simpl in *.
    split_and!; (done || lia).
Qed.

(** *** The height is the height of the tallest node *)

Lemma insert_tight (st : gmap addr (Node Key) * SkipList Rng Real) L k :
  represents st L → tight (maxLevel_ st.2) L →
  ∃ st' L', insert k st = Some st' ∧ represents st' L' ∧ tight (maxLevel_ st'.2) L'.
Proof.
  intros HR Ht.
  destruct (insert_spec st L k HR) as (st' & Hins & [[_ ->]|(Hk & L1 & L2 & lvl & sl1
    & -> & _ & _ & Hrl & Hsl' & HR' & _)]).
  - by exists st, L.
  - exists st', (L1 ++ (fresh (dom st.1), k, lvl) :: L2). split; [done|]. split; [done|].
    apply randomLevel_fields in Hrl as (_ & Hml & _ & _ & Hb).
    rewrite Hsl' /= Hml.
    destruct (decide (maxLevel_ st.2 < lvl)) as [Hlt|Hge].
    + right. exists (fresh (dom st.1), k, lvl). split; [set_solver|]. unfold e_lvl. simpl. lia.
    + replace (maxLevel_ st.2 `max` lvl) with (maxLevel_ st.2) by lia.
      destruct Ht as [Ht|(e & He & Hl)]; [by left|right].
      exists e. split; [set_solver|done].
Qed.

Lemma erase_tight (st : gmap addr (Node Key) * SkipList Rng Real) L k :
  represents st L → tight (maxLevel_ st.2) L →
  ∃ r L', erase k st = Some r ∧ represents r.2 L' ∧ tight (maxLevel_ r.2.2) L'.
Proof.
  intros HR Ht.
  destruct (erase_spec st L k HR) as (r & Her & [[_ ->]|(Hk & L1 & e & L2 & h' & ml'
    & -> & _ & -> & HR' & _ & Htop & _)]).
  - by exists (false, st), L.
  - eexists _, (L1 ++ L2). split; [done|]. split; [done|]. simpl in *.
    destruct Htop as [->|(hd & b & Hhd & Hnx)]; [by left|right].
    destruct HR' as (hd' & Hhd' & HRep'). simpl in *.
    assert (hd' = hd) as -> by congruence.
    pose proof (rep_ml _ _ _ _ HRep') as Hml.
    pose proof (rep_linked _ _ _ _ HRep' (ml' - 1)) as Hlk.
    destruct (chain (ml' - 1) (L1 ++ L2)) as [|a c] eqn:Hc.
    { simpl in Hlk. rewrite Hlk in Hnx; [done|lia]. }
    assert (a ∈ chain (ml' - 1) (L1 ++ L2)) as Ha by (rewrite Hc; left).
    unfold chain in Ha. apply list_elem_of_fmap in Ha as (e' & _ & He').
    apply list_elem_of_filter in He' as [Hl He'].
    exists e'. split; [done|].
    pose proof (rep_lvl _ _ _ _ HRep') as Hlv. rewrite Forall_forall in Hlv.
    specialize (Hlv e' He'). simpl in Hlv. lia.
Qed.

Lemma run_tight cs (st : gmap addr (Node Key) * SkipList Rng Real) L :
  represents st L → tight (maxLevel_ st.2) L →
  ∃ st' L', run cs st = Some st' ∧ represents st' L' ∧ tight (maxLevel_ st'.2) L'.
Proof.
  revert st L. induction cs as [|c cs IH]; intros st L HR Ht; simpl.
  - by exists st, L.
  - destruct c as [k|k]; simpl.
    + destruct (insert_tight _ _ k HR Ht) as (st1 & L1 & -> & HR1 & Ht1). simpl.
      by apply (IH _ L1).
    + destruct (erase_tight _ _ k HR Ht) as (r & L1 & -> & HR1 & Ht1). simpl.
      by apply (IH _ L1).
Qed.

(** *** Iterator positions *)

Lemma incr_n_linked h cur c j :
  linked h 0 cur c →
  incr_n j h (head c) = if decide (j ≤ length c) then Some (c !! j) else None.
Proof.
  revert cur c. induction j as [|j IH]; intros cur c Hlk.
  - destruct (decide (0 ≤ length c)); [|lia]. by rewrite /= head_lookup.
  - destruct c as [|a c].
    + by destruct (decide (S j ≤ length (@nil addr))); [simpl in *; lia|].
    + destruct Hlk as [_ Hlk]. cbn [incr_n head incr mbind option_bind].
      rewrite (linked_next _ _ _ _ Hlk). cbn [mbind option_bind].
      rewrite (IH a c Hlk).
      destruct (decide (j ≤ length c)), (decide (S j ≤ length (a :: c)));
        simpl in *; (done || lia).
Qed.

Lemma represents_level0 (st : gmap addr (Node Key) * SkipList Rng Real) L :
  represents st L → ∃ hd, head_ st.2 = Some hd ∧ linked st.1 0 hd (e_addr <$> L).
Proof.
  intros (hd & Hhd & HRep). exists hd. split; [done|].
  pose proof (rep_linked _ _ _ _ HRep 0 (rep_ml _ _ _ _ HRep)) as Hlk.
  rewrite chain_0 in Hlk; [done|].
  eapply Forall_impl; [apply (rep_lvl _ _ _ _ HRep)|]. simpl. lia.
Qed.

Lemma begin_spec (st : gmap addr (Node Key) * SkipList Rng Real) L :
  represents st L → begin st = Some (head (e_addr <$> L)).
Proof.
  intros (hd & Hhd & Hlk)%represents_level0. unfold begin. rewrite Hhd /=.
  by apply linked_next.
Qed.

Lemma iter_at_spec (st : gmap addr (Node Key) * SkipList Rng Real) L j :
  represents st L →
  iter_at j st = if decide (j ≤ length L) then Some (e_addr <$> L !! j) else None.
Proof.
  intros HR. unfold iter_at. rewrite (begin_spec _ _ HR) /=.
  apply represents_level0 in HR as (hd & Hhd & Hlk).
  rewrite (incr_n_linked _ _ _ _ Hlk) length_fmap list_lookup_fmap. done.
Qed.

Lemma deref_entry (st : gmap addr (Node Key) * SkipList Rng Real) L e :
  represents st L → e ∈ L → deref st.1 (Some (e_addr e)) = Some (e_key e).
Proof.
  intros (hd & _ & HRep) He.
  pose proof (rep_nodes _ _ _ _ HRep) as Hn. rewrite Forall_forall in Hn.
  specialize (Hn e He). unfold shape in Hn. unfold deref. simpl.
  destruct (st.1 !! e_addr e) as [nd|]; simpl in *; [|done]. by injection Hn as -> _.
Qed.

Lemma incr_n_S j h it :
  incr_n (S j) h it = incr_n j h it ≫= incr h.
Proof.
  revert it. induction j as [|j IH]; intros it.
  - simpl. by destruct (incr h it).
  - change (incr_n (S (S j)) h it) with (incr h it ≫= incr_n (S j) h).
    change (incr_n (S j) h it) with (incr h it ≫= incr_n j h).
    destruct (incr h it) as [it'|]; simpl; [|done]. apply IH.
Qed.

Lemma incr_entry (st : gmap addr (Node Key) * SkipList Rng Real) L j e :
  represents st L → L !! j = Some e →
  incr st.1 (Some (e_addr e)) = Some (e_addr <$> L !! S j).
Proof.
  intros HR He.
  pose proof (iter_at_spec st L (S j) HR) as HS.
  pose proof (iter_at_spec st L j HR) as Hj.
  apply lookup_lt_Some in He as Hlt.
  rewrite decide_True in HS; last lia. rewrite decide_True in Hj; last lia.
  rewrite He /= in Hj. unfold iter_at in *.
  destruct (begin st) as [it|]; [|done].
  change (incr_n (S j) st.1 it = Some (e_addr <$> L !! S j)) in HS.
  change (incr_n j st.1 it = Some (Some (e_addr e))) in Hj.
  by rewrite incr_n_S Hj in HS.
Qed.

Lemma positions_lookup (L : list (@entry Key)) j :
  ((Some <$> (e_addr <$> L)) ++ [None]) !! j
  = if decide (j ≤ length L) then Some (e_addr <$> L !! j) else None.
Proof.
  destruct (decide (j ≤ length L)) as [Hle|Hgt].
  - destruct (decide (j < length L)) as [Hlt|Hge].
    + rewrite lookup_app_l; last by rewrite !length_fmap.
      destruct (lookup_lt_is_Some_2 L j Hlt) as [e He].
      by rewrite !list_lookup_fmap He.
    + assert (j = length L) as -> by lia.
      rewrite lookup_app_r; last by rewrite !length_fmap.
      rewrite !length_fmap Nat.sub_diag /=. by rewrite lookup_ge_None_2.
  - apply lookup_ge_None_2. rewrite length_app !length_fmap /=. lia.
Qed.

Lemma dereferenceable_spec (st : gmap addr (Node Key) * SkipList Rng Real) L it :
  represents st L →
  dereferenceable st it ↔ ∃ e, e ∈ L ∧ it = Some (e_addr e).
Proof.
  intros HR. unfold dereferenceable, end_. split.
  - intros (Hne & j & Hj). rewrite (iter_at_spec _ _ _ HR) in Hj.
    case_decide; [|done]. injection Hj as <-.
    destruct (L !! j) as [e|] eqn:He; [|done].
    exists e. split; [by eapply list_elem_of_lookup_2|done].
  - intros (e & [j Hj]%list_elem_of_lookup_1 & ->). split; [done|]. exists j.
    rewrite (iter_at_spec _ _ _ HR). apply lookup_lt_Some in Hj as Hlt.
    rewrite decide_True; last lia. by rewrite Hj.
Qed.

(** *** A sentinel of any height *)

Lemma Rep_sentinel h a ml :
  1 ≤ ml → h !! a = Some (mkNode key_default (replicate ml None)) → Rep h a ml [].
Proof.
  intros Hml Ha. split; try done.
  - unfold shape. by rewrite Ha /= length_replicate.
  - simpl. apply NoDup_singleton.
  - constructor.
  - intros i Hi. simpl. unfold next_at. rewrite Ha /=.
    by apply lookup_replicate_2.
Qed.

(** *** Level generation at the ends of the probability range *)

Lemma randomLevel_loop_certain (sl : SkipList Rng Real) fuel level rng :
  Forall (λ d, real_lt d (probability_ sl) = true) (draws (S fuel) rng).1 →
  maxLevel_ sl + 1 ≤ level + fuel →
  ∃ lvl rng', randomLevel_loop fuel sl level rng = Some (lvl, rng')
    ∧ Z.of_nat lvl = (Z.of_nat level `max`
                       (maxAllowedLevel_ sl `min` (Z.of_nat (maxLevel_ sl) + 1)))%Z.
Proof.
  revert level rng. induction fuel as [|f IH]; intros level rng.
  - simpl. destruct (dist rng) as [d rng1]. simpl. intros [Hd _]%Forall_cons Hf.
    rewrite Hd /=.
    replace (level <? maxLevel_ sl + 1) with false by (symmetry; apply Nat.ltb_ge; lia).
    rewrite andb_false_r. exists level, rng1. split; [done|]. lia.
  - intros Hall Hf.
    change (draws (S (S f)) rng)
      with (let '(d, rng') := dist rng in
            let '(ds, rng'') := draws (S f) rng' in (d :: ds, rng'')) in Hall.
    simpl. destruct (dist rng) as [d rng1].
    destruct (draws (S f) rng1) as [ds rng2] eqn:Hds.
    apply Forall_cons in Hall as [Hd Hrest]. rewrite Hd /=.
    destruct (Z.of_nat level <? maxAllowedLevel_ sl)%Z eqn:Hm; simpl.
    + destruct (level <? maxLevel_ sl + 1) eqn:Hl.
      * apply Z.ltb_lt in Hm. apply Nat.ltb_lt in Hl.
        destruct (IH (S level) rng1) as (lvl & rng' & Hloop & Hlvl).
        { by rewrite Hds. }
        { lia. }
        exists lvl, rng'. split; [done|]. lia.
      * apply Nat.ltb_ge in Hl. exists level, rng1. split; [done|]. lia.
    + apply Z.ltb_ge in Hm. exists level, rng1. split; [done|]. lia.
Qed.

Lemma randomLevel_flat (sl : SkipList Rng Real) :
  (maxAllowedLevel_ sl ≤ 1)%Z →
  ∃ rng', randomLevel sl = Some (1, mkSkipList (head_ sl) (maxLevel_ sl)
            (maxAllowedLevel_ sl) (probability_ sl) rng').
Proof.
  intros Hm. unfold randomLevel.
  assert (∀ fuel, randomLevel_loop fuel sl 1 (rng_ sl) = Some (1, (dist (rng_ sl)).2)) as ->.
  { intros fuel.
    assert ((Z.of_nat 1 <? maxAllowedLevel_ sl)%Z = false) as Hc by (apply Z.ltb_ge; lia).
    destruct fuel; cbn [randomLevel_loop]; destruct (dist (rng_ sl)) as [d r];
      by rewrite Hc andb_false_r. }
  simpl. by eexists.
Qed.

Lemma insert_flat (st : gmap addr (Node Key) * SkipList Rng Real) L k :
  represents st L → maxLevel_ st.2 = 1 → (maxAllowedLevel_ st.2 ≤ 1)%Z →
  ∃ st' L', insert k st = Some st' ∧ represents st' L'
    ∧ maxLevel_ st'.2 = 1 ∧ (maxAllowedLevel_ st'.2 ≤ 1)%Z.
Proof.
  intros HR Hml Hm.
  destruct (insert_spec st L k HR) as (st' & Hins & Hc).
  destruct (insert_fields _ _ _ _ HR Hins) as (_ & Hm' & _ & _).
  destruct Hc as [[_ ->]|(_ & L1 & L2 & lvl & sl1 & _ & _ & _ & Hrl & Hsl' & HR' & _)].
  - by exists st, L.
  - exists st'. eexists. split; [done|]. split; [done|]. split; [|lia].
    destruct (randomLevel_flat st.2 Hm) as (rng' & Hrl'). rewrite Hrl' in Hrl.
    injection Hrl as <- <-. rewrite Hsl' /=. lia.
Qed.

Lemma run_flat cs (st : gmap addr (Node Key) * SkipList Rng Real) L :
  represents st L → maxLevel_ st.2 = 1 → (maxAllowedLevel_ st.2 ≤ 1)%Z →
  ∃ st' L', run cs st = Some st' ∧ represents st' L' ∧ maxLevel_ st'.2 = 1.
Proof.
  revert st L. induction cs as [|c cs IH]; intros st L HR Hml Hm; simpl.
  - by exists st, L.
  - destruct c as [k|k]; simpl.
    + destruct (insert_flat _ _ k HR Hml Hm) as (st1 & L1 & -> & HR1 & Hml1 & Hm1). simpl.
      by apply (IH _ L1).
    + destruct (erase_keys _ _ k HR) as (r & L1 & Her & HR1 & _).
      destruct (erase_fields _ _ _ _ HR Her) as (_ & Hm1 & _ & _ & Hml1).
      rewrite Her /=. apply (IH _ L1); [done|lia|lia].
Qed.

(** *** One statement, cell by cell *)

Lemma SkipList_new_heap (p : Real) (m : Z) (seed : Rng) (h : gmap addr (Node Key)) :
  (SkipList_new p m seed h).1 = <[fresh (dom h) := mkNode key_default [None]]> h
  ∧ head_ (SkipList_new p m seed h).2 = Some (fresh (dom h)).
Proof. done. Qed.

Lemma allocated_not_fresh (h : gmap addr (Node Key)) x :
  is_Some (h !! x) → x ≠ fresh (dom h).
Proof. intros Hx ->. apply elem_of_dom in Hx. by apply is_fresh in Hx. Qed.

Lemma world_owner_allocated (w : World Key Rng Real) Ls oid sl L x :
  world_wf_with w Ls → objs w !! oid = Some sl → Ls !! oid = Some L →
  x ∈ footprint sl L → is_Some (heap w !! x).
Proof.
  intros [Hrep _] Ho HL Hx. destruct (Hrep oid sl Ho) as (L' & HL' & HR).
  assert (L' = L) as -> by congruence. by eapply represents_allocated.
Qed.

Lemma exec_step (op : Op Key Rng Real) w w' Ls :
  world_wf_with w Ls → exec op w = Some w' →
  ∃ Ls', world_wf_with w' Ls'
    ∧ (∀ oid, oid ∉ op_objs op →
         Ls' !! oid = Ls !! oid ∧ objs w' !! oid = objs w !! oid)
    ∧ (∀ oid sl L x, oid ∉ op_objs op → objs w !! oid = Some sl →
         Ls !! oid = Some L → x ∈ footprint sl L → heap w' !! x = heap w !! x)
    ∧ (world_exact w Ls → world_exact w' Ls').
Proof.
  intros Hwf Hex. pose proof Hwf as [Hrep Hdisj].
  pose proof (λ oid sl L x, world_owner_allocated w Ls oid sl L x Hwf) as Halloc.
  destruct op as [oid p m seed|oid k|oid k|oid other|oid other]; simpl in Hex.
  - (* New *)
    destruct (objs w !! oid) as [?|] eqn:Ho; [done|].
    injection Hex as <-. exists (<[oid := []]> Ls).
    change (let '(h, sl) := SkipList_new p m seed (heap w) in
            mkWorld h (<[oid:=sl]> (objs w)))
      with (mkWorld (SkipList_new p m seed (heap w)).1
                    (<[oid := (SkipList_new p m seed (heap w)).2]> (objs w))).
    destruct (SkipList_new_heap p m seed (heap w)) as [Hh Hhd].
    split_and!.
    + apply (world_wf_update w Ls oid _ _ [] []); try done.
      * intros sl L Ho'. by rewrite Ho in Ho'.
      * pose proof (SkipList_new_spec p m seed (heap w)) as HS.
        by rewrite (surjective_pairing (SkipList_new _ _ _ _)) in HS.
      * intros x _ Hx. rewrite ?Hh lookup_insert_ne //.
        intros <-. by apply allocated_not_fresh in Hx.
      * rewrite /footprint ?Hhd /=. intros x ->%list_elem_of_singleton. right.
        apply not_elem_of_dom, is_fresh.
    + simpl. intros oid' Hn. rewrite !lookup_insert_ne //; set_solver.
    + simpl. intros oid' sl L x Hn Ho' HL Hx. rewrite ?Hh lookup_insert_ne //.
      intros <-. eapply allocated_not_fresh; [|done]. by eapply Halloc.
    + intros Hexact x. simpl. rewrite ?Hh.
      destruct (decide (x = fresh (dom (heap w)))) as [->|Hne].
      * intros _. exists oid, (SkipList_new p m seed (heap w)).2, [].
        rewrite !lookup_insert_eq /footprint Hhd /=. split_and!; [done..|set_solver].
      * rewrite lookup_insert_ne //. intros (id0 & sl0 & L0 & Ho0 & HL0 & Hx0)%Hexact.
        assert (id0 ≠ oid) by congruence.
        exists id0, sl0, L0. by rewrite !lookup_insert_ne.
  - (* Insert *)
    destruct (objs w !! oid) as [sl|] eqn:Ho; simpl in Hex; [|done].
    destruct (Hrep oid sl Ho) as (L & HL & HR).
    destruct (insert_spec _ L k HR) as ([h' sl'] & Hins & Hcases).
    rewrite Hins /= in Hex. injection Hex as <-.
    destruct Hcases as [[_ [= -> ->]]|(_ & L1 & L2 & lvl & sl1 & -> & _ & _ & Hrl & Hsl' & HR' & Hdom & Hfr)].
    + exists Ls. by rewrite insert_id.
    + simpl in *. exists (<[oid := L1 ++ (fresh (dom (heap w)), k, lvl) :: L2]> Ls).
      pose proof HR as (hd & Hhd & _). simpl in Hhd.
      assert (head_ sl' = Some hd) as Hhd'.
      { apply randomLevel_fields in Hrl as (Hh1 & _). by rewrite Hsl' /= Hh1. }
      assert (∀ x, x ∈ footprint sl' (L1 ++ (fresh (dom (heap w)), k, lvl) :: L2)
                 ↔ x = fresh (dom (heap w)) ∨ x ∈ footprint sl (L1 ++ L2)) as Hfp.
      { intros x. rewrite (footprint_cons _ _ _ Hhd') (footprint_cons _ _ _ Hhd).
        rewrite !fmap_app fmap_cons. set_solver. }
      split_and!.
      * apply (world_wf_update w Ls oid _ _ _ (footprint sl (L1 ++ L2))); try done.
        -- intros ?? Ho' HL'. by simplify_eq.
        -- intros Ho'. by rewrite Ho in Ho'.
        -- intros x Hx Hnd. apply Hfr; [done|]. by apply allocated_not_fresh.
        -- intros x [->|Hx]%Hfp; [right|by left].
           apply not_elem_of_dom, is_fresh.
      * intros oid' Hn. rewrite !lookup_insert_ne //; set_solver.
      * intros oid' sl0 L0 x Hn Ho' HL0 Hx. apply Hfr.
        -- intros Hx'. assert (oid' ≠ oid) as Hne by set_solver.
           by apply (Hdisj oid' oid sl0 sl L0 (L1 ++ L2) Hne Ho' Ho HL0 HL x).
        -- apply allocated_not_fresh. by eapply Halloc.
      * intros Hexact x Hx. simpl in Hx.
        destruct (decide (x = fresh (dom (heap w)))) as [->|Hne].
        { exists oid, sl', (L1 ++ (fresh (dom (heap w)), k, lvl) :: L2).
          rewrite !lookup_insert_eq. split_and!; [done..|]. apply Hfp. by left. }
        assert (is_Some (heap w !! x)) as Hx'.
        { apply elem_of_dom. apply elem_of_dom in Hx. rewrite Hdom in Hx. set_solver. }
        destruct (Hexact x Hx') as (id0 & sl0 & L0 & Ho0 & HL0 & Hx0).
        destruct (decide (id0 = oid)) as [->|Hid].
        { exists oid, sl', (L1 ++ (fresh (dom (heap w)), k, lvl) :: L2).
          rewrite !lookup_insert_eq. split_and!; [done..|]. apply Hfp. right.
          by simplify_eq. }
        exists id0, sl0, L0. simpl. by rewrite !lookup_insert_ne.
  - (* Erase *)
    destruct (objs w !! oid) as [sl|] eqn:Ho; simpl in Hex; [|done].
    destruct (Hrep oid sl Ho) as (L & HL & HR).
    destruct (erase_spec _ L k HR) as ([b [h' sl']] & Her & Hcases).
    rewrite Her /= in Hex. injection Hex as <-.
    destruct Hcases as [[_ [= -> -> ->]]|(_ & L1 & e & L2 & h'' & ml' & -> & _ & [= -> -> ->] & HR' & Hle & _ & Hdom & Hfr)].
    + exists Ls. by rewrite insert_id.
    + simpl in *. exists (<[oid := L1 ++ L2]> Ls).
      pose proof HR as (hd & Hhd & _). simpl in Hhd.
      split_and!.
      * apply (world_wf_update w Ls oid _ _ _ (footprint sl (L1 ++ e :: L2))); try done.
        -- intros ?? Ho' HL'. by simplify_eq.
        -- intros Ho'. by rewrite Ho in Ho'.
        -- intros x Hx _. by apply Hfr.
        -- intros x Hx. left. unfold footprint in *. simpl in *.
           rewrite fmap_app in Hx. rewrite fmap_app fmap_cons. set_solver.
      * intros oid' Hn. rewrite !lookup_insert_ne //; set_solver.
      * intros oid' sl0 L0 x Hn Ho' HL0 Hx. apply Hfr.
        intros Hx'. assert (oid' ≠ oid) as Hne by set_solver.
        by apply (Hdisj oid' oid sl0 sl L0 (L1 ++ e :: L2) Hne Ho' Ho HL0 HL x).
      * intros Hexact x Hx. simpl in Hx.
        assert (x ∈ dom (heap w) ∧ x ≠ e_addr e) as [Hx' Hne].
        { apply elem_of_dom in Hx. rewrite Hdom in Hx. set_solver. }
        apply elem_of_dom in Hx'.
        destruct (Hexact x Hx') as (id0 & sl0 & L0 & Ho0 & HL0 & Hx0).
        destruct (decide (id0 = oid)) as [->|Hid].
        { eexists oid, _, (L1 ++ L2). simpl.
          rewrite !lookup_insert_eq. split_and!; [done..|]. simplify_eq.
          unfold footprint in *. simpl in *.
          rewrite fmap_app. rewrite fmap_app fmap_cons in Hx0. set_solver. }
        exists id0, sl0, L0. simpl. by rewrite !lookup_insert_ne.
  - (* MoveConstruct *)
    destruct (objs w !! oid) as [?|] eqn:Ho; [done|].
    destruct (objs w !! other) as [o|] eqn:Hoo; simpl in Hex; [|done].
    destruct (Hrep other o Hoo) as (Lo & HLo & HRo).
    destruct (move_construct_spec _ _ _ HRo) as [Hmc _].
    rewrite Hmc in Hex. injection Hex as <-.
    assert (oid ≠ other) as Hne by (intros ->; by rewrite Ho in Hoo).
    destruct (SkipList_new_heap (probability_ o) (maxAllowedLevel_ o) (rng_ o) (heap w))
      as [Hh Hhd].
    exists (<[oid := Lo]> (<[other := []]> Ls)). split_and!.
    + apply (world_wf_move w Ls oid other o Lo (heap w) []); try done.
      intros sl L Ho'. by rewrite Ho in Ho'.
    + simpl. intros oid' Hn. rewrite !lookup_insert_ne //; set_solver.
    + simpl. intros oid' sl L x Hn Ho' HL Hx. rewrite ?Hh lookup_insert_ne //.
      intros <-. eapply allocated_not_fresh; [|done]. by eapply Halloc.
    + intros Hexact x. simpl. rewrite ?Hh.
      destruct (decide (x = fresh (dom (heap w)))) as [->|Hnx].
      * intros _. eexists other, _, [].
        rewrite lookup_insert_ne // lookup_insert_eq.
        rewrite lookup_insert_ne // lookup_insert_eq.
        split_and!; [done..|]. rewrite /footprint ?Hhd /=. set_solver.
      * rewrite lookup_insert_ne //. intros (id0 & sl0 & L0 & Ho0 & HL0 & Hx0)%Hexact.
        destruct (decide (id0 = other)) as [->|Hid].
        { exists oid, o, Lo. rewrite !lookup_insert_eq. by simplify_eq. }
        assert (id0 ≠ oid) by congruence.
        exists id0, sl0, L0. by rewrite !lookup_insert_ne.
  - (* MoveAssign *)
    destruct (objs w !! oid) as [this|] eqn:Ho; simpl in Hex; [|done].
    destruct (objs w !! other) as [o|] eqn:Hoo; simpl in Hex; [|done].
    case_decide as Hne; [injection Hex as <-; by exists Ls|].
    destruct (Hrep oid this Ho) as (Lt & HLt & HRt).
    destruct (Hrep other o Hoo) as (Lo & HLo & HRo).
    destruct (move_assign_from_spec _ _ _ _ _ HRt HRo) as (h1 & _ & Hin & Hout & Hma & _).
    { by apply (Hdisj oid other this o Lt Lo). }
    rewrite Hma /= in Hex. injection Hex as <-.
    destruct (SkipList_new_heap (probability_ o) (maxAllowedLevel_ o) (rng_ o) h1)
      as [Hh Hhd].
    exists (<[oid := Lo]> (<[other := []]> Ls)). split_and!.
    + apply (world_wf_move w Ls oid other o Lo h1 (footprint this Lt)); try done.
      * intros ?? Ho' HL'. by simplify_eq.
      * intros Ho'. by rewrite Ho in Ho'.
    + simpl. intros oid' Hn. rewrite !lookup_insert_ne //; set_solver.
    + simpl. intros oid' sl L x Hn Ho' HL Hx.
      assert (oid' ≠ oid) as Hne' by set_solver.
      assert (h1 !! x = heap w !! x) as Hx1.
      { apply Hout. intros Hx'.
        by apply (Hdisj oid' oid sl this L Lt Hne' Ho' Ho HL HLt x). }
      rewrite ?Hh lookup_insert_ne //.
      intros <-. eapply (allocated_not_fresh h1); [|done]. rewrite Hx1. by eapply Halloc.
    + intros Hexact x. simpl. rewrite ?Hh.
      destruct (decide (x = fresh (dom h1))) as [->|Hnx].
      * intros _. eexists other, _, [].
        rewrite lookup_insert_ne // lookup_insert_eq.
        rewrite lookup_insert_ne // lookup_insert_eq.
        split_and!; [done..|]. rewrite /footprint ?Hhd /=. set_solver.
      * rewrite lookup_insert_ne //. intros Hx1.
        assert (x ∉ footprint this Lt) as Hnt.
        { intros Hx'. apply Hin in Hx'. rewrite Hx' in Hx1. by destruct Hx1. }
        rewrite (Hout x Hnt) in Hx1.
        destruct (Hexact x Hx1) as (id0 & sl0 & L0 & Ho0 & HL0 & Hx0).
        destruct (decide (id0 = other)) as [->|Hid].
        { exists oid, o, Lo. rewrite !lookup_insert_eq. by simplify_eq. }
        assert (id0 ≠ oid) by (intros ->; by simplify_eq).
        exists id0, sl0, L0. by rewrite !lookup_insert_ne.
Qed.

Lemma exec_all_exact (ops : list (Op Key Rng Real)) w w' Ls :
  world_wf_with w Ls → world_exact w Ls → exec_all ops w = Some w' →
  ∃ Ls', world_wf_with w' Ls' ∧ world_exact w' Ls'.
Proof.
  revert w Ls. induction ops as [|op ops IH]; intros w Ls Hwf Hexact; simpl.
  - intros [= <-]. by exists Ls.
  - destruct (exec op w) as [w1|] eqn:Hex; simpl; [|done].
    destruct (exec_step op w w1 Ls Hwf Hex) as (Ls1 & Hwf1 & _ & _ & Hexact1).
    apply (IH w1 Ls1); [done|by apply Hexact1].
Qed.

Lemma represents_nodes (st : gmap addr (Node Key) * SkipList Rng Real) L :
  represents st L →
  ∃ hd, head_ st.2 = Some hd ∧ level_nodes 0 st = Some (e_addr <$> L)
    ∧ footprint st.2 L = hd :: (e_addr <$> L).
Proof.
  intros HR. pose proof HR as (hd & Hhd & HRep). exists hd. split_and!; [done| |].
  - rewrite (level_nodes_spec _ L) //; [|apply (rep_ml _ _ _ _ HRep)].
    rewrite chain_0; [done|].
    eapply Forall_impl; [apply (rep_lvl _ _ _ _ HRep)|]. simpl. lia.
  - by apply footprint_cons.
Qed.

(** *** The end of a lifetime *)

Lemma end_of_life_step (w : World Key Rng Real) Ls oid sl :
  world_wf_with w Ls → objs w !! oid = Some sl →
  ∃ h', end_of_life oid w = Some (mkWorld h' (delete oid (objs w)))
    ∧ world_wf_with (mkWorld h' (delete oid (objs w))) Ls
    ∧ (∀ oid' sl' L x, oid' ≠ oid → objs w !! oid' = Some sl' → Ls !! oid' = Some L →
         x ∈ footprint sl' L → h' !! x = heap w !! x)
    ∧ (∀ L x, Ls !! oid = Some L → x ∈ footprint sl L → h' !! x = None)
    ∧ (world_exact w Ls → world_exact (mkWorld h' (delete oid (objs w))) Ls).
Proof.
  intros Hwf Ho. pose proof Hwf as [Hrep Hdisj].
  destruct (Hrep oid sl Ho) as (L & HL & HR).
  destruct (release_spec _ _ _ HR) as (h' & Hrel & Hin & Hout).
  assert (∀ oid' sl' L' x, oid' ≠ oid → objs w !! oid' = Some sl' → Ls !! oid' = Some L' →
            x ∈ footprint sl' L' → h' !! x = heap w !! x) as Hframe.
  { intros oid' sl' L' x Hne Ho' HL' Hx. apply Hout. intros Hx'.
    by apply (Hdisj oid' oid sl' sl L' L Hne Ho' Ho HL' HL x). }
  exists h'. split_and!.
  - unfold end_of_life, destroy. by rewrite Ho /= Hrel.
  - split; simpl.
    + intros id0 sl0 [Hne Ho0]%lookup_delete_Some.
      destruct (Hrep id0 sl0 Ho0) as (L0 & HL0 & HR0).
      exists L0. split; [done|]. eapply represents_frame; [done|].
      intros x Hx. by eapply Hframe.
    + intros id1 id2 sl1 sl2 L1 L2 Hne [_ Ho1]%lookup_delete_Some [_ Ho2]%lookup_delete_Some.
      by apply Hdisj.
  - done.
  - intros L' x HL' Hx. simplify_eq. by apply Hin.
  - intros Hexact x Hx. simpl in Hx.
    assert (x ∉ footprint sl L) as Hnx.
    { intros Hx'. apply Hin in Hx'. rewrite Hx' in Hx. by destruct Hx. }
    rewrite (Hout x Hnx) in Hx.
    destruct (Hexact x Hx) as (id0 & sl0 & L0 & Ho0 & HL0 & Hx0).
    assert (id0 ≠ oid) by (intros ->; by simplify_eq).
    exists id0, sl0, L0. simpl. by rewrite lookup_delete_ne.
Qed.

Lemma end_all_spec ids (w : World Key Rng Real) Ls :
  world_wf_with w Ls → world_exact w Ls → NoDup ids →
  (∀ id, id ∈ ids ↔ is_Some (objs w !! id)) →
  end_all ids w = Some world_empty.
Proof.
  revert w. induction ids as [|oid ids IH]; intros w Hwf Hexact Hnd Hids; simpl.
  - assert (objs w = ∅) as Ho.
    { apply map_empty. intros i. apply eq_None_not_Some. rewrite -Hids. apply not_elem_of_nil. }
    assert (heap w = ∅) as Hh.
    { apply map_empty. intros x. apply eq_None_not_Some.
      intros (id0 & sl0 & L0 & Ho0 & _)%Hexact. by rewrite Ho in Ho0. }
    destruct w as [hw ow]. simpl in *. by subst.
  - apply NoDup_cons in Hnd as [Hni Hnd].
    destruct (proj1 (Hids oid)) as [sl Ho]; [by left|].
    destruct (end_of_life_step w Ls oid sl Hwf Ho) as (h' & -> & Hwf' & _ & _ & Hexact').
    simpl. apply IH; [done|by apply Hexact'|done|].
    intros id. simpl. rewrite lookup_delete_is_Some -Hids. set_solver.
Qed.

(** *** What one call does to each level *)

Lemma filter_all_in {A} (P : A → Prop) `{∀ x, Decision (P x)} (l : list A) :
  Forall P l → filter P l = l.
Proof.
  induction 1 as [|x l Hx _ IH]; [done|]. by rewrite filter_cons decide_True // IH.
Qed.

Lemma chain_remove i (L1 : list (@entry Key)) e L2 :
  NoDup (e_addr <$> (L1 ++ e :: L2)) →
  filter (λ x, x ≠ e_addr e) (chain i (L1 ++ e :: L2)) = chain i (L1 ++ L2).
Proof.
  rewrite fmap_app fmap_cons. intros (_ & Hd & [Hn _]%NoDup_cons)%NoDup_app.
  assert (∀ L, e_addr e ∉ e_addr <$> L →
            filter (λ x, x ≠ e_addr e) (chain i L) = chain i L) as Hkeep.
  { intros L HL. apply filter_all_in, Forall_forall. intros x Hx ->.
    by apply chain_subseteq in Hx. }
  rewrite !chain_app chain_cons filter_app. f_equal.
  - apply Hkeep. intros Hx. apply (Hd _ Hx). by left.
  - case_decide; [|by apply Hkeep].
    rewrite filter_cons decide_False; [by apply Hkeep|]. by intros ?.
Qed.

Lemma chain_top i (L : list (@entry Key)) :
  Forall (λ e, e_lvl e ≤ i) L → chain i L = [].
Proof.
  induction 1 as [|e L He _ IH]; [done|].
  rewrite chain_cons decide_False; [done|lia].
Qed.

(** *** Moves back and forth *)

Lemma move_assign_moved (w : World Key Rng Real) oid other (o : SkipList Rng Real) :
  world_ok w → objs w !! other = Some o → is_Some (objs w !! oid) → oid ≠ other →
  ∃ w', exec (MoveAssign oid other) w = Some w' ∧ moved w w' oid other o ∧ world_ok w'.
Proof.
  intros Hok Ho [this Ht] Hne.
  pose proof Hok as (Ls & Hwf & _). pose proof Hwf as [Hrep Hdisj].
  destruct (Hrep other o Ho) as (Lo & HLo & HRo).
  destruct (exec_defined (MoveAssign oid other) w Hok) as [w' Hex]; [by split; eauto|].
  exists w'. split_and!; [done| |by eapply exec_ok].
  simpl in Hex. rewrite Ht Ho /= decide_False // in Hex.
  destruct (Hrep oid this Ht) as (Lt & HLt & HRt).
  destruct (move_assign_from_spec _ _ _ _ _ HRt HRo) as (h1 & _ & _ & _ & Hma & HR').
  { by apply (Hdisj oid other this o Lt Lo). }
  rewrite Hma /= in Hex. injection Hex as <-. by eapply moved_intro.
Qed.


(** ** The claims *)

#[local] Arguments printByLevels : simpl never.
#[local] Arguments randomLevel : simpl never.

(** C1. For every sequence of [insert] and [erase] calls on a freshly
    constructed list, [contains(k)] returns, and returns [true] exactly when
    [k] was inserted at some point of the sequence and not erased
    afterwards. *)
Theorem contains_iff_inserted_not_erased (p : Real) (m : Z) (seed : Rng)
    (h0 : gmap addr (Node Key)) (cs : list (Cmd Key)) (k : Key) :
  ∃ st b, run cs (SkipList_new p m seed h0) = Some st
    ∧ contains k st = Some b
    ∧ (b = true ↔ inserted_not_erased k cs).
Proof.
  destruct (run_keys cs _ [] (SkipList_new_spec p m seed h0)) as (st & L & Hrun & HR & Hk).
  exists st, (bool_decide (k ∈ e_key <$> L)). split_and!; [done|by apply contains_spec|].
  rewrite bool_decide_eq_true Hk. split; [|by left].
  intros [?|[[]%elem_of_nil _]]. done.
Qed.

(** C2. [erase(k)] on a list without [k] returns [false] and leaves the list,
    and so the iterated sequence, as it was; on a list with [k] it returns
    [true] and the iterated sequence is the one before with its single [k]
    taken out. *)
Theorem erase_absent_present (st : gmap addr (Node Key) * SkipList Rng Real) (k : Key) :
  wf st →
  ∃ ks b st', iterate st = Some ks ∧ erase k st = Some (b, st')
    ∧ (((k ∉ ks) ∧ b = false ∧ st' = st ∧ iterate st' = Some ks)
       ∨ (k ∈ ks ∧ b = true ∧ ∃ ks1 ks2,
            ks = ks1 ++ k :: ks2 ∧ (k ∉ ks1 ++ ks2)
            ∧ iterate st' = Some (ks1 ++ ks2))).
Proof.
  intros [L HR]. pose proof (iterate_spec st L HR) as Hit.
  destruct (erase_spec st L k HR) as (r & Her & [[Hnin ->]|[Hin Hex]]).
  - exists (e_key <$> L), false, st. split_and!; [done..|]. left. done.
  - destruct Hex as (L1 & e & L2 & h' & ml' & -> & Hk & -> & HR' & _).
    destruct HR as (hd & _ & HR).
    destruct (sorted_remove e L1 L2 (rep_sorted _ _ _ _ HR)) as [_ Hnin'].
    eexists _, true, _. split_and!; [done..|]. right. split_and!; [done..|].
    exists (e_key <$> L1), (e_key <$> L2). rewrite -Hk.
    split_and!.
    + by rewrite fmap_app fmap_cons.
    + by rewrite -fmap_app.
    + rewrite -fmap_app. by apply iterate_spec.
Qed.

(** C3. [insert(k)] on a list that holds [k] changes nothing, and after any
    [insert(k)] a second [insert(k)] changes nothing: the list, and so the
    iterated sequence, is the one after the first. *)
Theorem insert_idempotent (st : gmap addr (Node Key) * SkipList Rng Real) (k : Key) :
  wf st →
  ∃ ks st1 ks1, iterate st = Some ks ∧ insert k st = Some st1
    ∧ (k ∈ ks → st1 = st)
    ∧ insert k st1 = Some st1
    ∧ iterate st1 = Some ks1 ∧ k ∈ ks1
    ∧ (once ← insert k st; twice ← insert k once; iterate twice)
      = (once ← insert k st; iterate once).
Proof.
  intros [L HR]. pose proof (iterate_spec st L HR) as Hit.
  destruct (insert_spec st L k HR) as (st1 & Hi & [[Hin ->]|[Hnin Hex]]).
  - exists (e_key <$> L), st, (e_key <$> L). split_and!; try done.
    by rewrite Hi /= Hi.
  - destruct Hex as (L1 & L2 & lvl & sl1 & -> & _ & _ & _ & _ & HR1 & _).
    assert (Hin1 : k ∈ e_key <$> (L1 ++ (fresh (dom st.1), k, lvl) :: L2)).
    { rewrite fmap_app fmap_cons. set_solver. }
    destruct (insert_spec st1 _ k HR1) as (st2 & Hi2 & [[_ ->]|[Hnin2 _]]); [|done].
    eexists _, st1, _.
    split_and!; [done..| |done|by apply iterate_spec|done|by rewrite Hi /= Hi2].
    intros Hk. done.
Qed.

(** C4. The state before the first statement satisfies the invariant; every
    statement ([insert], [erase], construction, move construction and move
    assignment) of a program runs to its end and keeps it; and in a state
    that satisfies it every list has the structural properties: level 0
    ends and its keys increase strictly, every level above is a sublist of
    the level below it, and iteration yields strictly increasing keys
    without a repeat.  [contains], iteration and the dump are functions of
    the state and leave it as it is. *)
Theorem structural_invariants_preserved :
  world_ok (Key := Key) (Rng := Rng) (Real := Real) world_empty
  ∧ (∀ (w : World Key Rng Real) op, world_ok w → op_valid w op →
       ∃ w', exec op w = Some w' ∧ world_ok w')
  ∧ (∀ (w : World Key Rng Real) id sl, world_ok w → objs w !! id = Some sl →
       structural_invariants (heap w, sl)
       ∧ ∃ ks, iterate (heap w, sl) = Some ks ∧ StronglySorted key_lt ks ∧ NoDup ks).
Proof.
  split_and!.
  - apply world_empty_ok.
  - intros w op Hok Hv. destruct (exec_defined op w Hok Hv) as [w' Hex].
    exists w'. split; [done|]. by eapply exec_ok.
  - intros w id sl Hok Ho. destruct (world_ok_wf w id sl Hok Ho) as [Hwf _].
    split; [by apply wf_structural|by apply wf_iterate_sorted].
Qed.

(** C5 as amended. [randomLevel] returns a level between 1 and the current
    height plus one, and within the maximum when that is at least 1.  It
    draws once per evaluation of its loop condition: every draw but the last
    is below [p] at a level that is below the maximum and below the current
    height plus one (that is, not above the current height), and the last
    draw, at the returned level, fails one of the three. *)
Theorem randomLevel_bounds (sl : SkipList Rng Real) :
  ∃ lvl ds rng',
    randomLevel sl = Some (lvl, mkSkipList (head_ sl) (maxLevel_ sl)
                                  (maxAllowedLevel_ sl) (probability_ sl) rng')
    ∧ draws lvl (rng_ sl) = (ds, rng')
    ∧ 1 ≤ lvl ≤ maxLevel_ sl + 1
    ∧ ((1 ≤ maxAllowedLevel_ sl)%Z → (Z.of_nat lvl ≤ maxAllowedLevel_ sl)%Z)
    ∧ (∀ j d, j < lvl - 1 → ds !! j = Some d → promotes sl (S j) d)
    ∧ (∀ d, ds !! (lvl - 1) = Some d → ¬ promotes sl lvl d).
Proof.
  destruct (randomLevel_spec sl) as (lvl & rng' & Hrl & Hb1 & Hb2).
  pose proof Hrl as Hrl'. unfold randomLevel in Hrl'.
  destruct (randomLevel_loop _ sl 1 (rng_ sl)) as [[lvl' rng'']|] eqn:Hloop;
    simpl in Hrl'; [|done].
  injection Hrl' as -> ->.
  apply randomLevel_loop_draws in Hloop as (n & -> & Hr & Hpass & Hstop).
  change (1 + n) with (S n) in *.
  exists (S n), (draws (S n) (rng_ sl)).1, rng'. split_and!; [done| |lia|lia| | |].
  - rewrite -Hr. by destruct (draws (S n) (rng_ sl)).
  - intros Hm. destruct Hb2 as [Hb2|Hb2]; lia.
  - intros j d Hj Hd. apply (Hpass j d); [lia|done].
  - intros d Hd. apply Hstop. by replace (S n - 1) with n in Hd by lia.
Qed.

(** C6. In a program whose lists are all constructed with a maximum of at
    least 1, after any sequence of constructions, [insert]s, [erase]s and
    moves every list has a height between 1 and its maximum, and its
    sentinel and every node reachable from it have at most height many
    forward links. *)
Theorem height_within_maximum (ops : list (Op Key Rng Real)) (w : World Key Rng Real) :
  (∀ id p m seed, New id p m seed ∈ ops → (1 ≤ m)%Z) →
  exec_all ops world_empty = Some w →
  ∀ id sl, objs w !! id = Some sl →
    1 ≤ maxLevel_ sl
    ∧ (Z.of_nat (maxLevel_ sl) ≤ maxAllowedLevel_ sl)%Z
    ∧ ∃ hd ns, head_ sl = Some hd ∧ level_nodes 0 (heap w, sl) = Some ns
        ∧ ∀ a nd, a ∈ hd :: ns → heap w !! a = Some nd →
            length (next nd) ≤ maxLevel_ sl.
Proof.
  intros Hnew Hex id sl Ho.
  pose proof (exec_all_ok ops _ _ world_empty_ok Hex) as Hok.
  assert (Hm : (1 ≤ maxAllowedLevel_ sl)%Z).
  { eapply (exec_all_maxAllowed ops world_empty w); [apply world_empty_ok|done..| |done].
    intros ?? Hl. by rewrite lookup_empty in Hl. }
  destruct (world_ok_wf w id sl Hok Ho) as [[L HR] Hh].
  pose proof HR as (hd & Hhd & HRep). simpl in *.
  split_and!; [apply (rep_ml _ _ _ _ HRep)|by apply Hh|].
  exists hd, (chain 0 L). split_and!; [done| |].
  - apply (level_nodes_spec _ L 0 HR), (rep_ml _ _ _ _ HRep).
  - intros a nd [->|Ha]%elem_of_cons Hnd.
    + pose proof (rep_hd _ _ _ _ HRep) as Hs. rewrite /shape Hnd /= in Hs.
      injection Hs as _ ->. done.
    + apply chain_subseteq, list_elem_of_fmap in Ha as (e & -> & He).
      pose proof (rep_nodes _ _ _ _ HRep) as Hs. rewrite Forall_forall in Hs.
      specialize (Hs e He). rewrite /shape Hnd /= in Hs. injection Hs as _ ->.
      pose proof (rep_lvl _ _ _ _ HRep) as Hl. rewrite Forall_forall in Hl.
      specialize (Hl e He). simpl in Hl. lia.
Qed.

(** C7. After an [erase] that removed a key the height is minimal: it is 1,
    or the sentinel's link on the topmost level points to a node. *)
Theorem erase_height_minimal (st st' : gmap addr (Node Key) * SkipList Rng Real) (k : Key) :
  wf st → erase k st = Some (true, st') →
  1 ≤ maxLevel_ st'.2
  ∧ (maxLevel_ st'.2 = 1
     ∨ ∃ hd b, head_ st'.2 = Some hd
         ∧ next_at st'.1 hd (maxLevel_ st'.2 - 1) = Some (Some b)).
Proof.
  intros [L HR] Her.
  destruct (erase_spec st L k HR) as (r & Her' & [[_ ->]|[_ Hex]]);
    rewrite Her in Her'; [done|].
  destruct Hex as (L1 & e & L2 & h' & ml' & _ & _ & -> & (hd & _ & HR') & _ & Ht & _).
  injection Her' as ->. simpl in *. split; [apply (rep_ml _ _ _ _ HR')|done].
Qed.

(** C8. Move construction and move assignment from [other] hand the list of
    [other], with its whole ascending key sequence, to the destination, and
    leave [other] as the constructor would have made it: height 1, a fresh
    sentinel, nothing to iterate.  The world stays well formed, and assigning
    a list to itself changes nothing. *)
Theorem move_transfers (w : World Key Rng Real) (other : nat) (o : SkipList Rng Real) :
  world_ok w → objs w !! other = Some o →
  (∀ id, objs w !! id = None →
     ∃ w', exec (MoveConstruct id other) w = Some w' ∧ moved w w' id other o
           ∧ world_ok w')
  ∧ (∀ id, is_Some (objs w !! id) → id ≠ other →
       ∃ w', exec (MoveAssign id other) w = Some w' ∧ moved w w' id other o
             ∧ world_ok w')
  ∧ exec (MoveAssign other other) w = Some w.
Proof.
  intros Hok Ho. pose proof Hok as (Ls & Hwf & _). pose proof Hwf as [Hrep Hdisj].
  destruct (Hrep other o Ho) as (Lo & HLo & HRo).
  split_and!.
  - intros oid Hnone.
    assert (Hne : oid ≠ other) by (intros ->; by rewrite Ho in Hnone).
    destruct (exec_defined (MoveConstruct oid other) w Hok) as [w' Hex]; [by split; eauto|].
    exists w'. split_and!; [done| |by eapply exec_ok].
    simpl in Hex. rewrite Hnone Ho /= in Hex.
    destruct (move_construct_spec _ _ _ HRo) as [Hmc HR'].
    rewrite Hmc in Hex. injection Hex as <-. by eapply moved_intro.
  - intros oid [this Ht] Hne.
    destruct (exec_defined (MoveAssign oid other) w Hok) as [w' Hex]; [by split; eauto|].
    exists w'. split_and!; [done| |by eapply exec_ok].
    simpl in Hex. rewrite Ht Ho /= decide_False // in Hex.
    destruct (Hrep oid this Ht) as (Lt & HLt & HRt).
    destruct (move_assign_from_spec _ _ _ _ _ HRt HRo) as (h1 & _ & _ & _ & Hma & HR').
    { by apply (Hdisj oid other this o Lt Lo). }
    rewrite Hma /= in Hex. injection Hex as <-. by eapply moved_intro.
  - simpl. rewrite Ho /= decide_True //.
Qed.

(** C9. [printByLevels] appends to the sink a header and then, from the
    topmost level down to level 0, one line per level: the label of the
    level, the keys of the nodes reachable on that level in ascending order,
    each followed by a space, and a newline; the bottom line carries the
    keys that iteration yields.  It is a function of the list alone and has
    no state to hand back: the body stores nothing. *)
Theorem printByLevels_dump (st : gmap addr (Node Key) * SkipList Rng Real)
    (os : list (Out Key Real)) :
  wf st →
  ∃ lines : nat → list Key,
    (∀ i, i < maxLevel_ st.2 →
       StronglySorted key_lt (lines i)
       ∧ ∃ ns, level_nodes i st = Some ns ∧ keys_at st.1 ns = Some (lines i))
    ∧ iterate st = Some (lines 0)
    ∧ printByLevels st os =
        Some (os ++ dump_header st.2 ++ dump_levels (maxLevel_ st.2) lines).
Proof.
  intros [L HR]. exists (λ i, level_keys i L). split_and!.
  - intros i Hi. split.
    + destruct HR as (hd & _ & HR). apply level_keys_sorted, (rep_sorted _ _ _ _ HR).
    + exists (chain i L). split; [by apply level_nodes_spec|].
      by apply level_keys_spec.
  - rewrite (iterate_spec st L HR). f_equal. unfold level_keys.
    destruct HR as (hd & _ & HR).
    pose proof (rep_lvl _ _ _ _ HR) as Hl. clear -Hl.
    induction Hl as [|e L He _ IH]; [done|].
    rewrite filter_cons decide_True; last lia. by rewrite !fmap_cons IH.
  - by apply printByLevels_spec.
Qed.

(** C10. [insert(k)] on a list that holds [k] does not draw: the generator,
    like the rest of the list, is as before, so whatever is run afterwards
    runs as if the call had not been made. *)
Theorem insert_duplicate_keeps_rng (st : gmap addr (Node Key) * SkipList Rng Real)
    (k : Key) :
  wf st → contains k st = Some true →
  ∃ st', insert k st = Some st'
    ∧ rng_ st'.2 = rng_ st.2
    ∧ randomLevel st'.2 = randomLevel st.2
    ∧ ∀ cs, run (CInsert k :: cs) st = run cs st.
Proof.
  intros [L HR] Hc. rewrite (contains_spec st L k HR) in Hc.
  injection Hc as Hc%bool_decide_eq_true.
  destruct (insert_spec st L k HR) as (st1 & Hi & [[_ ->]|[Hnin _]]); [|done].
  exists st. split_and!; [done..|]. intros cs. simpl. by rewrite Hi.
Qed.

(** ** Further properties of the code *)

(** X1. The destructor of a well-formed list returns: it frees the sentinel
    and every node of the list, and leaves every other cell of the heap as
    it was. *)
Theorem destroy_frees_list (st : gmap addr (Node Key) * SkipList Rng Real) :
  wf st →
  ∃ hd ns h', head_ st.2 = Some hd ∧ level_nodes 0 st = Some ns
    ∧ destroy st = Some h'
    ∧ (∀ a, a ∈ hd :: ns → is_Some (st.1 !! a) ∧ h' !! a = None)
    ∧ (∀ a, a ∉ hd :: ns → h' !! a = st.1 !! a).
Proof.
  intros [L HR]. pose proof HR as (hd & Hhd & HRep).
  exists hd, (e_addr <$> L).
  destruct st as [h sl]. simpl in *.
  destruct (release_spec _ _ _ HR) as (h' & Hrel & Hin & Hout).
  rewrite (footprint_cons _ _ _ Hhd) in Hin, Hout.
  exists h'. split_and!; [done| |done| |done].
  - rewrite (level_nodes_spec _ L) //; [|apply (rep_ml _ _ _ _ HRep)].
    by rewrite chain_0; [|eapply Forall_impl; [apply (rep_lvl _ _ _ _ HRep)|]; simpl; lia].
  - intros a Ha. split; [|by apply Hin]. by eapply Rep_allocated.
Qed.

(** X2. No leak: whatever sequence of [insert] and [erase] calls is run on a
    freshly constructed list, the destructor afterwards returns and the
    heap is again exactly the heap the constructor was called in. *)
Theorem run_destroy_restores_heap (p : Real) (m : Z) (seed : Rng)
    (h0 : gmap addr (Node Key)) (cs : list (Cmd Key)) :
  ∃ st, run cs (SkipList_new p m seed h0) = Some st ∧ destroy st = Some h0.
Proof.
  destruct (run_owned h0 cs _ _ (SkipList_new_owned p m seed h0)) as (st & L & Hrun & Hown).
  exists st. split; [done|]. by eapply destroy_owned.
Qed.

(** X3. [contains] agrees with iteration: the search from the top level
    down finds a key exactly when a range-for over the list visits it. *)
Theorem contains_agrees_with_iteration (st : gmap addr (Node Key) * SkipList Rng Real) :
  wf st →
  ∃ ks, iterate st = Some ks ∧ ∀ k, contains k st = Some (bool_decide (k ∈ ks)).
Proof.
  intros [L HR]. exists (e_key <$> L). split; [by apply iterate_spec|].
  intros k. by apply contains_spec.
Qed.

(** X4. After [insert(k)] the list is well formed and holds [k], and
    [contains] answers for every other key as before. *)
Theorem insert_then_contains (st : gmap addr (Node Key) * SkipList Rng Real) (k : Key) :
  wf st →
  ∃ st', insert k st = Some st' ∧ wf st'
    ∧ contains k st' = Some true
    ∧ ∀ k', k' ≠ k → contains k' st' = contains k' st.
Proof.
  intros [L HR]. destruct (insert_keys _ _ k HR) as (st' & L' & Hins & HR' & Hk).
  exists st'. split_and!; [done|by exists L'| |].
  - rewrite (contains_spec _ _ _ HR'). f_equal. apply bool_decide_eq_true. apply Hk. by left.
  - intros k' Hne. rewrite (contains_spec _ _ _ HR') (contains_spec _ _ _ HR). f_equal.
    apply bool_decide_ext. rewrite Hk. naive_solver.
Qed.

(** X5. [erase(k)] returns what [contains(k)] returned before it; after it
    the list is well formed and does not hold [k], [contains] answers for
    every other key as before, and a second [erase(k)] returns [false] and
    changes nothing. *)
Theorem erase_then_contains (st : gmap addr (Node Key) * SkipList Rng Real) (k : Key) :
  wf st →
  ∃ b st', erase k st = Some (b, st') ∧ wf st'
    ∧ contains k st = Some b
    ∧ contains k st' = Some false
    ∧ (∀ k', k' ≠ k → contains k' st' = contains k' st)
    ∧ erase k st' = Some (false, st').
Proof.
  intros [L HR]. destruct (erase_keys _ _ k HR) as ([b st'] & L' & Her & HR' & Hk).
  simpl in HR'.
  assert (k ∉ e_key <$> L') as Hnk by (rewrite Hk; naive_solver).
  exists b, st'. split_and!; [done|by exists L'| | | |].
  - rewrite (contains_spec _ _ _ HR). f_equal.
    destruct (erase_spec _ _ k HR) as (r & Her' & Hc). rewrite Her in Her'.
    injection Her' as <-.
    destruct Hc as [[Hn [= -> _]]|(Hin & _ & _ & _ & _ & _ & _ & _ & [= -> _] & _)].
    + by apply bool_decide_eq_false.
    + by apply bool_decide_eq_true.
  - rewrite (contains_spec _ _ _ HR'). f_equal. by apply bool_decide_eq_false.
  - intros k' Hne. rewrite (contains_spec _ _ _ HR') (contains_spec _ _ _ HR). f_equal.
    apply bool_decide_ext. rewrite Hk. naive_solver.
  - destruct (erase_spec _ _ k HR') as (r & -> & [[_ ->]|(Hin & _)]); done.
Qed.

(** X6. [insert(k)] of a key the list does not hold puts it at its place in
    the order: the iterated sequence afterwards is the one before with [k]
    between the keys below it and the keys above it. *)
Theorem insert_sorted_position (st : gmap addr (Node Key) * SkipList Rng Real) (k : Key) :
  wf st → contains k st = Some false →
  ∃ st' ks1 ks2, insert k st = Some st'
    ∧ iterate st = Some (ks1 ++ ks2)
    ∧ Forall (λ x, key_lt x k) ks1 ∧ Forall (λ x, key_lt k x) ks2
    ∧ iterate st' = Some (ks1 ++ k :: ks2).
Proof.
  intros [L HR] Hc. rewrite (contains_spec _ _ _ HR) in Hc.
  injection Hc as Hc. apply bool_decide_eq_false in Hc.
  destruct (insert_spec st L k HR) as (st' & Hins & [[Hin _]|(_ & L1 & L2 & lvl & sl1
    & -> & HF1 & HF2 & _ & _ & HR' & _)]); [done|].
  exists st', (e_key <$> L1), (e_key <$> L2). split_and!; [done| | | |].
  - by rewrite (iterate_spec _ _ HR) fmap_app.
  - by apply Forall_fmap.
  - by apply Forall_fmap.
  - by rewrite (iterate_spec _ _ HR') fmap_app fmap_cons.
Qed.

(** X7. Round trip: [insert(k)] of a key the list does not hold followed by
    [erase(k)] returns [true], gives back the iterated sequence of before,
    and leaves allocated exactly the cells that were. *)
Theorem insert_erase_round_trip (st : gmap addr (Node Key) * SkipList Rng Real) (k : Key) :
  wf st → contains k st = Some false →
  ∃ st1 st2, insert k st = Some st1 ∧ erase k st1 = Some (true, st2)
    ∧ iterate st2 = iterate st
    ∧ dom st2.1 = dom st.1.
Proof.
  intros [L HR] Hc. rewrite (contains_spec _ _ _ HR) in Hc.
  injection Hc as Hc. apply bool_decide_eq_false in Hc.
  destruct (insert_spec st L k HR) as (st1 & Hins & [[Hin _]|(_ & L1 & L2 & lvl & sl1
    & -> & _ & _ & _ & _ & HR1 & Hdom1 & _)]); [done|].
  destruct (erase_spec st1 _ k HR1) as (r & Her & [[Hn _]|(_ & L1' & e & L2' & h' & ml'
    & HL' & He & -> & HR2 & _ & _ & Hdom2 & _)]).
  { destruct Hn. rewrite fmap_app fmap_cons. set_solver. }
  eexists st1, _. split_and!; [done|done| |]; simpl in *.
  - apply (iterate_unique _ _ _ _ HR2 HR). intros k'.
    pose proof (represents_sorted _ _ HR1) as Hs. rewrite HL' in Hs.
    apply StronglySorted_NoDup in Hs.
    rewrite fmap_app fmap_cons in Hs. apply NoDup_app in Hs as (_ & Hs1 & Hs2).
    apply NoDup_cons in Hs2 as [Hs2 _].
    assert (∀ x, x ∈ e_key <$> L1 ++ (fresh (dom st.1), k, lvl) :: L2
                 ↔ x ∈ e_key <$> L1' ++ e :: L2') as Hsame by (by rewrite HL').
    specialize (Hsame k'). rewrite !fmap_app !fmap_cons in Hsame.
    rewrite !fmap_app. rewrite fmap_app in Hc.
    change (e_key (fresh (dom st.1), k, lvl)) with k in Hsame.
    destruct (decide (k' = k)) as [->|Hne].
    + specialize (Hs1 k). rewrite -He in Hs2, Hs1. set_solver.
    + rewrite He in Hsame. set_solver.
  - assert (e = (fresh (dom st.1), k, lvl)) as ->.
    { apply (entry_by_key (L1 ++ (fresh (dom st.1), k, lvl) :: L2)).
      - apply StronglySorted_NoDup. by eapply represents_sorted.
      - rewrite HL'. set_solver.
      - set_solver.
      - done. }
    rewrite Hdom2 Hdom1. change (e_addr (fresh (dom st.1), k, lvl)) with (fresh (dom st.1)).
    pose proof (is_fresh (dom st.1)). set_solver.
Qed.

(** X8. What a list iterates depends on the keys alive in it alone: two
    lists built by different sequences of calls, with different
    probabilities, maxima and generators, on different heaps, iterate the
    same sequence when the same keys were inserted and not erased
    afterwards. *)
Theorem iteration_determined_by_live_keys (p1 p2 : Real) (m1 m2 : Z) (seed1 seed2 : Rng)
    (h1 h2 : gmap addr (Node Key)) (cs1 cs2 : list (Cmd Key)) :
  (∀ k, inserted_not_erased k cs1 ↔ inserted_not_erased k cs2) →
  ∃ ks, (run cs1 (SkipList_new p1 m1 seed1 h1) ≫= iterate) = Some ks
    ∧ (run cs2 (SkipList_new p2 m2 seed2 h2) ≫= iterate) = Some ks.
Proof.
  intros Hsame.
  destruct (run_keys cs1 _ _ (SkipList_new_spec p1 m1 seed1 h1)) as (st1 & L1 & Hr1 & HR1 & Hk1).
  destruct (run_keys cs2 _ _ (SkipList_new_spec p2 m2 seed2 h2)) as (st2 & L2 & Hr2 & HR2 & Hk2).
  exists (e_key <$> L1). rewrite Hr1 Hr2 /=. split; [by apply iterate_spec|].
  rewrite -(iterate_spec _ _ HR1). symmetry. apply (iterate_unique _ _ _ _ HR1 HR2).
  intros k. rewrite Hk1 Hk2 Hsame. set_solver.
Qed.


(** X10. In every state that a sequence of [insert] and [erase] calls
    reaches from a freshly constructed list the height is as small as it
    can be: it is 1, or some node of the list has exactly height many
    forward links. *)
Theorem height_is_tallest_node (p : Real) (m : Z) (seed : Rng)
    (h0 : gmap addr (Node Key)) (cs : list (Cmd Key)) :
  ∃ st, run cs (SkipList_new p m seed h0) = Some st
    ∧ (maxLevel_ st.2 = 1
       ∨ ∃ ns a nd, level_nodes 0 st = Some ns ∧ a ∈ ns ∧ st.1 !! a = Some nd
           ∧ length (next nd) = maxLevel_ st.2).
Proof.
  destruct (run_tight cs _ [] (SkipList_new_spec p m seed h0)) as (st & L & Hrun & HR & Ht).
  { by left. }
  exists st. split; [done|]. destruct Ht as [?|(e & He & Hl)]; [by left|right].
  pose proof HR as (hd & Hhd & HRep).
  exists (e_addr <$> L), (e_addr e).
  pose proof (rep_nodes _ _ _ _ HRep) as Hn. rewrite Forall_forall in Hn.
  specialize (Hn e He). unfold shape in Hn.
  destruct (st.1 !! e_addr e) as [nd|] eqn:Hnd; [|done]. injection Hn as _ Hlen.
  exists nd. split_and!; [|by apply list_elem_of_fmap_2|done|lia].
  rewrite (level_nodes_spec _ L) //; [|apply (rep_ml _ _ _ _ HRep)].
  by rewrite chain_0; [|eapply Forall_impl; [apply (rep_lvl _ _ _ _ HRep)|]; simpl; lia].
Qed.

(** X11. No garbage: in every state that a sequence of [insert] and [erase]
    calls reaches from a freshly constructed list, the heap holds, beside
    the cells it held before the construction, one cell per key of the list
    and one for the sentinel. *)
Theorem one_node_per_key (p : Real) (m : Z) (seed : Rng)
    (h0 : gmap addr (Node Key)) (cs : list (Cmd Key)) :
  ∃ st ks, run cs (SkipList_new p m seed h0) = Some st ∧ iterate st = Some ks
    ∧ size st.1 = size h0 + S (length ks)
    ∧ dom h0 ⊆ dom st.1.
Proof.
  destruct (run_owned h0 cs _ _ (SkipList_new_owned p m seed h0))
    as (st & L & Hrun & HR & Hin & Hout).
  exists st, (e_key <$> L). split_and!; [done|by apply iterate_spec| |].
  - pose proof HR as (hd & Hhd & HRep).
    rewrite (footprint_cons _ _ _ Hhd) in Hin, Hout.
    assert (dom st.1 = dom h0 ∪ list_to_set (hd :: (e_addr <$> L))) as Hdom.
    { apply set_eq. intros x. rewrite elem_of_union elem_of_list_to_set !elem_of_dom.
      destruct (decide (x ∈ hd :: (e_addr <$> L))) as [Hx|Hx].
      - split; [by right|]. intros _. by eapply Rep_allocated.
      - rewrite Hout //. naive_solver. }
    rewrite -!size_dom Hdom size_union; last first.
    { apply elem_of_disjoint. intros x Hx1 Hx2.
      apply elem_of_list_to_set in Hx2. apply Hin in Hx2.
      apply elem_of_dom in Hx1 as [? Hx1]. congruence. }
    rewrite size_list_to_set; last apply (rep_nodup _ _ _ _ HRep).
    by rewrite /= !length_fmap.
  - intros x Hx. apply elem_of_dom. apply elem_of_dom in Hx as [nd Hx].
    destruct (decide (x ∈ footprint st.2 L)) as [Hf|Hf].
    + apply Hin in Hf. congruence.
    + rewrite Hout //.
Qed.

(** X12. The positions of a well-formed list with [n] keys.  [begin()]
    advanced [j] times is defined exactly for [j ≤ n]: below [n] it
    dereferences to the [j]-th key of the iterated sequence, at [n] it is
    [end()], and there neither [operator*] nor either [operator++] is
    defined.  Postfix [++] returns the old position and steps to the next.
    Two positions compare equal under [==], and unequal under [!=], exactly
    when they were reached by the same number of steps. *)
Theorem iterator_positions (st : gmap addr (Node Key) * SkipList Rng Real) :
  wf st →
  ∃ ks its, iterate st = Some ks
    ∧ length its = S (length ks)
    ∧ its !! length ks = Some end_
    ∧ (∀ j, iter_at j st = its !! j)
    ∧ (∀ j it, its !! j = Some it →
         deref st.1 it = ks !! j
         ∧ incr st.1 it = its !! S j
         ∧ post_incr st.1 it = (λ it', (it', it)) <$> its !! S j)
    ∧ (∀ i j a b, its !! i = Some a → its !! j = Some b →
         iter_eq a b = bool_decide (i = j) ∧ iter_ne a b = negb (bool_decide (i = j))).
Proof.
  intros [L HR]. exists (e_key <$> L), ((Some <$> (e_addr <$> L)) ++ [None]).
  assert (∀ j it, ((Some <$> (e_addr <$> L)) ++ [None]) !! j = Some it →
            j ≤ length L ∧ it = e_addr <$> L !! j) as Hpos.
  { intros j it. rewrite positions_lookup. case_decide; [|done]. by intros [= <-]. }
  assert (∀ j it, ((Some <$> (e_addr <$> L)) ++ [None]) !! j = Some it →
            incr st.1 it = ((Some <$> (e_addr <$> L)) ++ [None]) !! S j) as Hincr.
  { intros j it [Hj ->]%Hpos. rewrite positions_lookup.
    destruct (L !! j) as [e|] eqn:He.
    - change (e_addr <$> Some e) with (Some (e_addr e)).
      rewrite (incr_entry _ _ _ _ HR He). apply lookup_lt_Some in He.
      rewrite decide_True; [done|lia].
    - apply lookup_ge_None in He. rewrite decide_False; [done|lia]. }
  split_and!.
  - by apply iterate_spec.
  - by rewrite length_app !length_fmap /= Nat.add_1_r.
  - rewrite positions_lookup length_fmap decide_True; last lia.
    by rewrite lookup_ge_None_2.
  - intros j. by rewrite positions_lookup (iter_at_spec _ _ _ HR).
  - intros j it Hit. split_and!.
    + apply Hpos in Hit as [Hj ->]. rewrite list_lookup_fmap.
      destruct (L !! j) as [e|] eqn:He; simpl; [|done].
      apply (deref_entry _ _ _ HR). by eapply list_elem_of_lookup_2.
    + by eapply Hincr.
    + pose proof (Hincr _ _ Hit) as Hi. unfold post_incr.
      by destruct (incr st.1 it); rewrite -Hi.
  - intros i j a b Ha Hb.
    assert (NoDup ((Some <$> (e_addr <$> L)) ++ [None])) as Hnd.
    { destruct HR as (hd & _ & HRep). pose proof (rep_nodup _ _ _ _ HRep) as Hnd.
      apply NoDup_cons in Hnd as [_ Hnd]. apply NoDup_app. split_and!.
      - apply (NoDup_fmap_2 _), Hnd.
      - intros x Hx ->%list_elem_of_singleton.
        by apply list_elem_of_fmap in Hx as (? & ? & _).
      - apply NoDup_singleton. }
    assert (a = b ↔ i = j) as Hiff.
    { split; [intros ->; by eapply NoDup_lookup|intros ->; congruence]. }
    unfold iter_ne, iter_eq. rewrite (bool_decide_ext _ _ Hiff). done.
Qed.

(** X13. Node stability.  An iterator that points at a key of the list
    stays valid across [insert] of any key and across [erase] of any other
    key: it is still a position of the list and dereferences to the same
    key.  [erase] of the key it points at returns [true] and leaves it
    dangling: neither [operator*] nor [operator++] is defined on it. *)
Theorem iterators_stay_valid (st : gmap addr (Node Key) * SkipList Rng Real)
    (it : Iterator) :
  wf st → dereferenceable st it →
  (∀ k, ∃ st', insert k st = Some st'
      ∧ dereferenceable st' it ∧ deref st'.1 it = deref st.1 it)
  ∧ (∀ k, ∃ b st', erase k st = Some (b, st')
       ∧ if decide (deref st.1 it = Some k)
         then b = true ∧ deref st'.1 it = None ∧ incr st'.1 it = None
         else dereferenceable st' it ∧ deref st'.1 it = deref st.1 it).
Proof.
  intros [L HR] Hd. apply (dereferenceable_spec _ _ _ HR) in Hd as (e & He & ->).
  rewrite (deref_entry _ _ _ HR He). split; intros k.
  - destruct (insert_spec st L k HR) as (st' & Hins & [[_ ->]|(_ & L1 & L2 & lvl & sl1
      & -> & _ & _ & _ & _ & HR' & _)]).
    + exists st. split_and!; [done| |by eapply deref_entry].
      apply (dereferenceable_spec _ _ _ HR). eauto.
    + assert (e ∈ L1 ++ (fresh (dom st.1), k, lvl) :: L2) as He' by set_solver.
      exists st'. split_and!; [done| |by eapply deref_entry].
      apply (dereferenceable_spec _ _ _ HR'). eauto.
  - destruct (erase_spec st L k HR) as (r & Her & [[Hn ->]|(Hin & L1 & e0 & L2 & h' & ml'
      & -> & Hk0 & -> & HR' & _ & _ & Hdom & _)]).
    + exists false, st. split; [done|]. rewrite decide_False; last first.
      { intros [= <-]. apply Hn. by apply list_elem_of_fmap_2. }
      split; [|by eapply deref_entry].
      apply (dereferenceable_spec _ _ _ HR). eauto.
    + eexists true, _. split; [done|]. simpl in *.
      destruct (decide (Some (e_key e) = Some k)) as [[= Hk]|Hne].
      * assert (e = e0) as ->.
        { apply (entry_by_key (L1 ++ e0 :: L2)); [|done|set_solver|congruence].
          apply StronglySorted_NoDup. by eapply (represents_sorted st). }
        assert (h' !! e_addr e0 = None) as Hfree.
        { apply not_elem_of_dom. rewrite Hdom. set_solver. }
        split; [done|]. unfold deref, incr, next_at. simpl. by rewrite Hfree.
      * assert (e ∈ L1 ++ L2) as He'.
        { assert (e ≠ e0) by (intros ->; congruence). set_solver. }
        split; [|by apply (deref_entry _ _ _ HR' He')].
        apply (dereferenceable_spec _ _ _ HR'). eauto.
Qed.

(** X14. [resetToEmpty] does nothing to a well-formed list.  On a list whose
    [head_] is null and whose height is at least 1, as a move leaves its
    source, it allocates one sentinel with height many null links at a free
    address: the result is a well-formed list that iterates nothing, and
    the cells allocated before are as they were. *)
Theorem resetToEmpty_spec (h : gmap addr (Node Key)) (sl : SkipList Rng Real) :
  (wf (h, sl) → resetToEmpty (h, sl) = (h, sl))
  ∧ (head_ sl = None → 1 ≤ maxLevel_ sl →
       wf (resetToEmpty (h, sl))
       ∧ iterate (resetToEmpty (h, sl)) = Some []
       ∧ maxLevel_ (resetToEmpty (h, sl)).2 = maxLevel_ sl
       ∧ size (resetToEmpty (h, sl)).1 = S (size h)
       ∧ ∀ x, is_Some (h !! x) → (resetToEmpty (h, sl)).1 !! x = h !! x).
Proof.
  split.
  - intros (L & hd & Hhd & _). simpl in *. by rewrite Hhd.
  - intros Hhd Hml. unfold resetToEmpty, new_Node. rewrite Hhd.
    set (a := fresh (dom h)).
    assert (h !! a = None) as Ha by apply not_elem_of_dom, is_fresh.
    assert (represents (<[a := mkNode key_default (replicate (maxLevel_ sl) None)]> h,
              mkSkipList (Some a) (maxLevel_ sl) (maxAllowedLevel_ sl)
                         (probability_ sl) (rng_ sl)) []) as HR.
    { exists a. split; [done|]. simpl. apply Rep_sentinel; [done|].
      by rewrite lookup_insert_eq. }
    split_and!.
    + by exists [].
    + by rewrite (iterate_spec _ _ HR).
    + done.
    + simpl. by rewrite map_size_insert_None.
    + intros x [nd Hx]. simpl. rewrite lookup_insert_ne; [done|congruence].
Qed.

(** X15. The constructor allocates one sentinel with a single null link at
    a free address and leaves the cells allocated before as they were.  The
    list it returns has height 1 and is empty: iteration yields nothing,
    [begin()] is [end()], and for every key [contains] returns [false] and
    [erase] returns [false] and changes nothing.  No value of the
    probability or of the maximum is rejected. *)
Theorem constructed_empty (p : Real) (m : Z) (seed : Rng) (h : gmap addr (Node Key)) :
  wf (SkipList_new p m seed h)
  ∧ maxLevel_ (SkipList_new p m seed h).2 = 1
  ∧ iterate (SkipList_new p m seed h) = Some []
  ∧ begin (SkipList_new p m seed h) = Some end_
  ∧ (∀ k, contains k (SkipList_new p m seed h) = Some false
          ∧ erase k (SkipList_new p m seed h) = Some (false, SkipList_new p m seed h))
  ∧ size (SkipList_new p m seed h).1 = S (size h)
  ∧ ∀ x, is_Some (h !! x) → (SkipList_new p m seed h).1 !! x = h !! x.
Proof.
  pose proof (SkipList_new_spec p m seed h) as HR.
  split_and!.
  - by exists [].
  - done.
  - by rewrite (iterate_spec _ _ HR).
  - by rewrite (begin_spec _ _ HR).
  - intros k. split.
    + by rewrite (contains_spec _ _ _ HR).
    + destruct (erase_spec _ _ k HR) as (r & -> & [[_ ->]|(Hin & _)]); [done|].
      simpl in Hin. by apply elem_of_nil in Hin.
  - unfold SkipList_new, new_Node. simpl. rewrite map_size_insert_None //.
    apply not_elem_of_dom, is_fresh.
  - intros x [nd Hx]. unfold SkipList_new, new_Node. simpl.
    rewrite lookup_insert_ne //. intros <-.
    pose proof (is_fresh (dom h)) as Hf. apply Hf. apply elem_of_dom. eauto.
Qed.

(** X16. A list constructed with a maximum of 1 or less (0 and negative
    values are not rejected) never grows: after any sequence of [insert]
    and [erase] calls its height is 1, and the sentinel and every node have
    exactly one forward link, so the list is a sorted singly linked
    list. *)
Theorem maximum_one_stays_flat (p : Real) (m : Z) (seed : Rng)
    (h0 : gmap addr (Node Key)) (cs : list (Cmd Key)) :
  (m ≤ 1)%Z →
  ∃ st hd ns, run cs (SkipList_new p m seed h0) = Some st
    ∧ maxLevel_ st.2 = 1
    ∧ head_ st.2 = Some hd ∧ level_nodes 0 st = Some ns
    ∧ ∀ a, a ∈ hd :: ns → ∃ nd, st.1 !! a = Some nd ∧ length (next nd) = 1.
Proof.
  intros Hm.
  destruct (run_flat cs _ [] (SkipList_new_spec p m seed h0)) as (st & L & Hrun & HR & Hml);
    [done..|].
  pose proof HR as (hd & Hhd & HRep). rewrite Hml in HRep.
  exists st, hd, (e_addr <$> L). split_and!; [done..| |].
  - rewrite (level_nodes_spec _ L) //; [|lia].
    by rewrite chain_0; [|eapply Forall_impl; [apply (rep_lvl _ _ _ _ HRep)|]; simpl; lia].
  - intros a [->|Ha]%elem_of_cons.
    + pose proof (rep_hd _ _ _ _ HRep) as Hs. unfold shape in Hs.
      destruct (st.1 !! hd) as [nd|]; [|done]. injection Hs as _ Hl. by exists nd.
    + apply list_elem_of_fmap in Ha as (e & -> & He).
      pose proof (rep_nodes _ _ _ _ HRep) as Hn. rewrite Forall_forall in Hn.
      pose proof (rep_lvl _ _ _ _ HRep) as Hv. rewrite Forall_forall in Hv.
      specialize (Hn e He). specialize (Hv e He). simpl in *. unfold shape in Hn.
      destruct (st.1 !! e_addr e) as [nd|]; [|done]. injection Hn as _ Hl.
      exists nd. split; [done|lia].
Qed.

(** X17. With a probability that every draw falls below (1 or more, which
    the constructor does not reject), [randomLevel] returns the greatest
    level its loop allows: the smaller of the maximum and the current
    height plus one, and 1 if that is less. *)
Theorem randomLevel_certain (sl : SkipList Rng Real) :
  Forall (λ d, real_lt d (probability_ sl) = true) (draws (S (maxLevel_ sl)) (rng_ sl)).1 →
  ∃ lvl rng',
    randomLevel sl = Some (lvl, mkSkipList (head_ sl) (maxLevel_ sl)
                                  (maxAllowedLevel_ sl) (probability_ sl) rng')
    ∧ Z.of_nat lvl
      = (1 `max` (maxAllowedLevel_ sl `min` (Z.of_nat (maxLevel_ sl) + 1)))%Z.
Proof.
  intros Hd.
  destruct (randomLevel_loop_certain sl (maxLevel_ sl) 1 (rng_ sl) Hd) as (lvl & rng' & Hl & Hv);
    [lia|].
  exists lvl, rng'. unfold randomLevel. rewrite Hl /=. split; [done|]. lia.
Qed.

(** X18. Lists do not interfere: a statement of a program (construction,
    [insert], [erase], move construction, move assignment) leaves every
    list it does not name as it was.  The object is unchanged, none of its
    cells is written, and it iterates and answers [contains] as before. *)
Theorem exec_isolated (w w' : World Key Rng Real) (op : Op Key Rng Real)
    (oid : nat) (sl : SkipList Rng Real) :
  world_ok w → exec op w = Some w' →
  objs w !! oid = Some sl → oid ∉ op_objs op →
  objs w' !! oid = Some sl
  ∧ iterate (heap w', sl) = iterate (heap w, sl)
  ∧ (∀ k, contains k (heap w', sl) = contains k (heap w, sl))
  ∧ ∃ hd ns, head_ sl = Some hd ∧ level_nodes 0 (heap w, sl) = Some ns
      ∧ ∀ a, a ∈ hd :: ns → heap w' !! a = heap w !! a.
Proof.
  intros (Ls & Hwf & _) Hex Ho Hn.
  destruct (exec_step op w w' Ls Hwf Hex) as (Ls' & _ & Hsame & Hframe & _).
  destruct Hwf as [Hrep _]. destruct (Hrep oid sl Ho) as (L & HL & HR).
  assert (represents (heap w', sl) L) as HR'.
  { eapply represents_frame; [done|]. intros x Hx. by eapply Hframe. }
  split_and!.
  - destruct (Hsame oid Hn) as [_ ->]. done.
  - by rewrite (iterate_spec _ _ HR) (iterate_spec _ _ HR').
  - intros k. by rewrite (contains_spec _ _ _ HR) (contains_spec _ _ _ HR').
  - destruct (represents_nodes _ _ HR) as (hd & Hhd & Hns & Hfp). simpl in *.
    exists hd, (e_addr <$> L). split_and!; [done..|].
    intros a Ha. apply (Hframe oid sl L a Hn Ho HL). by rewrite Hfp.
Qed.

(** X19. When a list of a program reaches the end of its lifetime, its
    destructor returns and the object is gone; the program state stays well
    formed, and every other list is the same object and iterates and
    answers [contains] as before. *)
Theorem destructor_isolated (w : World Key Rng Real) (oid : nat) (sl : SkipList Rng Real) :
  world_ok w → objs w !! oid = Some sl →
  ∃ w', end_of_life oid w = Some w' ∧ world_ok w'
    ∧ objs w' = delete oid (objs w)
    ∧ ∀ oid' sl', oid' ≠ oid → objs w !! oid' = Some sl' →
        objs w' !! oid' = Some sl'
        ∧ iterate (heap w', sl') = iterate (heap w, sl')
        ∧ ∀ k, contains k (heap w', sl') = contains k (heap w, sl').
Proof.
  intros (Ls & Hwf & Hh) Ho.
  destruct (end_of_life_step w Ls oid sl Hwf Ho) as (h' & Hend & Hwf' & Hframe & _ & _).
  eexists. split; [done|]. split_and!.
  - exists Ls. split; [done|]. simpl. intros id0 sl0 [_ Ho0]%lookup_delete_Some.
    by eapply Hh.
  - done.
  - intros oid' sl' Hne Ho'. simpl. rewrite lookup_delete_ne //.
    destruct Hwf as [Hrep _]. destruct (Hrep oid' sl' Ho') as (L & HL & HR).
    assert (represents (h', sl') L) as HR'.
    { eapply represents_frame; [done|]. intros x Hx. by eapply Hframe. }
    split_and!; [done| |].
    + by rewrite (iterate_spec _ _ HR) (iterate_spec _ _ HR').
    + intros k. by rewrite (contains_spec _ _ _ HR) (contains_spec _ _ _ HR').
Qed.

(** X20. A program leaks nothing: after any sequence of constructions,
    [insert]s, [erase]s, move constructions and move assignments, when the
    live lists reach the end of their lifetimes, in whatever order, every
    destructor returns and the heap is empty again. *)
Theorem program_no_leak (ops : list (Op Key Rng Real)) (w : World Key Rng Real)
    (ids : list nat) :
  exec_all ops world_empty = Some w →
  NoDup ids → (∀ id, id ∈ ids ↔ is_Some (objs w !! id)) →
  end_all ids w = Some world_empty.
Proof.
  intros Hex Hnd Hids.
  assert (world_wf_with (Key := Key) (Rng := Rng) (Real := Real) world_empty ∅) as Hwf0.
  { split; simpl.
    - intros id sl Hl. by rewrite lookup_empty in Hl.
    - intros id1 id2 sl1 sl2 L1 L2 _ Hl. by rewrite lookup_empty in Hl. }
  assert (world_exact (Key := Key) (Rng := Rng) (Real := Real) world_empty ∅) as Hexact0.
  { intros x [nd Hx]. simpl in Hx. by rewrite lookup_empty in Hx. }
  destruct (exec_all_exact ops _ _ _ Hwf0 Hexact0 Hex) as (Ls & Hwf & Hexact).
  by eapply end_all_spec.
Qed.

(** X21. What [insert(k)] of a key the list does not hold does with the
    level [randomLevel] returns.  The generator is left where
    [randomLevel] left it and the height becomes the greater of the height
    and the level.  One node is allocated at a free address, with the key
    and exactly level many forward links.  On every level below the new
    height the node is linked exactly when the level is below its own; the
    levels that existed hold the nodes they held, in order, around it; and
    a level that is new holds the new node alone. *)
Theorem insert_links_new_node (st : gmap addr (Node Key) * SkipList Rng Real) (k : Key) :
  wf st → contains k st = Some false →
  ∃ st' lvl sl1 a nd,
    randomLevel st.2 = Some (lvl, sl1) ∧ insert k st = Some st'
    ∧ rng_ st'.2 = rng_ sl1
    ∧ maxLevel_ st'.2 = maxLevel_ st.2 `max` lvl
    ∧ st.1 !! a = None ∧ st'.1 !! a = Some nd ∧ key nd = k ∧ length (next nd) = lvl
    ∧ ∀ i, i < maxLevel_ st'.2 →
        ∃ ns', level_nodes i st' = Some ns'
          ∧ (a ∈ ns' ↔ i < lvl)
          ∧ (i < maxLevel_ st.2 → level_nodes i st = Some (filter (λ x, x ≠ a) ns'))
          ∧ (maxLevel_ st.2 ≤ i → ns' = [a]).
Proof.
  intros [L HR] Hc. rewrite (contains_spec _ _ _ HR) in Hc.
  injection Hc as Hc. apply bool_decide_eq_false in Hc.
  destruct (insert_spec st L k HR) as (st' & Hins & [[Hin _]|(_ & L1 & L2 & lvl & sl1
    & -> & _ & _ & Hrl & Hsl' & HR' & _)]); [done|].
  set (a := fresh (dom st.1)) in *.
  pose proof HR' as (hd' & Hhd' & HRep').
  pose proof (rep_nodes _ _ _ _ HRep') as Hn. rewrite Forall_forall in Hn.
  assert ((a, k, lvl) ∈ L1 ++ (a, k, lvl) :: L2) as Hmem by set_solver.
  specialize (Hn _ Hmem). unfold shape in Hn.
  change (e_addr (a, k, lvl)) with a in Hn.
  destruct (st'.1 !! a) as [nd|] eqn:Hnd; [|done].
  injection Hn as Hkey Hlen.
  pose proof (rep_nodup _ _ _ _ HRep') as Hnodup. apply NoDup_cons in Hnodup as [_ Hnodup].
  pose proof (λ i, chain_remove i L1 (a, k, lvl) L2 Hnodup) as Hrem.
  change (e_addr (a, k, lvl)) with a in Hrem.
  pose proof (randomLevel_fields _ _ _ Hrl) as (_ & Hml1 & _ & _ & _).
  exists st', lvl, sl1, a, nd. split_and!; [done|done| | | |done|done|done|].
  - by rewrite Hsl'.
  - by rewrite Hsl' /= Hml1.
  - apply not_elem_of_dom, is_fresh.
  - intros i Hi. exists (chain i (L1 ++ (a, k, lvl) :: L2)). split_and!.
    + by apply level_nodes_spec.
    + rewrite chain_app chain_cons. change (e_lvl (a, k, lvl)) with lvl.
      change (e_addr (a, k, lvl)) with a.
      assert ((a ∉ chain i L1) ∧ (a ∉ chain i L2)) as [Ha1 Ha2].
      { rewrite fmap_app fmap_cons in Hnodup.
        apply NoDup_app in Hnodup as (_ & Hd & [Hn2 _]%NoDup_cons).
        split; intros Hx%chain_subseteq; [|done]. apply (Hd _ Hx). by left. }
      case_decide; set_solver.
    + intros Hlt. by rewrite (level_nodes_spec _ (L1 ++ L2)) // Hrem.
    + intros Hge. destruct HR as (hd & _ & HRep).
      pose proof (rep_lvl _ _ _ _ HRep) as Hlv. apply Forall_app in Hlv as [Hlv1 Hlv2].
      rewrite chain_app chain_cons.
      rewrite (chain_top i L1); last (eapply Forall_impl; [done|]; simpl; lia).
      rewrite (chain_top i L2); last (eapply Forall_impl; [done|]; simpl; lia).
      rewrite Hsl' /= Hml1 in Hi. rewrite decide_True; [done|simpl; lia].
Qed.

(** X22. What [erase(k)] of a key the list holds does on each level.  The
    node with the key is freed.  Every level that remains holds the nodes
    it held, in order, without that node, and every level that is dropped
    held no other node. *)
Theorem erase_unlinks_every_level (st : gmap addr (Node Key) * SkipList Rng Real)
    (k : Key) :
  wf st → contains k st = Some true →
  ∃ st' a nd, erase k st = Some (true, st')
    ∧ st.1 !! a = Some nd ∧ key nd = k ∧ st'.1 !! a = None
    ∧ ∀ i, i < maxLevel_ st.2 →
        ∃ ns, level_nodes i st = Some ns
          ∧ (i < maxLevel_ st'.2 →
               level_nodes i st' = Some (filter (λ x, x ≠ a) ns))
          ∧ (maxLevel_ st'.2 ≤ i → filter (λ x, x ≠ a) ns = []).
Proof.
  intros [L HR] Hc. rewrite (contains_spec _ _ _ HR) in Hc.
  injection Hc as Hc. apply bool_decide_eq_true in Hc.
  destruct (erase_spec st L k HR) as (r & Her & [[Hn _]|(_ & L1 & e & L2 & h' & ml'
    & -> & Hk & -> & HR' & _ & _ & Hdom & _)]); [done|].
  simpl in *. pose proof HR as (hd & Hhd & HRep).
  pose proof (rep_nodes _ _ _ _ HRep) as Hn. rewrite Forall_forall in Hn.
  assert (e ∈ L1 ++ e :: L2) as Hmem by set_solver.
  specialize (Hn _ Hmem). unfold shape in Hn.
  destruct (st.1 !! e_addr e) as [nd|] eqn:Hnd; [|done].
  injection Hn as Hkey Hlen.
  pose proof (rep_nodup _ _ _ _ HRep) as Hnodup. apply NoDup_cons in Hnodup as [_ Hnodup].
  eexists _, (e_addr e), nd. split_and!; [done|done|congruence| |]; simpl.
  - apply not_elem_of_dom. rewrite Hdom. set_solver.
  - intros i Hi. exists (chain i (L1 ++ e :: L2)). split_and!.
    + by apply level_nodes_spec.
    + intros Hlt. by rewrite (level_nodes_spec _ (L1 ++ L2)) // chain_remove.
    + intros Hge. rewrite chain_remove //. apply chain_top.
      destruct HR' as (hd' & _ & HRep'). simpl in *.
      eapply Forall_impl; [apply (rep_lvl _ _ _ _ HRep')|]. simpl. lia.
Qed.

(** X23. Moves back and forth: after [b = std::move(a); a = std::move(b);]
    on two different lists, [a] is the object it was, with its sentinel and
    its keys, and [b] is an empty list of height 1; what [b] held is
    freed and the program state is well formed. *)
Theorem move_assign_round_trip (w : World Key Rng Real) (a b : nat)
    (o : SkipList Rng Real) :
  world_ok w → objs w !! a = Some o → is_Some (objs w !! b) → a ≠ b →
  ∃ w' src, exec_all [MoveAssign b a; MoveAssign a b] w = Some w'
    ∧ world_ok w'
    ∧ objs w' !! a = Some o
    ∧ iterate (heap w', o) = iterate (heap w, o)
    ∧ objs w' !! b = Some src ∧ maxLevel_ src = 1 ∧ iterate (heap w', src) = Some [].
Proof.
  intros Hok Ho Hb Hne.
  destruct (move_assign_moved w b a o Hok Ho Hb) as (w1 & Hex1 & Hm1 & Hok1); [done|].
  destruct Hm1 as (ks & h1 & src1 & Hit & Hb1 & Hit1 & Ha1 & _).
  destruct (move_assign_moved w1 a b o Hok1 Hb1) as (w2 & Hex2 & Hm2 & Hok2); [by eauto|done|].
  destruct Hm2 as (ks' & h2 & src2 & Hit' & Ha2 & Hit2 & Hb2 & _ & Hml & Hnil).
  exists w2, src2. split_and!; try done.
  - cbn [exec_all]. rewrite Hex1. cbn [mbind option_bind]. by rewrite Hex2.
  - congruence.
Qed.


End Proofs.

(** ** The claims on the example data *)

#[export] Instance Z_KeyLaws : KeyLaws Z.
Proof.
  split.
  - split; [intros x Hx; simpl in Hx; lia|intros x y z; simpl; lia].
  - intros x y. simpl. lia.
Qed.

Lemma demo_list_run : run demo_cmds demo_new = Some demo_list.
Proof. vm_compute. reflexivity. Qed.

Lemma demo_list_wf : wf demo_list.
Proof. eapply run_wf; [apply SkipList_new_wf|apply demo_list_run]. Qed.

(** Scenario A: duplicates collapse and iteration is ascending. *)
Example scenario_A : iterate demo_list = Some [1; 2; 3; 4; 5; 6; 9]%Z.
Proof. vm_compute. reflexivity. Qed.

(** Scenario B: after [erase(5)], [erase(1)] and [erase(10)]. *)
Example scenario_B :
  (run demo_cmds_erase demo_new ≫= iterate) = Some [2; 3; 4; 6; 9]%Z
  ∧ (st ← run (demo_cmds ++ [CErase 5; CErase 1]%Z) demo_new;
     fst <$> erase 10%Z st) = Some false.
Proof. split; vm_compute; reflexivity. Qed.

(** Scenario D: [list2], move-constructed from [list1], iterates 10, 20 and
    [list1] iterates nothing; after [list3 = std::move(list2)] the same
    holds of [list3] and [list2]. *)
Example scenario_D :
  (objs demo_world !! 2 ≫= λ sl, iterate (heap demo_world, sl)) = Some [10; 20]%Z
  ∧ (objs demo_world !! 1 ≫= λ sl, iterate (heap demo_world, sl)) = Some []
  ∧ (exec (MoveAssign 3 2) demo_world ≫= λ w,
       objs w !! 3 ≫= λ sl, iterate (heap w, sl)) = Some [10; 20]%Z
  ∧ (exec (MoveAssign 3 2) demo_world ≫= λ w,
       objs w !! 2 ≫= λ sl, iterate (heap w, sl)) = Some [].
Proof. split_and!; vm_compute; reflexivity. Qed.

Lemma demo_world_run : exec_all demo_ops world_empty = Some demo_world.
Proof. vm_compute. reflexivity. Qed.

Lemma demo_world_ok : world_ok demo_world.
Proof. eapply exec_all_ok; [apply world_empty_ok|apply demo_world_run]. Qed.

Lemma contains_iff_inserted_not_erased_witness :
  ∃ st b, run demo_cmds_erase demo_new = Some st
    ∧ contains 5%Z st = Some b
    ∧ (b = true ↔ inserted_not_erased 5%Z demo_cmds_erase).
Proof.
  exact (contains_iff_inserted_not_erased (1#2)%Q 32 demo_draws ∅ demo_cmds_erase 5%Z).
Defined.

Lemma erase_absent_present_witness :
  wf demo_list
  ∧ ∃ ks b st', iterate demo_list = Some ks ∧ erase 5%Z demo_list = Some (b, st')
      ∧ (((5%Z ∉ ks) ∧ b = false ∧ st' = demo_list ∧ iterate st' = Some ks)
         ∨ (5%Z ∈ ks ∧ b = true ∧ ∃ ks1 ks2,
              ks = ks1 ++ 5%Z :: ks2 ∧ (5%Z ∉ ks1 ++ ks2)
              ∧ iterate st' = Some (ks1 ++ ks2))).
Proof.
  split; [apply demo_list_wf|].
  apply (erase_absent_present demo_list 5%Z), demo_list_wf.
Defined.

Lemma insert_idempotent_witness :
  wf demo_list
  ∧ ∃ ks st1 ks1, iterate demo_list = Some ks ∧ insert 4%Z demo_list = Some st1
      ∧ (4%Z ∈ ks → st1 = demo_list)
      ∧ insert 4%Z st1 = Some st1
      ∧ iterate st1 = Some ks1 ∧ 4%Z ∈ ks1
      ∧ (once ← insert 4%Z demo_list; twice ← insert 4%Z once; iterate twice)
        = (once ← insert 4%Z demo_list; iterate once).
Proof.
  split; [apply demo_list_wf|].
  apply (insert_idempotent demo_list 4%Z), demo_list_wf.
Defined.

Lemma demo_list2_lookup : objs demo_world !! 2 = Some demo_list2.
Proof. vm_compute. reflexivity. Qed.

Lemma structural_invariants_preserved_witness :
  world_ok demo_world ∧ objs demo_world !! 2 = Some demo_list2
  ∧ structural_invariants (heap demo_world, demo_list2)
  ∧ ∃ ks, iterate (heap demo_world, demo_list2) = Some ks
      ∧ StronglySorted key_lt ks ∧ NoDup ks.
Proof.
  split; [apply demo_world_ok|]. split; [apply demo_list2_lookup|].
  apply (proj2 (proj2 (structural_invariants_preserved
                         (Key := Z) (Rng := list Q) (Real := Q)))
           demo_world 2 demo_list2 demo_world_ok demo_list2_lookup).
Defined.

Lemma demo_ops_maximum :
  ∀ (id : nat) (p : Q) (m : Z) (seed : list Q),
    New id p m seed ∈ demo_ops → (1 ≤ m)%Z.
Proof.
  intros id p m seed Hin. unfold demo_ops in Hin.
  repeat (apply elem_of_cons in Hin as [Heq|Hin];
          [try discriminate Heq; injection Heq as -> -> -> ->; lia|]).
  by apply elem_of_nil in Hin.
Qed.

Lemma height_within_maximum_witness :
  (∀ (id : nat) (p : Q) (m : Z) (seed : list Q),
     New id p m seed ∈ demo_ops → (1 ≤ m)%Z)
  ∧ exec_all demo_ops world_empty = Some demo_world
  ∧ objs demo_world !! 2 = Some demo_list2
  ∧ 1 ≤ maxLevel_ demo_list2
  ∧ (Z.of_nat (maxLevel_ demo_list2) ≤ maxAllowedLevel_ demo_list2)%Z
  ∧ ∃ hd ns, head_ demo_list2 = Some hd
      ∧ level_nodes 0 (heap demo_world, demo_list2) = Some ns
      ∧ ∀ a nd, a ∈ hd :: ns → heap demo_world !! a = Some nd →
          length (next nd) ≤ maxLevel_ demo_list2.
Proof.
  split; [apply demo_ops_maximum|]. split; [apply demo_world_run|].
  split; [apply demo_list2_lookup|].
  apply (height_within_maximum demo_ops demo_world demo_ops_maximum demo_world_run
           2 demo_list2 demo_list2_lookup).
Defined.

Lemma demo_erase_run : erase 5%Z demo_list = Some (true, demo_erased).
Proof. vm_compute. reflexivity. Qed.

Lemma erase_height_minimal_witness :
  wf demo_list ∧ erase 5%Z demo_list = Some (true, demo_erased)
  ∧ 1 ≤ maxLevel_ demo_erased.2
  ∧ (maxLevel_ demo_erased.2 = 1
     ∨ ∃ hd b, head_ demo_erased.2 = Some hd
         ∧ next_at demo_erased.1 hd (maxLevel_ demo_erased.2 - 1) = Some (Some b)).
Proof.
  split; [apply demo_list_wf|]. split; [apply demo_erase_run|].
  apply (erase_height_minimal demo_list demo_erased 5%Z demo_list_wf demo_erase_run).
Defined.

Lemma move_transfers_witness :
  world_ok demo_world ∧ objs demo_world !! 2 = Some demo_list2
  ∧ (∀ id, objs demo_world !! id = None →
       ∃ w', exec (MoveConstruct id 2) demo_world = Some w'
             ∧ moved demo_world w' id 2 demo_list2 ∧ world_ok w')
  ∧ (∀ id, is_Some (objs demo_world !! id) → id ≠ 2 →
       ∃ w', exec (MoveAssign id 2) demo_world = Some w'
             ∧ moved demo_world w' id 2 demo_list2 ∧ world_ok w')
  ∧ exec (MoveAssign 2 2) demo_world = Some demo_world.
Proof.
  split; [apply demo_world_ok|]. split; [apply demo_list2_lookup|].
  apply (move_transfers demo_world 2 demo_list2 demo_world_ok demo_list2_lookup).
Defined.

Lemma printByLevels_dump_witness :
  wf demo_list
  ∧ ∃ lines : nat → list Z,
      (∀ i, i < maxLevel_ demo_list.2 →
         StronglySorted key_lt (lines i)
         ∧ ∃ ns, level_nodes i demo_list = Some ns
                 ∧ keys_at demo_list.1 ns = Some (lines i))
      ∧ iterate demo_list = Some (lines 0)
      ∧ printByLevels demo_list [] =
          Some ([] ++ dump_header demo_list.2
                   ++ dump_levels (maxLevel_ demo_list.2) lines).
Proof.
  split; [apply demo_list_wf|].
  apply (printByLevels_dump demo_list []), demo_list_wf.
Defined.

Lemma demo_contains : contains 5%Z demo_list = Some true.
Proof. vm_compute. reflexivity. Qed.

Lemma insert_duplicate_keeps_rng_witness :
  wf demo_list ∧ contains 5%Z demo_list = Some true
  ∧ ∃ st', insert 5%Z demo_list = Some st'
      ∧ rng_ st'.2 = rng_ demo_list.2
      ∧ randomLevel st'.2 = randomLevel demo_list.2
      ∧ ∀ cs, run (CInsert 5%Z :: cs) demo_list = run cs demo_list.
Proof.
  split; [apply demo_list_wf|]. split; [apply demo_contains|].
  apply (insert_duplicate_keeps_rng demo_list 5%Z demo_list_wf demo_contains).
Defined.

(** C5 as stated fails on the code.  On a list of height 1 with maximum 32
    and draws below [p] the code returns 2, while the loop that goes on as
    long as the level does not exceed the height plus one returns 3, above
    the bound the claim itself gives; and read with the level after the
    increment as the candidate, the stated loop stops at 1 under the
    maximum 2 where the code returns 2. *)
Lemma randomLevel_not_as_stated :
  (fst <$> randomLevel demo_low = Some 2
   ∧ randomLevel_stated demo_low = Some 3
   ∧ ¬ 3 ≤ maxLevel_ demo_low + 1)
  ∧ (fst <$> randomLevel demo_capped = Some 2
     ∧ randomLevel_stated_next demo_capped = Some 1).
Proof.
  split; [split_and!|split]; try (vm_compute; reflexivity).
  simpl. lia.
Qed.

(** ** The further properties on the example data *)

Lemma demo_absent : contains 7%Z demo_list = Some false.
Proof. vm_compute. reflexivity. Qed.

Lemma demo_it_dereferenceable : dereferenceable demo_list demo_it.
Proof. split; [vm_compute; discriminate|]. exists 0. vm_compute. reflexivity. Qed.

Lemma demo_certain_draws :
  Forall (λ d, real_lt d (probability_ demo_certain) = true)
    (draws (S (maxLevel_ demo_certain)) (rng_ demo_certain)).1.
Proof. vm_compute. repeat constructor. Qed.

Lemma demo_world_next_run : exec (Insert 3 8%Z) demo_world = Some demo_world_next.
Proof. vm_compute. reflexivity. Qed.

Lemma demo_world_bystander : 2 ∉ op_objs (Insert (Rng := list Q) (Real := Q) 3 8%Z).
Proof. simpl. set_solver. Qed.

Lemma demo_world_list3 : is_Some (objs demo_world !! 3).
Proof. vm_compute. eauto. Qed.

Lemma demo_world_ids : ∀ id, id ∈ [3; 1; 2] ↔ is_Some (objs demo_world !! id).
Proof.
  intros id. rewrite -elem_of_dom.
  assert (dom (objs demo_world) = list_to_set [3; 1; 2]) as -> by (vm_compute; reflexivity).
  by rewrite elem_of_list_to_set.
Qed.

Lemma demo_ids_NoDup : NoDup [3; 1; 2].
Proof. repeat (apply NoDup_cons; split; [set_solver|]). apply NoDup_nil_2. Qed.

Lemma destroy_frees_list_witness :
  wf demo_list
  ∧ ∃ hd ns h', head_ demo_list.2 = Some hd ∧ level_nodes 0 demo_list = Some ns
      ∧ destroy demo_list = Some h'
      ∧ (∀ a, a ∈ hd :: ns → is_Some (demo_list.1 !! a) ∧ h' !! a = None)
      ∧ (∀ a, a ∉ hd :: ns → h' !! a = demo_list.1 !! a).
Proof.
  split; [apply demo_list_wf|]. apply (destroy_frees_list demo_list), demo_list_wf.
Defined.

Lemma run_destroy_restores_heap_witness :
  ∃ st, run demo_cmds_erase (SkipList_new (1#2)%Q 32 demo_draws ∅) = Some st
    ∧ destroy st = Some ∅.
Proof.
  exact (run_destroy_restores_heap (1#2)%Q 32 demo_draws ∅ demo_cmds_erase).
Defined.

Lemma contains_agrees_with_iteration_witness :
  wf demo_list
  ∧ ∃ ks, iterate demo_list = Some ks
      ∧ ∀ k, contains k demo_list = Some (bool_decide (k ∈ ks)).
Proof.
  split; [apply demo_list_wf|].
  exact (contains_agrees_with_iteration demo_list demo_list_wf).
Defined.

Lemma insert_then_contains_witness :
  wf demo_list
  ∧ ∃ st', insert 7%Z demo_list = Some st' ∧ wf st'
      ∧ contains 7%Z st' = Some true
      ∧ ∀ k', k' ≠ 7%Z → contains k' st' = contains k' demo_list.
Proof.
  split; [apply demo_list_wf|].
  apply (insert_then_contains demo_list 7%Z), demo_list_wf.
Defined.

Lemma erase_then_contains_witness :
  wf demo_list
  ∧ ∃ b st', erase 5%Z demo_list = Some (b, st') ∧ wf st'
      ∧ contains 5%Z demo_list = Some b
      ∧ contains 5%Z st' = Some false
      ∧ (∀ k', k' ≠ 5%Z → contains k' st' = contains k' demo_list)
      ∧ erase 5%Z st' = Some (false, st').
Proof.
  split; [apply demo_list_wf|].
  apply (erase_then_contains demo_list 5%Z), demo_list_wf.
Defined.

Lemma insert_sorted_position_witness :
  wf demo_list ∧ contains 7%Z demo_list = Some false
  ∧ ∃ st' ks1 ks2, insert 7%Z demo_list = Some st'
      ∧ iterate demo_list = Some (ks1 ++ ks2)
      ∧ Forall (λ x, key_lt x 7%Z) ks1 ∧ Forall (λ x, key_lt 7%Z x) ks2
      ∧ iterate st' = Some (ks1 ++ 7%Z :: ks2).
Proof.
  split; [apply demo_list_wf|]. split; [apply demo_absent|].
  apply (insert_sorted_position demo_list 7%Z demo_list_wf demo_absent).
Defined.

Lemma insert_erase_round_trip_witness :
  wf demo_list ∧ contains 7%Z demo_list = Some false
  ∧ ∃ st1 st2, insert 7%Z demo_list = Some st1 ∧ erase 7%Z st1 = Some (true, st2)
      ∧ iterate st2 = iterate demo_list
      ∧ dom st2.1 = dom demo_list.1.
Proof.
  split; [apply demo_list_wf|]. split; [apply demo_absent|].
  apply (insert_erase_round_trip demo_list 7%Z demo_list_wf demo_absent).
Defined.

Lemma demo_same_live_keys :
  ∀ k, inserted_not_erased k (CInsert <$> [2; 1]%Z)
       ↔ inserted_not_erased k ([CInsert 1; CInsert 3; CInsert 2; CErase 3]%Z).
Proof.
  assert (∀ cs ks, (run cs demo_new ≫= iterate) = Some ks →
            ∀ k : Z, inserted_not_erased k cs ↔ k ∈ ks) as Hchar.
  { intros cs ks Hr k. unfold demo_new in Hr.
    destruct (run_keys cs _ [] (SkipList_new_spec (1#2)%Q 32 demo_draws ∅))
      as (st & L & Hrun & HR & Hk).
    rewrite Hrun /= (iterate_spec _ _ HR) in Hr. injection Hr as <-.
    rewrite Hk. split; [by left|]. intros [?|[[]%elem_of_nil _]]. done. }
  assert ((run (CInsert <$> [2; 1]%Z) demo_new ≫= iterate) = Some [1; 2]%Z) as Ha
    by (vm_compute; reflexivity).
  assert ((run [CInsert 1; CInsert 3; CInsert 2; CErase 3]%Z demo_new ≫= iterate)
          = Some [1; 2]%Z) as Hb by (vm_compute; reflexivity).
  intros k. by rewrite (Hchar _ _ Ha) (Hchar _ _ Hb).
Qed.

Lemma iteration_determined_by_live_keys_witness :
  (∀ k, inserted_not_erased k (CInsert <$> [2; 1]%Z)
        ↔ inserted_not_erased k ([CInsert 1; CInsert 3; CInsert 2; CErase 3]%Z))
  ∧ ∃ ks, (run (CInsert <$> [2; 1]%Z) (SkipList_new (1#2)%Q 32 demo_draws ∅)
             ≫= iterate) = Some ks
      ∧ (run [CInsert 1; CInsert 3; CInsert 2; CErase 3]%Z
           (SkipList_new (3#4)%Q 4 [] ∅) ≫= iterate) = Some ks.
Proof.
  split; [apply demo_same_live_keys|].
  apply (iteration_determined_by_live_keys (1#2)%Q (3#4)%Q 32 4 demo_draws [] ∅ ∅
           _ _ demo_same_live_keys).
Defined.


Lemma height_is_tallest_node_witness :
  ∃ st, run demo_cmds_erase (SkipList_new (1#2)%Q 32 demo_draws ∅) = Some st
    ∧ (maxLevel_ st.2 = 1
       ∨ ∃ ns a nd, level_nodes 0 st = Some ns ∧ a ∈ ns ∧ st.1 !! a = Some nd
           ∧ length (next nd) = maxLevel_ st.2).
Proof.
  exact (height_is_tallest_node (1#2)%Q 32 demo_draws ∅ demo_cmds_erase).
Defined.

Lemma one_node_per_key_witness :
  ∃ st ks, run demo_cmds_erase (SkipList_new (1#2)%Q 32 demo_draws ∅) = Some st
    ∧ iterate st = Some ks
    ∧ size st.1 = size (∅ : gmap addr (Node Z)) + S (length ks)
    ∧ dom (∅ : gmap addr (Node Z)) ⊆ dom st.1.
Proof.
  exact (one_node_per_key (1#2)%Q 32 demo_draws ∅ demo_cmds_erase).
Defined.

Lemma iterator_positions_witness :
  wf demo_list
  ∧ ∃ ks its, iterate demo_list = Some ks
      ∧ length its = S (length ks)
      ∧ its !! length ks = Some end_
      ∧ (∀ j, iter_at j demo_list = its !! j)
      ∧ (∀ j it, its !! j = Some it →
           deref demo_list.1 it = ks !! j
           ∧ incr demo_list.1 it = its !! S j
           ∧ post_incr demo_list.1 it = (λ it', (it', it)) <$> its !! S j)
      ∧ (∀ i j a b, its !! i = Some a → its !! j = Some b →
           iter_eq a b = bool_decide (i = j) ∧ iter_ne a b = negb (bool_decide (i = j))).
Proof.
  split; [apply demo_list_wf|]. apply (iterator_positions demo_list), demo_list_wf.
Defined.

Lemma iterators_stay_valid_witness :
  wf demo_list ∧ dereferenceable demo_list demo_it
  ∧ (∀ k, ∃ st', insert k demo_list = Some st'
        ∧ dereferenceable st' demo_it ∧ deref st'.1 demo_it = deref demo_list.1 demo_it)
  ∧ (∀ k, ∃ b st', erase k demo_list = Some (b, st')
       ∧ if decide (deref demo_list.1 demo_it = Some k)
         then b = true ∧ deref st'.1 demo_it = None ∧ incr st'.1 demo_it = None
         else dereferenceable st' demo_it
              ∧ deref st'.1 demo_it = deref demo_list.1 demo_it).
Proof.
  split; [apply demo_list_wf|]. split; [apply demo_it_dereferenceable|].
  apply (iterators_stay_valid demo_list demo_it demo_list_wf demo_it_dereferenceable).
Defined.

Lemma resetToEmpty_spec_witness :
  wf demo_list ∧ resetToEmpty demo_list = demo_list
  ∧ head_ (transfer demo_list.2).2 = None ∧ 1 ≤ maxLevel_ (transfer demo_list.2).2
  ∧ wf (resetToEmpty (demo_list.1, (transfer demo_list.2).2))
  ∧ iterate (resetToEmpty (demo_list.1, (transfer demo_list.2).2)) = Some []
  ∧ maxLevel_ (resetToEmpty (demo_list.1, (transfer demo_list.2).2)).2
    = maxLevel_ (transfer demo_list.2).2
  ∧ size (resetToEmpty (demo_list.1, (transfer demo_list.2).2)).1 = S (size demo_list.1)
  ∧ ∀ x, is_Some (demo_list.1 !! x) →
      (resetToEmpty (demo_list.1, (transfer demo_list.2).2)).1 !! x = demo_list.1 !! x.
Proof.
  split; [apply demo_list_wf|].
  split; [apply (proj1 (resetToEmpty_spec demo_list.1 demo_list.2)), demo_list_wf|].
  split; [reflexivity|]. split; [simpl; lia|].
  apply (proj2 (resetToEmpty_spec demo_list.1 (transfer demo_list.2).2));
    [reflexivity|simpl; lia].
Defined.

Lemma constructed_empty_witness :
  wf demo_new
  ∧ maxLevel_ demo_new.2 = 1
  ∧ iterate demo_new = Some []
  ∧ begin demo_new = Some end_
  ∧ (∀ k, contains k demo_new = Some false ∧ erase k demo_new = Some (false, demo_new))
  ∧ size demo_new.1 = S (size (∅ : gmap addr (Node Z)))
  ∧ ∀ x, is_Some ((∅ : gmap addr (Node Z)) !! x) →
        demo_new.1 !! x = (∅ : gmap addr (Node Z)) !! x.
Proof.
  exact (constructed_empty (1#2)%Q 32 demo_draws ∅).
Defined.

Lemma maximum_one_stays_flat_witness :
  (1 ≤ 1)%Z
  ∧ ∃ st hd ns, run demo_cmds_erase (SkipList_new (1#2)%Q 1 demo_draws ∅) = Some st
      ∧ maxLevel_ st.2 = 1
      ∧ head_ st.2 = Some hd ∧ level_nodes 0 st = Some ns
      ∧ ∀ a, a ∈ hd :: ns → ∃ nd, st.1 !! a = Some nd ∧ length (next nd) = 1.
Proof.
  split; [lia|].
  apply (maximum_one_stays_flat (1#2)%Q 1 demo_draws ∅ demo_cmds_erase). lia.
Defined.

Lemma randomLevel_certain_witness :
  Forall (λ d, real_lt d (probability_ demo_certain) = true)
    (draws (S (maxLevel_ demo_certain)) (rng_ demo_certain)).1
  ∧ ∃ lvl rng',
      randomLevel demo_certain
        = Some (lvl, mkSkipList (head_ demo_certain) (maxLevel_ demo_certain)
                       (maxAllowedLevel_ demo_certain) (probability_ demo_certain) rng')
      ∧ Z.of_nat lvl
        = (1 `max` (maxAllowedLevel_ demo_certain
                      `min` (Z.of_nat (maxLevel_ demo_certain) + 1)))%Z.
Proof.
  split; [apply demo_certain_draws|].
  apply (randomLevel_certain demo_certain demo_certain_draws).
Defined.

Lemma exec_isolated_witness :
  world_ok demo_world ∧ exec (Insert 3 8%Z) demo_world = Some demo_world_next
  ∧ objs demo_world !! 2 = Some demo_list2
  ∧ (2 ∉ op_objs (Insert (Rng := list Q) (Real := Q) 3 8%Z))
  ∧ objs demo_world_next !! 2 = Some demo_list2
  ∧ iterate (heap demo_world_next, demo_list2) = iterate (heap demo_world, demo_list2)
  ∧ (∀ k, contains k (heap demo_world_next, demo_list2)
          = contains k (heap demo_world, demo_list2))
  ∧ ∃ hd ns, head_ demo_list2 = Some hd
      ∧ level_nodes 0 (heap demo_world, demo_list2) = Some ns
      ∧ ∀ a, a ∈ hd :: ns → heap demo_world_next !! a = heap demo_world !! a.
Proof.
  split; [apply demo_world_ok|]. split; [apply demo_world_next_run|].
  split; [apply demo_list2_lookup|]. split; [apply demo_world_bystander|].
  apply (exec_isolated demo_world demo_world_next (Insert 3 8%Z) 2 demo_list2
           demo_world_ok demo_world_next_run demo_list2_lookup demo_world_bystander).
Defined.

Lemma destructor_isolated_witness :
  world_ok demo_world ∧ objs demo_world !! 2 = Some demo_list2
  ∧ ∃ w', end_of_life 2 demo_world = Some w' ∧ world_ok w'
      ∧ objs w' = delete 2 (objs demo_world)
      ∧ ∀ oid' sl', oid' ≠ 2 → objs demo_world !! oid' = Some sl' →
          objs w' !! oid' = Some sl'
          ∧ iterate (heap w', sl') = iterate (heap demo_world, sl')
          ∧ ∀ k, contains k (heap w', sl') = contains k (heap demo_world, sl').
Proof.
  split; [apply demo_world_ok|]. split; [apply demo_list2_lookup|].
  apply (destructor_isolated demo_world 2 demo_list2 demo_world_ok demo_list2_lookup).
Defined.

Lemma program_no_leak_witness :
  exec_all demo_ops world_empty = Some demo_world
  ∧ NoDup [3; 1; 2]
  ∧ (∀ id, id ∈ [3; 1; 2] ↔ is_Some (objs demo_world !! id))
  ∧ end_all [3; 1; 2] demo_world = Some world_empty.
Proof.
  split; [apply demo_world_run|]. split; [apply demo_ids_NoDup|].
  split; [apply demo_world_ids|].
  apply (program_no_leak demo_ops demo_world [3; 1; 2] demo_world_run demo_ids_NoDup
           demo_world_ids).
Defined.

Lemma insert_links_new_node_witness :
  wf demo_list ∧ contains 7%Z demo_list = Some false
  ∧ ∃ st' lvl sl1 a nd,
      randomLevel demo_list.2 = Some (lvl, sl1) ∧ insert 7%Z demo_list = Some st'
      ∧ rng_ st'.2 = rng_ sl1
      ∧ maxLevel_ st'.2 = maxLevel_ demo_list.2 `max` lvl
      ∧ demo_list.1 !! a = None ∧ st'.1 !! a = Some nd ∧ key nd = 7%Z
      ∧ length (next nd) = lvl
      ∧ ∀ i, i < maxLevel_ st'.2 →
          ∃ ns', level_nodes i st' = Some ns'
            ∧ (a ∈ ns' ↔ i < lvl)
            ∧ (i < maxLevel_ demo_list.2 →
                 level_nodes i demo_list = Some (filter (λ x, x ≠ a) ns'))
            ∧ (maxLevel_ demo_list.2 ≤ i → ns' = [a]).
Proof.
  split; [apply demo_list_wf|]. split; [apply demo_absent|].
  apply (insert_links_new_node demo_list 7%Z demo_list_wf demo_absent).
Defined.

Lemma erase_unlinks_every_level_witness :
  wf demo_list ∧ contains 5%Z demo_list = Some true
  ∧ ∃ st' a nd, erase 5%Z demo_list = Some (true, st')
      ∧ demo_list.1 !! a = Some nd ∧ key nd = 5%Z ∧ st'.1 !! a = None
      ∧ ∀ i, i < maxLevel_ demo_list.2 →
          ∃ ns, level_nodes i demo_list = Some ns
            ∧ (i < maxLevel_ st'.2 →
                 level_nodes i st' = Some (filter (λ x, x ≠ a) ns))
            ∧ (maxLevel_ st'.2 ≤ i → filter (λ x, x ≠ a) ns = []).
Proof.
  split; [apply demo_list_wf|]. split; [apply demo_contains|].
  apply (erase_unlinks_every_level demo_list 5%Z demo_list_wf demo_contains).
Defined.

Lemma move_assign_round_trip_witness :
  world_ok demo_world ∧ objs demo_world !! 2 = Some demo_list2
  ∧ is_Some (objs demo_world !! 3) ∧ 2 ≠ 3
  ∧ ∃ w' src, exec_all [MoveAssign 3 2; MoveAssign 2 3] demo_world = Some w'
      ∧ world_ok w'
      ∧ objs w' !! 2 = Some demo_list2
      ∧ iterate (heap w', demo_list2) = iterate (heap demo_world, demo_list2)
      ∧ objs w' !! 3 = Some src ∧ maxLevel_ src = 1 ∧ iterate (heap w', src) = Some [].
Proof.
  split; [apply demo_world_ok|]. split; [apply demo_list2_lookup|].
  split; [apply demo_world_list3|]. split; [lia|].
  apply (move_assign_round_trip demo_world 2 3 demo_list2 demo_world_ok demo_list2_lookup
           demo_world_list3). lia.
Defined.
